(** * MCP server: connection pool and tool-execution wrappers

    A shallow embedding of [src/utils/connection-pool.ts] and
    [src/utils/tool-execution.ts], together with the type declarations of
    [src/types/mcp-server] and [src/types/http-transport] they rely on,
    and of the tool registry, the tool schemas and the handler of tool
    calls of the server in [src/config-validator.ts].

    Conventions of the embedding:
    - a [Date] is its [getTime()] value, an integer number of milliseconds;
      a JavaScript [number] that the code uses as a count or a duration is
      an integer ([Z]);
    - code that mutates [this] and may throw is written in a state monad in
      which a thrown exception keeps the mutations made before it;
    - a [Map] is the list of its entries in insertion order, which is the
      order in which JavaScript iterates it;
    - values thrown or passed around as [unknown] are data: [Error]
      objects and JSON-like values (what [JSON.parse] can give, and
      [undefined]) with the conversions of [Object.prototype] and
      [Array.prototype]. [String] throws on some of them, an object
      with an own property [toString] for one, and the embedding says
      where; [JSON.stringify] throws on none of them, so a BigInt or an
      object that refers to itself, on which it would, is outside what
      the statements below speak of;
    - time is logical: a promise settles a number of milliseconds after
      it is made, or never, and a timer fires after the delay
      [setTimeout] gives it, which is the delay asked for only from 1 to
      2147483647 ms. *)

From Stdlib Require Import ZArith List String Bool Lia DecimalString Sorted.
From ExtLib Require Import Structures.Monad.
Import ListNotations.
Import MonadNotation.

Set Warnings "-register-all".

Local Open Scope string_scope.
Local Open Scope Z_scope.
Local Open Scope monad_scope.

(* ===================================================================== *)
(** ** JavaScript values *)
(* ===================================================================== *)

Module Js.

(** JSON-like data, the shape of everything typed [unknown] in the
    source (raw tool arguments, response bodies of the upstream API,
    results of the tools): what [JSON.parse] can give, and [undefined].
    Numbers are integers. *)
Inductive value : Type :=
| VUndefined
| VNull
| VBool (b : bool)
| VNumber (n : Z)
| VString (s : string)
| VArray (elems : list value)
| VObject (props : list (string * value)).

(** Template-literal rendering of an integer number. *)
Definition string_of_Z (n : Z) : string :=
  NilZero.string_of_int (Z.to_int n).

(** [o[key]] on the own properties of a plain object. *)
Fixpoint prop (key : string) (props : list (string * value)) : option value :=
  match props with
  | [] => None
  | (k, v) :: rest => if String.eqb key k then Some v else prop key rest
  end.

(** [String(v)]; [None] when the conversion throws a [TypeError]. That
    is the case of an object with an own property [toString]: no value
    of this type is a function, so [toString] cannot be called, and
    [Object.prototype.valueOf] gives back the object, not a primitive.
    An array is joined from the conversions of its elements, and throws
    when one of them does. *)
Fixpoint String (v : value) : option string :=
  match v with
  | VUndefined => Some "undefined"
  | VNull => Some "null"
  | VBool true => Some "true"
  | VBool false => Some "false"
  | VNumber n => Some (string_of_Z n)
  | VString s => Some s
  | VArray elems =>
      (fix join (l : list value) : option string :=
         match l with
         | [] => Some EmptyString
         | x :: rest =>
             match match x with
                   | VUndefined | VNull => Some EmptyString
                   | _ => String x
                   end with
             | None => None
             | Some item =>
                 match rest with
                 | [] => Some item
                 | _ :: _ =>
                     match join rest with
                     | None => None
                     | Some others => Some (item ++ "," ++ others)
                     end
                 end
             end
         end) elems
  | VObject props =>
      match prop "toString" props with
      | Some _ => None
      | None => Some "[object Object]"
      end
  end.

(** [v.key], with [undefined] for a missing property. *)
Definition member (key : string) (v : value) : value :=
  match v with
  | VObject props =>
      match prop key props with
      | Some x => x
      | None => VUndefined
      end
  | _ => VUndefined
  end.

(** [typeof v === 'object' && v !== null]. *)
Definition is_object (v : value) : bool :=
  match v with
  | VObject _ | VArray _ => true
  | _ => false
  end.

(** [typeof v === 'string']. *)
Definition is_string (v : value) : bool :=
  match v with
  | VString _ => true
  | _ => false
  end.

End Js.

(* ===================================================================== *)
(** ** Error classes and shared types *)
(* ===================================================================== *)

Module Types.
Import Js.

(** *** [types/mcp-server]: the [MCPServerError] hierarchy *)

Record ToolExecutionDetails : Type := {
  ted_toolName : string;
  ted_originalError : string;
  ted_args : value
}.

Record N8NAPIDetails : Type := {
  nad_endpoint : string;
  nad_statusCode : value;
  nad_responseBody : option string
}.

Inductive MCPServerError : Type :=
| ModuleResolutionError (modulePath : string) (originalError : string)
| ToolExecutionError (toolName : string) (details : ToolExecutionDetails)
| ServerInitializationError (originalError : string) (phase : option string)
| N8NAPIError (endpoint : string) (details : N8NAPIDetails).

Definition mcp_code (e : MCPServerError) : string :=
  match e with
  | ModuleResolutionError _ _ => "MODULE_RESOLUTION_ERROR"
  | ToolExecutionError _ _ => "TOOL_EXECUTION_ERROR"
  | ServerInitializationError _ _ => "SERVER_INITIALIZATION_ERROR"
  | N8NAPIError _ _ => "N8N_API_ERROR"
  end.

Definition mcp_message (e : MCPServerError) : string :=
  match e with
  | ModuleResolutionError modulePath _ => "Failed to resolve module: " ++ modulePath
  | ToolExecutionError toolName _ => "Tool execution failed: " ++ toolName
  | ServerInitializationError _ _ => "Failed to initialize MCP server"
  | N8NAPIError endpoint _ => "N8N API request failed: " ++ endpoint
  end.

(** The [details] payload of an [MCPServerError], kept structured. *)
Inductive ErrorDetails : Type :=
| DetailsModule (modulePath originalError : string)
| DetailsTool (d : ToolExecutionDetails)
| DetailsInit (originalError : string) (phase : option string)
| DetailsAPI (d : N8NAPIDetails).

Definition mcp_details (e : MCPServerError) : ErrorDetails :=
  match e with
  | ModuleResolutionError modulePath originalError => DetailsModule modulePath originalError
  | ToolExecutionError _ d => DetailsTool d
  | ServerInitializationError originalError phase => DetailsInit originalError phase
  | N8NAPIError _ d => DetailsAPI d
  end.

(** *** [types/http-transport]: the [HTTPTransportError] hierarchy *)

Record PoolFullDetails : Type := {
  pfd_maxConnections : Z;
  pfd_currentConnections : Z
}.

Inductive HTTPTransportError : Type :=
| ConnectionPoolFullError (maxConnections : Z) (details : PoolFullDetails)
| InvalidSSERequestError (reason : string) (details : value)
| ConnectionTimeoutError (connectionId : string) (timeout : Z) (details : value)
| ServerShutdownError (details : value).

Definition http_code (e : HTTPTransportError) : string :=
  match e with
  | ConnectionPoolFullError _ _ => "CONNECTION_POOL_FULL"
  | InvalidSSERequestError _ _ => "INVALID_SSE_REQUEST"
  | ConnectionTimeoutError _ _ _ => "CONNECTION_TIMEOUT"
  | ServerShutdownError _ => "SERVER_SHUTDOWN"
  end.

Definition http_statusCode (e : HTTPTransportError) : Z :=
  match e with
  | ConnectionPoolFullError _ _ => 503
  | InvalidSSERequestError _ _ => 400
  | ConnectionTimeoutError _ _ _ => 408
  | ServerShutdownError _ => 503
  end.

Definition http_message (e : HTTPTransportError) : string :=
  match e with
  | ConnectionPoolFullError maxConnections _ =>
      "Connection pool full. Maximum " ++ string_of_Z maxConnections
        ++ " connections allowed."
  | InvalidSSERequestError reason _ => "Invalid SSE request: " ++ reason
  | ConnectionTimeoutError connectionId timeout _ =>
      "Connection " ++ connectionId ++ " timed out after "
        ++ string_of_Z timeout ++ "ms"
  | ServerShutdownError _ => "Server is shutting down"
  end.

(** *** What a [throw] can carry *)

(** A thrown value is an instance of [MCPServerError], an instance of
    [HTTPTransportError], any other [Error] (its [message] and the own
    properties it has besides, such as the [response] of an HTTP
    client's error), or a value that is not an [Error] at all. *)
Inductive exn : Type :=
| ExnMCP (e : MCPServerError)
| ExnHTTP (e : HTTPTransportError)
| ExnError (message : string) (props : list (string * value))
| ExnValue (v : value).

(** [new Error(message)]. *)
Definition Error (message : string) : exn := ExnError message [].

(** [error instanceof Error]. *)
Definition instanceof_Error (e : exn) : bool :=
  match e with
  | ExnValue _ => false
  | _ => true
  end.

(** The [TypeError] that a conversion to a string throws for a value
    that has no usable [toString]. *)
Definition cannot_convert : exn :=
  ExnError "Cannot convert object to primitive value" [].

(** *** Connections *)

Record ClientInfo : Type := {
  version : string;
  protocolVersion : string;
  capabilities : option (list (string * value))
}.

(** The express [Response] a connection writes to, as far as the pool
    looks at it: whether the headers are out, and what [end()] does. *)
Record Response : Type := {
  headersSent : bool;
  end_throws : option exn
}.

(** The SDK's transport object; the pool only stores it. *)
Inductive SSEServerTransport : Type :=
| transport_handle (n : nat).

Record SSEConnection : Type := {
  id : string;
  clientInfo : ClientInfo;
  connectedAt : Z;
  lastActivity : Z;
  transport : SSEServerTransport;
  response : option Response;
  isActive : bool
}.

Inductive EventKind : Type :=
| connected
| disconnected
| error
| timeout.

Record ConnectionEvent : Type := {
  connectionId : string;
  event : EventKind;
  timestamp : Z;
  details : option string
}.

Record HTTPTransportConfig : Type := {
  port : Z;
  host : string;
  corsOrigins : list string;
  maxConnections : Z;
  connectionTimeout : Z;
  keepAliveTimeout : Z
}.

Definition DEFAULT_HTTP_CONFIG : HTTPTransportConfig := {|
  port := 3000;
  host := "0.0.0.0";
  corsOrigins := ["*"];
  maxConnections := 100;
  connectionTimeout := 300000;
  keepAliveTimeout := 60000
|}.

End Types.

(* ===================================================================== *)
(** ** Computations that mutate a world and may throw or never finish *)
(* ===================================================================== *)

Module Async.
Import Js Types.

(** How the evaluation of an [async] function body ends. *)
Inductive completion (A : Type) : Type :=
| Returned (a : A)
| Threw (e : exn)
| Pending.
Arguments Returned {A} a.
Arguments Threw {A} e.
Arguments Pending {A}.

(** A computation over a world [W]; the world it leaves behind is kept
    also when it throws. *)
Definition M (W A : Type) : Type := W -> completion A * W.

Definition mret {W A} (a : A) : M W A := fun w => (Returned a, w).

Definition mbind {W A B} (c : M W A) (k : A -> M W B) : M W B :=
  fun w =>
    match c w with
    | (Returned a, w') => k a w'
    | (Threw e, w') => (Threw e, w')
    | (Pending, w') => (Pending, w')
    end.

(** [throw e]. *)
Definition throw {W A} (e : exn) : M W A := fun w => (Threw e, w).

(** [try { body } catch (e) { handler }]. *)
Definition try_catch {W A} (body : M W A) (handler : exn -> M W A) : M W A :=
  fun w =>
    match body w with
    | (Threw e, w') => handler e w'
    | other => other
    end.

(** An expression whose only way to throw is a conversion to a string
    that fails: [None] stands for the [TypeError] thrown. *)
Definition or_throw {W A} (o : option A) : M W A :=
  match o with
  | Some a => mret a
  | None => throw cannot_convert
  end.

Definition gets {W A} (f : W -> A) : M W A := fun w => (Returned (f w), w).

Definition modify {W} (f : W -> W) : M W unit := fun w => (Returned tt, f w).

#[export] Instance Monad_M {W} : Monad (M W) :=
  {| ret := @mret W; bind := @mbind W |}.

(** [for (const x of xs) { body(x) }]. *)
Fixpoint for_of {W A} (xs : list A) (body : A -> M W unit) : M W unit :=
  match xs with
  | [] => ret tt
  | x :: rest => body x ;; for_of rest body
  end.

End Async.

(* ===================================================================== *)
(** ** [utils/connection-pool.ts] *)
(* ===================================================================== *)

Module ConnectionPool.
Import Js Types Async.

(** *** [Map<string, V>], entries in insertion order *)

Fixpoint Map_get {V} (key : string) (m : list (string * V)) : option V :=
  match m with
  | [] => None
  | (k, v) :: rest => if String.eqb key k then Some v else Map_get key rest
  end.

(** [m.set(key, v)]: an existing key keeps its place, a new one goes last. *)
Fixpoint Map_set {V} (key : string) (v : V) (m : list (string * V)) : list (string * V) :=
  match m with
  | [] => [(key, v)]
  | (k, v') :: rest =>
      if String.eqb key k then (k, v) :: rest else (k, v') :: Map_set key v rest
  end.

Definition Map_delete {V} (key : string) (m : list (string * V)) : list (string * V) :=
  filter (fun entry => negb (String.eqb key (fst entry))) m.

Definition Map_size {V} (m : list (string * V)) : Z := Z.of_nat (List.length m).

Definition Map_keys {V} (m : list (string * V)) : list string := map fst m.

Definition Map_values {V} (m : list (string * V)) : list V := map snd m.

(** *** The pool object and the two things outside it that it acts on *)

Inductive ConsoleLine : Type :=
| console_log (line : string)
| console_warn (line : string) (err : exn)
| console_error (line : string) (err : exn).

Record SSEConnectionPool : Type := {
  connections : list (string * SSEConnection);
  connectionHistory : list ConnectionEvent;
  config : HTTPTransportConfig;
  cleanupInterval : bool;
      (** whether the [setInterval] timer of the constructor is still armed *)
  isShuttingDown : bool;
  ended : list string;
      (** ids of the connections whose [response.end()] was called and returned *)
  console : list ConsoleLine
}.

Definition set_connections (f : list (string * SSEConnection) -> list (string * SSEConnection))
    (p : SSEConnectionPool) : SSEConnectionPool :=
  {| connections := f p.(connections);
     connectionHistory := p.(connectionHistory);
     config := p.(config);
     cleanupInterval := p.(cleanupInterval);
     isShuttingDown := p.(isShuttingDown);
     ended := p.(ended);
     console := p.(console) |}.

Definition set_connectionHistory (f : list ConnectionEvent -> list ConnectionEvent)
    (p : SSEConnectionPool) : SSEConnectionPool :=
  {| connections := p.(connections);
     connectionHistory := f p.(connectionHistory);
     config := p.(config);
     cleanupInterval := p.(cleanupInterval);
     isShuttingDown := p.(isShuttingDown);
     ended := p.(ended);
     console := p.(console) |}.

Definition set_cleanupInterval (b : bool) (p : SSEConnectionPool) : SSEConnectionPool :=
  {| connections := p.(connections);
     connectionHistory := p.(connectionHistory);
     config := p.(config);
     cleanupInterval := b;
     isShuttingDown := p.(isShuttingDown);
     ended := p.(ended);
     console := p.(console) |}.

Definition set_isShuttingDown (b : bool) (p : SSEConnectionPool) : SSEConnectionPool :=
  {| connections := p.(connections);
     connectionHistory := p.(connectionHistory);
     config := p.(config);
     cleanupInterval := p.(cleanupInterval);
     isShuttingDown := b;
     ended := p.(ended);
     console := p.(console) |}.

Definition add_ended (connectionId : string) (p : SSEConnectionPool) : SSEConnectionPool :=
  {| connections := p.(connections);
     connectionHistory := p.(connectionHistory);
     config := p.(config);
     cleanupInterval := p.(cleanupInterval);
     isShuttingDown := p.(isShuttingDown);
     ended := (p.(ended) ++ [connectionId])%list;
     console := p.(console) |}.

Definition add_console (line : ConsoleLine) (p : SSEConnectionPool) : SSEConnectionPool :=
  {| connections := p.(connections);
     connectionHistory := p.(connectionHistory);
     config := p.(config);
     cleanupInterval := p.(cleanupInterval);
     isShuttingDown := p.(isShuttingDown);
     ended := p.(ended);
     console := (p.(console) ++ [line])%list |}.

Definition Pool (A : Type) : Type := M SSEConnectionPool A.

Definition log (line : ConsoleLine) : Pool unit := modify (add_console line).

(** [response.end()]. *)
Definition response_end (connectionId : string) (r : Response) : Pool unit :=
  match r.(end_throws) with
  | Some err => throw err
  | None => modify (add_ended connectionId)
  end.

Definition with_lastActivity (now : Z) (c : SSEConnection) : SSEConnection :=
  {| id := c.(id);
     clientInfo := c.(clientInfo);
     connectedAt := c.(connectedAt);
     lastActivity := now;
     transport := c.(transport);
     response := c.(response);
     isActive := c.(isActive) |}.

(** *** The class [SSEConnectionPool]

    Every method that reads the clock ([new Date()]) takes the value read
    as its argument [now]. *)

(** [constructor(config)]. The timer it arms calls
    [cleanupInactiveConnections] every [keepAliveTimeout] ms; here a
    sweep is a call like any other, made at whatever time it is. *)
Definition new_pool (cfg : HTTPTransportConfig) : SSEConnectionPool :=
  {| connections := [];
     connectionHistory := [];
     config := cfg;
     cleanupInterval := true;
     isShuttingDown := false;
     ended := [];
     console := [] |}.

(** [history.splice(0, history.length - 1000)] when longer than 1000. *)
Definition keep_last_1000 (history : list ConnectionEvent) : list ConnectionEvent :=
  if Nat.ltb 1000 (List.length history)
  then skipn (List.length history - 1000) history
  else history.

Definition addConnectionEvent (ev : ConnectionEvent) : Pool unit :=
  modify (set_connectionHistory (fun history => keep_last_1000 (history ++ [ev])%list)).

Definition pool_size_line (size maxConn : Z) : string :=
  " (" ++ string_of_Z size ++ "/" ++ string_of_Z maxConn ++ ")".

(** The four event records the class builds. *)
Definition error_event (now : Z) (connection : SSEConnection) (err : HTTPTransportError)
    : ConnectionEvent :=
  {| connectionId := connection.(id);
     event := error;
     timestamp := now;
     details := Some (http_message err) |}.

Definition connected_event (now : Z) (connection : SSEConnection) : ConnectionEvent :=
  {| connectionId := connection.(id);
     event := connected;
     timestamp := now;
     details := Some ("Client: " ++ connection.(clientInfo).(version)) |}.

Definition disconnected_event (now : Z) (connectionId : string) : ConnectionEvent :=
  {| connectionId := connectionId;
     event := disconnected;
     timestamp := now;
     details := None |}.

Definition timeout_event (now : Z) (connectionId : string) (timeSinceLastActivity : Z)
    : ConnectionEvent :=
  {| connectionId := connectionId;
     event := timeout;
     timestamp := now;
     details := Some ("Timeout after " ++ string_of_Z timeSinceLastActivity ++ "ms") |}.

Definition pool_full_error (size maxConn : Z) : HTTPTransportError :=
  ConnectionPoolFullError maxConn
    {| pfd_maxConnections := maxConn; pfd_currentConnections := size |}.

Definition addConnection (now : Z) (connection : SSEConnection) : Pool unit :=
  shuttingDown <- gets isShuttingDown ;;
  if shuttingDown : bool then
    throw (Error "Connection pool is shutting down")
  else
    size <- gets (fun p => Map_size p.(connections)) ;;
    maxConn <- gets (fun p => p.(config).(maxConnections)) ;;
    if size >=? maxConn then
      let err := pool_full_error size maxConn in
      addConnectionEvent (error_event now connection err) ;;
      throw (ExnHTTP err)
    else
      modify (set_connections (Map_set connection.(id) connection)) ;;
      addConnectionEvent (connected_event now connection) ;;
      size' <- gets (fun p => Map_size p.(connections)) ;;
      log (console_log ("[ConnectionPool] Added connection " ++ connection.(id)
                          ++ pool_size_line size' maxConn)).

(** The [try { ... } catch (error) { console.warn(...) }] of
    [removeConnection]. *)
Definition close_response (connectionId : string) (connection : SSEConnection) : Pool unit :=
  try_catch
    (match connection.(response) with
     | Some r => if negb r.(headersSent) then response_end connectionId r else ret tt
     | None => ret tt
     end)
    (fun err =>
       log (console_warn ("[ConnectionPool] Error closing connection "
                            ++ connectionId ++ ":") err)).

Definition removeConnection (now : Z) (connectionId : string) : Pool unit :=
  found <- gets (fun p => Map_get connectionId p.(connections)) ;;
  match found with
  | None => ret tt
  | Some connection =>
      close_response connectionId connection ;;
      modify (set_connections (Map_delete connectionId)) ;;
      addConnectionEvent (disconnected_event now connectionId) ;;
      size <- gets (fun p => Map_size p.(connections)) ;;
      maxConn <- gets (fun p => p.(config).(maxConnections)) ;;
      log (console_log ("[ConnectionPool] Removed connection " ++ connectionId
                          ++ pool_size_line size maxConn))
  end.

Definition getConnection (connectionId : string) (p : SSEConnectionPool) : option SSEConnection :=
  Map_get connectionId p.(connections).

Definition getAllConnections (p : SSEConnectionPool) : list SSEConnection :=
  Map_values p.(connections).

Definition getActiveConnections (p : SSEConnectionPool) : list SSEConnection :=
  filter isActive (Map_values p.(connections)).

(** [timeSinceLastActivity > timeoutMs]. *)
Definition timed_out (now timeoutMs : Z) (connection : SSEConnection) : bool :=
  now - connection.(lastActivity) >? timeoutMs.

(** [getPoolState()], a snapshot of what the pool lets others see
    (the interface [ConnectionPool]). *)
Record PoolState : Type := {
  state_connections : list (string * SSEConnection);
  state_maxConnections : Z;
  state_activeCount : Z;
  state_totalConnections : Z;
  state_connectionHistory : list ConnectionEvent
}.

Definition getPoolState (p : SSEConnectionPool) : PoolState :=
  {| state_connections := p.(connections);
     state_maxConnections := p.(config).(maxConnections);
     state_activeCount := Z.of_nat (List.length (getActiveConnections p));
     state_totalConnections := Map_size p.(connections);
     state_connectionHistory := p.(connectionHistory) |}.

(** The first loop of [cleanupInactiveConnections]: walks the entries,
    pushes the id of each timed-out one on [connectionsToRemove] and
    records its [timeout] event. *)
Fixpoint collect_timed_out (now timeoutMs : Z) (entries : list (string * SSEConnection))
    (connectionsToRemove : list string) : Pool (list string) :=
  match entries with
  | [] => ret connectionsToRemove
  | (connectionId, connection) :: rest =>
      let timeSinceLastActivity := now - connection.(lastActivity) in
      if timeSinceLastActivity >? timeoutMs then
        addConnectionEvent (timeout_event now connectionId timeSinceLastActivity) ;;
        collect_timed_out now timeoutMs rest (connectionsToRemove ++ [connectionId])%list
      else
        collect_timed_out now timeoutMs rest connectionsToRemove
  end.

Definition cleanupInactiveConnections (now : Z) : Pool Z :=
  timeoutMs <- gets (fun p => p.(config).(connectionTimeout)) ;;
  entries <- gets connections ;;
  connectionsToRemove <- collect_timed_out now timeoutMs entries [] ;;
  for_of connectionsToRemove (removeConnection now) ;;
  (if Nat.ltb 0 (List.length connectionsToRemove) then
     log (console_log ("[ConnectionPool] Cleaned up "
                         ++ string_of_Z (Z.of_nat (List.length connectionsToRemove))
                         ++ " timed out connections"))
   else ret tt) ;;
  ret (Z.of_nat (List.length connectionsToRemove)).

Definition updateConnectionActivity (now : Z) (connectionId : string) : Pool unit :=
  found <- gets (fun p => Map_get connectionId p.(connections)) ;;
  match found with
  | Some connection =>
      modify (set_connections (Map_set connectionId (with_lastActivity now connection)))
  | None => ret tt
  end.

(** [Promise.allSettled] over the removals: each [removeConnection(id)]
    runs when [map] calls it, and a rejection of one is absorbed. *)
Definition shutdown (now : Z) : Pool unit :=
  log (console_log "[ConnectionPool] Starting graceful shutdown...") ;;
  modify (set_isShuttingDown true) ;;
  modify (set_cleanupInterval false) ;;
  connectionIds <- gets (fun p => Map_keys p.(connections)) ;;
  for_of connectionIds
    (fun connectionId => try_catch (removeConnection now connectionId) (fun _ => ret tt)) ;;
  log (console_log ("[ConnectionPool] Shutdown complete. Closed "
                      ++ string_of_Z (Z.of_nat (List.length connectionIds))
                      ++ " connections.")).

(** *** Notions the statements about the pool use *)

Inductive Call : Type :=
| CallAdd (now : Z) (connection : SSEConnection)
| CallRemove (now : Z) (connectionId : string).

Definition call (c : Call) : Pool unit :=
  match c with
  | CallAdd now connection => addConnection now connection
  | CallRemove now connectionId => removeConnection now connectionId
  end.

(** The pool after a sequence of calls, whatever each of them returned
    or threw. *)
Definition after_calls (calls : list Call) (p : SSEConnectionPool) : SSEConnectionPool :=
  fold_left (fun q c => snd (call c q)) calls p.

(** The history after [addConnectionEvent] was called on each of
    [events] in turn. *)
Definition record_all (events : list ConnectionEvent) (history : list ConnectionEvent)
    : list ConnectionEvent :=
  fold_left (fun h ev => keep_last_1000 (h ++ [ev])%list) events history.

(** The entries of the map a sweep at [now] finds timed out. *)
Definition stale (now : Z) (p : SSEConnectionPool) : list (string * SSEConnection) :=
  filter (fun entry => timed_out now p.(config).(connectionTimeout) (snd entry))
    p.(connections).

Definition fresh (now : Z) (p : SSEConnectionPool) : list (string * SSEConnection) :=
  filter (fun entry => negb (timed_out now p.(config).(connectionTimeout) (snd entry)))
    p.(connections).


(** The fields of the pool object itself agree; the console and the
    responses acted on may differ. *)
Definition same_object (p q : SSEConnectionPool) : Prop :=
  connections q = connections p /\
  connectionHistory q = connectionHistory p /\
  config q = config p /\
  cleanupInterval q = cleanupInterval p /\
  isShuttingDown q = isShuttingDown p.

(** The map after [delete] was called on each of [ids] in turn. *)
Definition delete_all (ids : list string) (m : list (string * SSEConnection))
    : list (string * SSEConnection) :=
  fold_left (fun m' connectionId => Map_delete connectionId m') ids m.

(** *** Pools and connections for the examples *)

Definition demo_client : ClientInfo :=
  {| version := "1.0.0"; protocolVersion := "2024-11-05"; capabilities := None |}.

Definition demo_connection (name : string) (lastSeen : Z) (r : option Response)
    : SSEConnection :=
  {| id := name;
     clientInfo := demo_client;
     connectedAt := lastSeen;
     lastActivity := lastSeen;
     transport := transport_handle 0;
     response := r;
     isActive := true |}.

(** A response whose headers are not out yet and whose [end()] throws. *)
Definition broken_response : Response :=
  {| headersSent := false; end_throws := Some (Error "write after end") |}.

Definition one_slot : HTTPTransportConfig :=
  {| port := 3000; host := "0.0.0.0"; corsOrigins := ["*"];
     maxConnections := 1; connectionTimeout := 300000; keepAliveTimeout := 60000 |}.

Definition three_calls : list Call :=
  [CallAdd 1 (demo_connection "a" 1 None);
   CallRemove 2 "a";
   CallAdd 3 (demo_connection "b" 3 None)].

(** A pool of capacity one that is full. *)
Definition full_pool : SSEConnectionPool :=
  after_calls [CallAdd 1 (demo_connection "a" 1 None)] (new_pool one_slot).

(** Two connections, one last heard of at 1000 and one at 250000; the
    first one's response fails to close. *)
Definition two_idle : SSEConnectionPool :=
  after_calls [CallAdd 1000 (demo_connection "old" 1000 (Some broken_response));
               CallAdd 250000 (demo_connection "recent" 250000 None)]
    (new_pool DEFAULT_HTTP_CONFIG).

End ConnectionPool.

(* ===================================================================== *)
(** ** [utils/tool-execution.ts] *)
(* ===================================================================== *)

Module ToolExecution.
Import Js Types Async.

(** *** Tool responses and results ([types/mcp-server]) *)

(** One item of [content]; its [type] is always ['text']. *)
Record TextContent : Type := {
  text : option string
}.

Inductive Metadata : Type :=
| MetaData (data : value)
| MetaError (errorCode : string) (errorDetails : ErrorDetails).

Record ToolResponse : Type := {
  content : list TextContent;
  isError : option bool;
  metadata : option Metadata
}.

Inductive Result (T E : Type) : Type :=
| createSuccess (data : T)
| createError (err : E).
Arguments createSuccess {T E} data.
Arguments createError {T E} err.

(** The type guards of [types/mcp-server]. *)
Definition isListWorkflowsArgs (args : value) : bool :=
  is_object args.

Definition isGetWorkflowArgs (args : value) : bool :=
  is_object args && is_string (member "workflowId" args).

Definition isCreateWorkflowArgs (args : value) : bool :=
  is_object args && is_string (member "name" args).

(** *** Promises in logical time *)

Inductive outcome (T : Type) : Type :=
| Fulfilled (v : T)
| Rejected (e : exn).
Arguments Fulfilled {T} v.
Arguments Rejected {T} e.

(** What becomes of a promise, counted from the moment it is created:
    it settles after so many milliseconds, or never does. *)
Inductive Promise (T : Type) : Type :=
| Never
| Settles (ms : Z) (o : outcome T).
Arguments Never {T}.
Arguments Settles {T} ms o.

(** What the code cannot see of the platform it runs on. *)
Record Runtime : Type := {
  operation_first_on_tie : bool;
      (** when an operation and a timer settle in the same millisecond,
          whether the event loop delivers the operation first *)
  JSON_stringify : value -> option string;
      (** [JSON.stringify(v)]; [None] is [undefined] *)
  JSON_stringify_indented : value -> option string
      (** [JSON.stringify(v, null, 2)] *)
}.

(** What happened, in order: calls of the operation handed to a wrapper
    and delays asked of [setTimeout] between attempts. *)
Inductive Event : Type :=
| Invoked
| Waited (ms : Z).

Record LogData : Type := {
  tool : string;
  duration : Z;
  success : bool;
  log_timestamp : Z;
  log_error : option (string * string * ErrorDetails)
}.

Inductive ConsoleLine : Type :=
| console_log (prefix : string) (data : LogData)
| console_error (prefix : string) (data : LogData).

Definition invocations (tr : list Event) : nat :=
  List.length (filter (fun ev => match ev with Invoked => true | Waited _ => false end) tr).

Fixpoint delays (tr : list Event) : list Z :=
  match tr with
  | [] => []
  | Invoked :: rest => delays rest
  | Waited ms :: rest => ms :: delays rest
  end.

Section Wrappers.

(** The state outside the server that operations read and change (the
    upstream API, counters of a test double). *)
Context {St : Type}.
Variable rt : Runtime.

Record World : Type := {
  now : Z;
  store : St;
  trace : list Event;
  console : list ConsoleLine
}.

Definition Task (A : Type) : Type := M World A.

(** [() => Promise<T>]: calling it acts on the store at once and hands
    back a promise. *)
Definition Operation (T : Type) : Type := St -> Promise T * St.

Definition invoke {T} (operation : Operation T) : Task (Promise T) :=
  fun w =>
    let (p, s') := operation w.(store) in
    (Returned p,
     {| now := w.(now); store := s';
        trace := (w.(trace) ++ [Invoked])%list; console := w.(console) |}).

(** The world [ms] milliseconds later. *)
Definition after_ms (ms : Z) (w : World) : World :=
  {| now := w.(now) + ms; store := w.(store);
     trace := w.(trace); console := w.(console) |}.

Definition elapse (ms : Z) : Task unit := modify (after_ms ms).

(** [await p]. *)
Definition await {T} (p : Promise T) : Task T :=
  match p with
  | Never => fun w => (Pending, w)
  | Settles ms (Fulfilled v) => elapse ms ;; ret v
  | Settles ms (Rejected e) => elapse ms ;; throw e
  end.

(** The delay [setTimeout(f, ms)] really waits for: a delay below 1 or
    above 2147483647 (the largest 32-bit signed integer) is replaced
    by 1. *)
Definition setTimeout_delay (ms : Z) : Z :=
  if (1 <=? ms) && (ms <=? 2147483647) then ms else 1.

(** [new Promise(resolve => setTimeout(resolve, ms))]. *)
Definition timer (ms : Z) : Promise unit := Settles (setTimeout_delay ms) (Fulfilled tt).

Definition sleep (ms : Z) : Task unit :=
  modify (fun w => {| now := w.(now); store := w.(store);
                      trace := (w.(trace) ++ [Waited ms])%list; console := w.(console) |}) ;;
  await (timer ms).

(** [await operation()]. *)
Definition call_and_await {T} (operation : Operation T) : Task T :=
  p <- invoke operation ;;
  await p.

Definition print (line : ConsoleLine) : Task unit :=
  modify (fun w => {| now := w.(now); store := w.(store);
                      trace := w.(trace); console := (w.(console) ++ [line])%list |}).

(** [Promise.race([p, q])]: the one that settles first decides. *)
Definition Promise_race {T} (p q : Promise T) : Promise T :=
  match p, q with
  | Never, _ => q
  | _, Never => p
  | Settles a _, Settles b _ =>
      if a <? b then p
      else if b <? a then q
      else if rt.(operation_first_on_tie) then p else q
  end.

(** *** The wrappers *)

(** [createMCPError(toolName, error, args)]. For a value that is not an
    [Error] it calls [String(error)]: the result is [None] when that
    throws. [JSON.stringify] does not throw on the data this embedding
    holds for [response.data] (JSON-like, so without cycles and without
    BigInts). *)
Definition createMCPError (toolName : string) (err : exn) (args : value)
    : option MCPServerError :=
  let failed (originalError : string) :=
    ToolExecutionError toolName
      {| ted_toolName := toolName; ted_originalError := originalError; ted_args := args |} in
  match err with
  | ExnMCP e => Some e
  | ExnError message props =>
      match prop "response" props with
      | Some resp =>
          if is_object resp then
            Some (N8NAPIError toolName
                    {| nad_endpoint := toolName;
                       nad_statusCode := member "status" resp;
                       nad_responseBody :=
                         match member "data" resp with
                         | VString s => Some s
                         | data => rt.(JSON_stringify) data
                         end |})
          else Some (failed message)
      | None => Some (failed message)
      end
  | ExnHTTP e => Some (failed (http_message e))
  | ExnValue v =>
      match String v with
      | Some originalError => Some (failed originalError)
      | None => None
      end
  end.

Definition error_response (prefix : string) (toolName : string) (e : MCPServerError)
    : ToolResponse :=
  {| content := [ {| text := Some (prefix ++ toolName ++ ": " ++ mcp_message e) |} ];
     isError := Some true;
     metadata := Some (MetaError (mcp_code e) (mcp_details e)) |}.

Definition safeToolExecution (toolName : string) (args : value)
    (handler : value -> Operation ToolResponse) : Task ToolResponse :=
  try_catch
    (result <- call_and_await (handler args) ;;
     ret result)
    (fun err =>
       mcpError <- or_throw (createMCPError toolName err args) ;;
       ret (error_response "Error executing " toolName mcpError)).

(** The error [validateToolArgs] builds. *)
Definition invalid_arguments (toolName : string) (args : value) : MCPServerError :=
  ToolExecutionError toolName
    {| ted_toolName := toolName;
       ted_originalError := "Invalid arguments provided";
       ted_args := args |}.

Definition validateToolArgs (args : value) (validator : value -> bool) (toolName : string)
    : Result value MCPServerError :=
  if negb (validator args) then createError (invalid_arguments toolName args)
  else createSuccess args.

(** [error instanceof Error ? error : new Error(String(error))];
    [None] when the conversion throws. *)
Definition as_Error (err : exn) : option exn :=
  match err with
  | ExnValue v =>
      match String v with
      | Some message => Some (Error message)
      | None => None
      end
  | _ => Some err
  end.

(** The values [attempt] takes in [for (attempt = 1; attempt <= maxRetries; attempt++)]. *)
Definition attempts (maxRetries : Z) : list Z :=
  map Z.of_nat (seq 1 (Z.to_nat maxRetries)).

(** The body of the loop of [withRetry], for the attempts still to make;
    [lastError] is [None] while the variable is unassigned. *)
Fixpoint retry_loop {T} (operation : Operation T) (maxRetries delayMs : Z)
    (todo : list Z) (lastError : option exn) : Task T :=
  match todo with
  | [] =>
      throw (match lastError with
             | Some e => e
             | None => ExnValue VUndefined
             end)
  | attempt :: rest =>
      try_catch
        (call_and_await operation)
        (fun err =>
           lastError' <- or_throw (as_Error err) ;;
           if attempt =? maxRetries then throw lastError'
           else
             sleep (delayMs * 2 ^ (attempt - 1)) ;;
             retry_loop operation maxRetries delayMs rest (Some lastError'))
  end.

(** [withRetry(operation, maxRetries = 3, delayMs = 1000)]. *)
Definition withRetry {T} (operation : Operation T) (maxRetries delayMs : Z) : Task T :=
  retry_loop operation maxRetries delayMs (attempts maxRetries) None.

(** The error the timer of [withTimeout] rejects with. *)
Definition timeout_error (timeoutMs : Z) : exn :=
  Error ("Operation timed out after " ++ string_of_Z timeoutMs ++ "ms").

Definition timeoutPromise {T} (timeoutMs : Z) : Promise T :=
  Settles (setTimeout_delay timeoutMs) (Rejected (timeout_error timeoutMs)).

(** [withTimeout(operation, timeoutMs = 30000)]; [operation] is a promise
    already under way. *)
Definition withTimeout {T} (operation : Promise T) (timeoutMs : Z) : Promise T :=
  Promise_race operation (timeoutPromise timeoutMs).

Record ResilienceOptions : Type := {
  opt_maxRetries : option Z;
  opt_timeoutMs : option Z;
  opt_delayMs : option Z
}.

Definition or_default (o : option Z) (d : Z) : Z :=
  match o with
  | Some x => x
  | None => d
  end.

Definition executeWithResilience {T} (operation : Operation T) (options : ResilienceOptions)
    : Task T :=
  let maxRetries := or_default options.(opt_maxRetries) 3 in
  let timeoutMs := or_default options.(opt_timeoutMs) 30000 in
  let delayMs := or_default options.(opt_delayMs) 1000 in
  withRetry
    (fun s => let (p, s') := operation s in (withTimeout p timeoutMs, s'))
    maxRetries
    delayMs.

(** [logToolExecution(toolName, args, startTime, success, error?)]. The
    line it prints is the prefix followed by [JSON.stringify(logData)],
    which does not throw on the data this embedding holds for the
    details of an error; the console keeps the record itself. *)
Definition logToolExecution (toolName : string) (args : value) (startTime : Z)
    (ok : bool) (err : option MCPServerError) : Task unit :=
  t <- gets now ;;
  let logData :=
    {| tool := toolName;
       duration := t - startTime;
       success := ok;
       log_timestamp := t;
       log_error :=
         match err with
         | Some e => Some (mcp_code e, mcp_message e, mcp_details e)
         | None => None
         end |} in
  if ok then print (console_log "[MCP] Tool executed successfully: " logData)
  else print (console_error "[MCP] Tool execution failed: " logData).

(** [createSuccessResponse(data, message?)]; the text is
    [message || JSON.stringify(data, null, 2)], and [JSON.stringify]
    does not throw on JSON-like [data]. *)
Definition createSuccessResponse (data : value) (message : option string) : ToolResponse :=
  {| content :=
       [ {| text := match message with
                    | Some m => if String.eqb m EmptyString then rt.(JSON_stringify_indented) data
                                else Some m
                    | None => rt.(JSON_stringify_indented) data
                    end |} ];
     isError := Some false;
     metadata := Some (MetaData data) |}.

Definition createErrorResponse (err : MCPServerError) (toolName : string) : ToolResponse :=
  error_response "Error in " toolName err.

Definition createSafeTool (toolName : string) (validator : value -> bool)
    (handler : value -> Operation value) : value -> Task ToolResponse :=
  fun args =>
    startTime <- gets now ;;
    try_catch
      (match validateToolArgs args validator toolName with
       | createError validationError =>
           logToolExecution toolName args startTime false (Some validationError) ;;
           ret (createErrorResponse validationError toolName)
       | createSuccess data =>
           result <- executeWithResilience (handler data)
                       {| opt_maxRetries := Some 2;
                          opt_timeoutMs := Some 30000;
                          opt_delayMs := None |} ;;
           logToolExecution toolName args startTime true None ;;
           ret (createSuccessResponse result None)
       end)
      (fun err =>
         mcpError <- or_throw (createMCPError toolName err args) ;;
         logToolExecution toolName args startTime false (Some mcpError) ;;
         ret (createErrorResponse mcpError toolName)).

End Wrappers.

Arguments World St : clear implicits.
Arguments Task St A : clear implicits.
Arguments Operation St T : clear implicits.

(** *** Notions the statements about the wrappers use *)

(** The operation settles before the timer of [withTimeout] fires. *)
Definition completes_first (rt : Runtime) {T} (operation : Promise T) (timeoutMs : Z) : Prop :=
  match operation with
  | Never => False
  | Settles ms _ =>
      ms < timeoutMs \/ (ms = timeoutMs /\ rt.(operation_first_on_tie) = true)
  end.

(** What the call number [n] (from 0) of an operation gives, and the
    store it leaves, when the calls start from store [s]. *)
Fixpoint nth_call {St T} (operation : Operation St T) (n : nat) (s : St) : Promise T * St :=
  match n with
  | O => operation s
  | S n' => nth_call operation n' (snd (operation s))
  end.

Definition rejects {T} (p : Promise T) : Prop :=
  match p with
  | Settles _ (Rejected _) => True
  | _ => False
  end.

(** The promise rejects with an [Error], or with a value that [String]
    converts. *)
Definition rejects_usably {T} (p : Promise T) : Prop :=
  match p with
  | Settles _ (Rejected e) => as_Error e <> None
  | _ => False
  end.

(** The delays [delayMs * 2 ^ (attempt - 1)] for [count] attempts from
    attempt [first] on. *)
Definition backoff (delayMs : Z) (first : nat) (count : nat) : list Z :=
  map (fun attempt => delayMs * 2 ^ (Z.of_nat attempt - 1)) (seq first count).

(** The only mark of a validation failure in the code: the text of the
    error [validateToolArgs] builds. *)
Definition is_validation_error (e : exn) : bool :=
  match e with
  | ExnMCP (ToolExecutionError _ d) =>
      String.eqb d.(ted_originalError) "Invalid arguments provided"
  | _ => false
  end.

(** Whether [needle] occurs in [text]. *)
Definition occurs (needle text : string) : bool :=
  match String.index 0 needle text with
  | Some _ => true
  | None => false
  end.

(** Whether a value names [needle], as a key or inside a string. *)
Fixpoint value_mentions (needle : string) (v : value) : bool :=
  match v with
  | VString s => occurs needle s
  | VArray elems =>
      (fix any (l : list value) : bool :=
         match l with
         | [] => false
         | x :: rest => value_mentions needle x || any rest
         end) elems
  | VObject props =>
      (fix any (l : list (string * value)) : bool :=
         match l with
         | [] => false
         | (k, x) :: rest => occurs needle k || value_mentions needle x || any rest
         end) props
  | _ => false
  end.

Definition details_mention (needle : string) (d : ErrorDetails) : bool :=
  match d with
  | DetailsTool t =>
      occurs needle t.(ted_toolName) || occurs needle t.(ted_originalError)
      || value_mentions needle t.(ted_args)
  | DetailsAPI a =>
      occurs needle a.(nad_endpoint) || value_mentions needle a.(nad_statusCode)
      || match a.(nad_responseBody) with
         | Some body => occurs needle body
         | None => false
         end
  | DetailsModule modulePath originalError =>
      occurs needle modulePath || occurs needle originalError
  | DetailsInit originalError phase =>
      occurs needle originalError
      || match phase with
         | Some ph => occurs needle ph
         | None => false
         end
  end.

(** Whether a response names [needle] in its text or in its details. *)
Definition response_mentions (needle : string) (r : ToolResponse) : bool :=
  existsb (fun item => match item.(text) with
                       | Some t => occurs needle t
                       | None => false
                       end)
    r.(content)
  || match r.(metadata) with
     | Some (MetaError _ d) => details_mention needle d
     | Some (MetaData v) => value_mentions needle v
     | None => false
     end.

(** *** Operations and worlds for the examples *)

(** A runtime for the examples; none of them looks at the text that
    [JSON.stringify] produces. *)
Definition test_runtime : Runtime :=
  {| operation_first_on_tie := true;
     JSON_stringify := fun _ => None;
     JSON_stringify_indented := fun _ => None |}.

Definition start {St} (s : St) : World St :=
  {| now := 0; store := s; trace := []; console := [] |}.

(** An operation that counts its calls in the store: it fails on the
    first two and succeeds on the third. *)
Definition flaky : Operation nat value :=
  fun calls =>
    (if Nat.ltb calls 2
     then Settles 5 (Rejected (Error "ECONNRESET"))
     else Settles 7 (Fulfilled (VString "ok")),
     S calls).

Definition always_failing (e : exn) : Operation nat value :=
  fun calls => (Settles 0 (Rejected e), S calls).

(** A handler whose promise never settles. *)
Definition hanging : Operation nat value :=
  fun calls => (Never, S calls).

(** A handler of [safeToolExecution] whose promise rejects with [e]
    after 3 ms. *)
Definition rejecting (e : exn) : value -> Operation nat ToolResponse :=
  fun _ calls => (Settles 3 (Rejected e), S calls).

(** A handler of [safeToolExecution] whose promise never settles. *)
Definition stalling : value -> Operation nat ToolResponse :=
  fun _ calls => (Never, S calls).

(** A plain object whose own [toString] is a number, as [JSON.parse]
    gives it for the text [{"toString":5}]. *)
Definition no_toString : value := VObject [("toString", VNumber 5)].

End ToolExecution.

(* ===================================================================== *)
(** ** The rest of [utils/connection-pool.ts], and the pool in use *)
(* ===================================================================== *)

Module PoolInUse.
Import Js Types Async ConnectionPool.

(** [createSSEConnection(id, clientInfo, transport, response)], called
    at time [now]. *)
Definition createSSEConnection (now : Z) (connectionId : string) (client : ClientInfo)
    (handle : SSEServerTransport) (r : Response) : SSEConnection :=
  {| id := connectionId;
     clientInfo := client;
     connectedAt := now;
     lastActivity := now;
     transport := handle;
     response := Some r;
     isActive := true |}.

(** A header of an incoming request: one value or several; a header
    that is not there is [undefined]. *)
Inductive HeaderValue : Type :=
| OneValue (s : string)
| ManyValues (l : list string).

(** [typeof h === 'string' && h.includes(needle)]. *)
Definition string_including (needle : string) (h : option HeaderValue) : bool :=
  match h with
  | Some (OneValue s) => ToolExecution.occurs needle s
  | _ => false
  end.

Definition validateSSERequest (headers : list (string * HeaderValue)) : bool :=
  let accept := Map_get "accept" headers in
  let cacheControl := Map_get "cache-control" headers in
  let hasSSEAccept := string_including "text/event-stream" accept in
  let hasNoCache := string_including "no-cache" cacheControl in
  hasSSEAccept || hasNoCache.

(** *** Every public method, and sequences of them *)

Inductive Method : Type :=
| DoAdd (now : Z) (connection : SSEConnection)
| DoRemove (now : Z) (connectionId : string)
| DoTouch (now : Z) (connectionId : string)
| DoSweep (now : Z)
| DoShutdown (now : Z).

Definition perform (m : Method) : Pool unit :=
  match m with
  | DoAdd now connection => addConnection now connection
  | DoRemove now connectionId => removeConnection now connectionId
  | DoTouch now connectionId => updateConnectionActivity now connectionId
  | DoSweep now => _ <- cleanupInactiveConnections now ;; ret tt
  | DoShutdown now => shutdown now
  end.

(** The pool after a sequence of method calls, whatever each of them
    returned or threw. *)
Definition after_methods (methods : list Method) (p : SSEConnectionPool) : SSEConnectionPool :=
  fold_left (fun q m => snd (perform m q)) methods p.

(** The time at which a method is called. *)
Definition method_time (m : Method) : Z :=
  match m with
  | DoAdd now _ => now
  | DoRemove now _ => now
  | DoTouch now _ => now
  | DoSweep now => now
  | DoShutdown now => now
  end.

(** The calls are made in the order of their times, as a clock that
    does not go back has them. *)
Definition in_time_order (methods : list Method) : Prop :=
  StronglySorted Z.le (map method_time methods).

(** The events come in the order of their timestamps. *)
Definition chronological (history : list ConnectionEvent) : Prop :=
  StronglySorted Z.le (map timestamp history).

(** Every connection handed to [addConnection] in the sequence is
    marked active, as [createSSEConnection] makes them. *)
Definition adds_active (methods : list Method) : Prop :=
  forall now connection, In (DoAdd now connection) methods -> isActive connection = true.

(** Every entry of the map is filed under the id of its connection. *)
Definition filed_by_id (m : list (string * SSEConnection)) : Prop :=
  forall k c, In (k, c) m -> id c = k.

(** What every pool built by the constructor with [cfg] keeps true of
    itself. *)
Definition in_order (cfg : HTTPTransportConfig) (p : SSEConnectionPool) : Prop :=
  NoDup (Map_keys (connections p)) /\
  filed_by_id (connections p) /\
  config p = cfg /\
  (List.length (connectionHistory p) <= 1000)%nat /\
  (0 <= maxConnections cfg -> Map_size (connections p) <= maxConnections cfg).

(** [removeConnection] calls [response.end()] on this connection, and
    the call returns. *)
Definition ends_response (c : SSEConnection) : bool :=
  match response c with
  | Some r =>
      negb (headersSent r) && match end_throws r with
                              | None => true
                              | Some _ => false
                              end
  | None => false
  end.

(** *** Examples *)

Definition sent_response : Response :=
  {| headersSent := true; end_throws := None |}.

Definition open_response : Response :=
  {| headersSent := false; end_throws := None |}.

(** A day in the life of the default pool. *)
Definition busy_day : list Method :=
  [DoAdd 1000 (createSSEConnection 1000 "a" demo_client (transport_handle 1) sent_response);
   DoAdd 2000 (createSSEConnection 2000 "b" demo_client (transport_handle 2) open_response);
   DoTouch 250000 "b";
   DoSweep 400000;
   DoAdd 400001 (createSSEConnection 400001 "c" demo_client (transport_handle 3) sent_response);
   DoRemove 400002 "c";
   DoShutdown 500000;
   DoAdd 500001 (createSSEConnection 500001 "d" demo_client (transport_handle 4) sent_response)].

Definition sse_request : list (string * HeaderValue) :=
  [("accept", OneValue "text/event-stream"); ("user-agent", OneValue "curl/8.0")].

End PoolInUse.

(* ===================================================================== *)
(** ** The wrappers of [utils/tool-execution.ts] in use *)
(* ===================================================================== *)

Module WrappersInUse.
Import Js Types Async ToolExecution.

(** The time the wait for the promise [p] takes, if it ends. *)
Definition settle_time {T} (p : Promise T) : Z :=
  match p with
  | Never => 0
  | Settles ms _ => ms
  end.

(** No promise the operation hands back settles before it was made. *)
Definition causal {St T} (operation : Operation St T) : Prop :=
  forall s, 0 <= settle_time (fst (operation s)).

(** The first call of the operation that fulfils is call number [k]
    (from 0): the calls before it reject, each with an [Error] or with
    a value that [String] converts. *)
Definition first_success_at {St T} (operation : Operation St T) (s : St) (k : nat) (v : T)
    : Prop :=
  (forall j, (j < k)%nat -> rejects_usably (fst (nth_call operation j s))) /\
  exists ms, fst (nth_call operation k s) = Settles ms (Fulfilled v).

(** [response.isError === false]. *)
Definition succeeded (response : ToolResponse) : bool :=
  match isError response with
  | Some false => true
  | _ => false
  end.

(** What a line of [logToolExecution] holds. *)
Definition line_data (line : ConsoleLine) : LogData :=
  match line with
  | console_log _ data => data
  | console_error _ data => data
  end.

(** Whether the line went to [console.error]. *)
Definition to_stderr (line : ConsoleLine) : bool :=
  match line with
  | console_log _ _ => false
  | console_error _ _ => true
  end.

(** The lines [logToolExecution] printed, as (tool, success) pairs. *)
Definition logged {St} (w : World St) : list (string * bool) :=
  map (fun line => (tool (line_data line), success (line_data line))) (console w).

(** A handler that answers 40 ms after each call, failing the first
    time with the error of an HTTP client that got a 503. *)
Definition recovering : Operation nat value :=
  fun calls =>
    (match calls with
     | O => Settles 40 (Rejected (ExnError "Request failed with status code 503"
                                    [("response", VObject [("status", VNumber 503);
                                                           ("data", VString "busy")])]))
     | S _ => Settles 40 (Fulfilled (VObject [("ok", VBool true)]))
     end,
     S calls).

End WrappersInUse.

(* ===================================================================== *)
(** ** The tool registry and the handler of tool calls *)
(* ===================================================================== *)

Module CallTool.
Import Js Types Async ConnectionPool ToolExecution WrappersInUse.

(** The inline type guard of [activate_workflow], [execute_workflow]
    and [validate_workflow]. *)
Definition hasWorkflowId (args : value) : bool :=
  is_object args && is_string (member "workflowId" args).

(** The inline type guard of [add_node]. *)
Definition isAddNodeArgs (args : value) : bool :=
  is_object args && is_string (member "workflowId" args)
  && is_string (member "nodeName" args) && is_string (member "nodeType" args).

(** [error instanceof Error ? error.message : String(error)]; [None]
    when the conversion throws. *)
Definition message_or_String (err : exn) : option string :=
  match err with
  | ExnMCP m => Some (mcp_message m)
  | ExnHTTP h => Some (http_message h)
  | ExnError message _ => Some message
  | ExnValue v => String v
  end.

(** [toolSchemas], what the server answers to a request for its list
    of tools. *)
Definition toolSchemas : list value :=
  let described (type description : string) :=
    VObject [("type", VString type); ("description", VString description)] in
  let workflowId := ("workflowId", described "string" "Workflow ID") in
  [VObject
     [("name", VString "list_workflows");
      ("description", VString "List all workflows in n8n");
      ("inputSchema",
       VObject
         [("type", VString "object");
          ("properties",
           VObject [("active", described "boolean" "Filter by active status");
                    ("search", described "string" "Search workflows by name")])])];
   VObject
     [("name", VString "get_workflow");
      ("description",
       VString "Get complete workflow details including all nodes and connections");
      ("inputSchema",
       VObject
         [("type", VString "object");
          ("properties", VObject [workflowId]);
          ("required", VArray [VString "workflowId"])])];
   VObject
     [("name", VString "create_workflow");
      ("description", VString "Create a new workflow");
      ("inputSchema",
       VObject
         [("type", VString "object");
          ("properties",
           VObject [("name", described "string" "Workflow name");
                    ("nodes", described "array" "Array of nodes to add");
                    ("connections", described "object" "Node connections");
                    ("activate",
                     described "boolean" "Activate the workflow after creation")]);
          ("required", VArray [VString "name"])])];
   VObject
     [("name", VString "activate_workflow");
      ("description", VString "Activate (deploy) an existing workflow");
      ("inputSchema",
       VObject
         [("type", VString "object");
          ("properties", VObject [workflowId]);
          ("required", VArray [VString "workflowId"])])];
   VObject
     [("name", VString "add_node");
      ("description", VString "Add a new node to an existing workflow");
      ("inputSchema",
       VObject
         [("type", VString "object");
          ("properties",
           VObject [workflowId;
                    ("nodeName", described "string" "Unique name for the node");
                    ("nodeType",
                     described "string" "Node type (e.g., n8n-nodes-base.webhook)");
                    ("position",
                     VObject [("type", VString "array");
                              ("description", VString "Node position [x, y]");
                              ("items", VObject [("type", VString "number")])]);
                    ("parameters", described "object" "Node-specific parameters")]);
          ("required",
           VArray [VString "workflowId"; VString "nodeName"; VString "nodeType"])])];
   VObject
     [("name", VString "execute_workflow");
      ("description", VString "Execute a workflow manually");
      ("inputSchema",
       VObject
         [("type", VString "object");
          ("properties",
           VObject [workflowId;
                    ("data", described "object" "Input data for the workflow")]);
          ("required", VArray [VString "workflowId"])])];
   VObject
     [("name", VString "validate_workflow");
      ("description", VString "Validate entire workflow for common issues");
      ("inputSchema",
       VObject
         [("type", VString "object");
          ("properties", VObject [workflowId]);
          ("required", VArray [VString "workflowId"])])]].

Section Registry.
Context {St : Type}.
Variable rt : Runtime.

(** The bodies of the seven tools, which talk to the upstream API. *)
Variable handlers : string -> value -> Operation St value.

Definition Tool : Type := value -> Task St ToolResponse.

(** [toolRegistry]: each tool is [createSafeTool(name, guard, body)]. *)
Definition toolRegistry : list (string * Tool) :=
  [("list_workflows",
    createSafeTool rt "list_workflows" isListWorkflowsArgs (handlers "list_workflows"));
   ("get_workflow",
    createSafeTool rt "get_workflow" isGetWorkflowArgs (handlers "get_workflow"));
   ("create_workflow",
    createSafeTool rt "create_workflow" isCreateWorkflowArgs (handlers "create_workflow"));
   ("activate_workflow",
    createSafeTool rt "activate_workflow" hasWorkflowId (handlers "activate_workflow"));
   ("add_node",
    createSafeTool rt "add_node" isAddNodeArgs (handlers "add_node"));
   ("execute_workflow",
    createSafeTool rt "execute_workflow" hasWorkflowId (handlers "execute_workflow"));
   ("validate_workflow",
    createSafeTool rt "validate_workflow" hasWorkflowId (handlers "validate_workflow"))].

(** The error the handler of tool calls throws for a name that is not
    in the registry. *)
Definition unknown_tool (name : string) (args : value) : MCPServerError :=
  ToolExecutionError name
    {| ted_toolName := name;
       ted_originalError := "Unknown tool: " ++ name;
       ted_args := args |}.

(** The handler registered for [CallToolRequestSchema], for a request
    with [params.name = name] and [params.arguments = args]. Of what it
    prints, the console of the world holds the records of
    [logToolExecution]. *)
Definition callTool (registry : list (string * Tool)) (name : string) (args : value)
    : Task St ToolResponse :=
  startTime <- gets now ;;
  try_catch
    (match Map_get name registry with
     | None => throw (ExnMCP (unknown_tool name args))
     | Some tool =>
         result <- tool args ;;
         logToolExecution name args startTime true None ;;
         ret result
     end)
    (fun err =>
       mcpError <- match err with
                   | ExnMCP e => ret e
                   | _ =>
                       originalError <- or_throw (message_or_String err) ;;
                       ret (ToolExecutionError name
                              {| ted_toolName := name;
                                 ted_originalError := originalError;
                                 ted_args := args |})
                   end ;;
       logToolExecution name args startTime false (Some mcpError) ;;
       ret (createErrorResponse mcpError name)).

End Registry.

(** The names the registry answers to. *)
Definition tool_names : list string :=
  ["list_workflows"; "get_workflow"; "create_workflow"; "activate_workflow";
   "add_node"; "execute_workflow"; "validate_workflow"].

(** The text of a string value. *)
Definition text_of (v : value) : string :=
  match v with
  | VString s => s
  | _ => EmptyString
  end.

(** The [name] of a schema. *)
Definition schema_name (schema : value) : string :=
  text_of (member "name" schema).

(** The fields the schema published for the tool [name] lists as
    [required]; none when it has no such list. *)
Definition required_fields (name : string) : list string :=
  match find (fun schema => String.eqb (schema_name schema) name) toolSchemas with
  | Some schema =>
      match member "required" (member "inputSchema" schema) with
      | VArray fields => map text_of fields
      | _ => []
      end
  | None => []
  end.

(** The arguments are an object that holds a string for each field
    the schema of the tool requires. *)
Definition meets_requirements (name : string) (args : value) : bool :=
  is_object args && forallb (fun field => is_string (member field args)) (required_fields name).

(** An upstream that answers every tool after 40 ms with the same
    value. *)
Definition steady_upstream : string -> value -> Operation nat value :=
  fun _ _ calls => (Settles 40 (Fulfilled (VObject [("ok", VBool true)])), S calls).

End CallTool.

(* ===================================================================== *)
(** ** Facts about computations *)
(* ===================================================================== *)

Module AsyncFacts.
Import Types Async.

(** Shows [bind] and [ret] as the functions they stand for. *)
Ltac monadic := cbn [bind ret Monad_M] in *.

(** Runs the monadic steps whose outcome is known. *)
Ltac run :=
  cbn [bind ret Monad_M mbind mret gets modify throw try_catch fst snd].

Lemma bind_returned {W A B} {c : M W A} {k : A -> M W B} {w w' a} :
  c w = (Returned a, w') -> mbind c k w = k a w'.
Proof. intros H. unfold mbind. now rewrite H. Qed.

Lemma bind_threw {W A B} {c : M W A} {k : A -> M W B} {w w' e} :
  c w = (Threw e, w') -> mbind c k w = (Threw e, w').
Proof. intros H. unfold mbind. now rewrite H. Qed.

(** The laws of a monad, world by world. *)
Lemma bind_ret_l {W A B} (a : A) (k : A -> M W B) w : mbind (mret a) k w = k a w.
Proof. reflexivity. Qed.

Lemma bind_ret_r {W A} (c : M W A) w : mbind c mret w = c w.
Proof. unfold mbind, mret. now destruct (c w) as [[a|e|] w']. Qed.

Lemma bind_assoc {W A B C} (c : M W A) (k : A -> M W B) (h : B -> M W C) w :
  mbind (mbind c k) h w = mbind c (fun a => mbind (k a) h) w.
Proof. unfold mbind. now destruct (c w) as [[a|e|] w']. Qed.

(** A [try] around something that returns does nothing; a thrown error
    is what the handler is run on. *)
Lemma try_catch_returned {W A} {body : M W A} {handler w w' a} :
  body w = (Returned a, w') -> try_catch body handler w = (Returned a, w').
Proof. intros H. unfold try_catch. now rewrite H. Qed.

Lemma try_catch_threw {W A} {body : M W A} {handler w w' e} :
  body w = (Threw e, w') -> try_catch body handler w = handler e w'.
Proof. intros H. unfold try_catch. now rewrite H. Qed.

End AsyncFacts.

(* ===================================================================== *)
(** ** The connection pool *)
(* ===================================================================== *)

Module ConnectionPoolFacts.
Import Js Types Async ConnectionPool AsyncFacts.

Ltac run_pool :=
  cbn [bind ret Monad_M mbind mret gets modify throw try_catch log fst snd].

(** *** The map *)

Section MapFacts.
Context {V : Type}.
Implicit Types (m : list (string * V)) (k : string) (v : V).

Lemma Map_get_set_same k v m : Map_get k (Map_set k v m) = Some v.
Proof.
  induction m as [|[k' v'] m IH]; simpl.
  - now rewrite String.eqb_refl.
  - destruct (String.eqb k k') eqn:E; simpl; rewrite E; auto.
Qed.

Lemma Map_get_In k v m : Map_get k m = Some v -> In (k, v) m.
Proof.
  induction m as [|[k' v'] m IH]; simpl; [discriminate|].
  destruct (String.eqb k k') eqn:E.
  - apply String.eqb_eq in E. intros [= ->]. subst. now left.
  - intros H. right. auto.
Qed.

Lemma Map_get_None k m : Map_get k m = None <-> ~ In k (Map_keys m).
Proof.
  induction m as [|[k' v'] m IH]; simpl.
  - tauto.
  - destruct (String.eqb k k') eqn:E.
    + apply String.eqb_eq in E. subst. split; [discriminate | tauto].
    + apply String.eqb_neq in E. rewrite IH. firstorder.
Qed.

Lemma In_Map_get k v m : NoDup (Map_keys m) -> In (k, v) m -> Map_get k m = Some v.
Proof.
  induction m as [|[k' v'] m IH]; simpl; [tauto|].
  intros Hnd [H|H]; inversion Hnd as [|? ? Hnotin Hnd']; subst.
  - injection H as -> ->. now rewrite String.eqb_refl.
  - destruct (String.eqb k k') eqn:E; auto.
    apply String.eqb_eq in E. subst. exfalso. apply Hnotin.
    change k' with (fst (k', v)). now apply in_map.
Qed.

Lemma Map_set_length k v m :
  List.length (Map_set k v m) =
  match Map_get k m with
  | Some _ => List.length m
  | None => S (List.length m)
  end.
Proof.
  induction m as [|[k' v'] m IH]; simpl; auto.
  destruct (String.eqb k k'); simpl; auto.
  rewrite IH. now destruct (Map_get k m).
Qed.

Lemma Map_keys_set k v m :
  Map_keys (Map_set k v m) =
  match Map_get k m with
  | Some _ => Map_keys m
  | None => (Map_keys m ++ [k])%list
  end.
Proof.
  induction m as [|[k' v'] m IH]; simpl; auto.
  destruct (String.eqb k k'); simpl; auto.
  rewrite IH. now destruct (Map_get k m).
Qed.

Lemma Map_keys_delete k m :
  Map_keys (Map_delete k m) = filter (fun k' => negb (String.eqb k k')) (Map_keys m).
Proof.
  induction m as [|[k' v'] m IH]; simpl; auto.
  destruct (String.eqb k k'); simpl; now rewrite IH.
Qed.

Lemma Map_get_delete_same k m : Map_get k (Map_delete k m) = None.
Proof.
  apply Map_get_None. rewrite Map_keys_delete, filter_In.
  intros [_ H]. now rewrite String.eqb_refl in H.
Qed.

Lemma Map_get_delete_other k k' m :
  k <> k' -> Map_get k' (Map_delete k m) = Map_get k' m.
Proof.
  intros Hne. induction m as [|[k0 v0] m IH]; simpl; auto.
  destruct (String.eqb k k0) eqn:E; simpl.
  - apply String.eqb_eq in E. subst k0.
    destruct (String.eqb k' k) eqn:E'; auto.
    apply String.eqb_eq in E'. congruence.
  - now rewrite IH.
Qed.

Lemma Map_delete_length k m : (List.length (Map_delete k m) <= List.length m)%nat.
Proof. apply filter_length_le. Qed.

Lemma Map_delete_absent k m : Map_get k m = None -> Map_delete k m = m.
Proof.
  induction m as [|[k' v'] m IH]; simpl; auto.
  destruct (String.eqb k k') eqn:E; [discriminate|].
  intros H. simpl. now rewrite IH.
Qed.

Lemma NoDup_keys_set k v m : NoDup (Map_keys m) -> NoDup (Map_keys (Map_set k v m)).
Proof.
  intros Hnd. rewrite Map_keys_set.
  destruct (Map_get k m) eqn:E; auto.
  apply Map_get_None in E.
  apply NoDup_app; auto.
  - constructor; [intros []|constructor].
  - intros x Hx [<-|[]]. contradiction.
Qed.

Lemma NoDup_keys_filter (f : string * V -> bool) m :
  NoDup (Map_keys m) -> NoDup (Map_keys (filter f m)).
Proof.
  induction m as [|[k v] m IH]; simpl; auto.
  intros Hnd. inversion Hnd as [|? ? Hk Hnd']; subst.
  destruct (f (k, v)); simpl; auto.
  constructor; auto. intros Hin. apply Hk.
  apply in_map_iff in Hin. destruct Hin as (x & <- & Hx).
  apply filter_In in Hx. now apply in_map.
Qed.

Lemma NoDup_keys_delete k m : NoDup (Map_keys m) -> NoDup (Map_keys (Map_delete k m)).
Proof. intros Hnd. rewrite Map_keys_delete. now apply NoDup_filter. Qed.

Lemma Map_get_filter (f : string * V -> bool) k m :
  NoDup (Map_keys m) ->
  Map_get k (filter f m) =
  match Map_get k m with
  | Some v => if f (k, v) then Some v else None
  | None => None
  end.
Proof.
  induction m as [|[k' v'] m IH]; simpl; auto.
  intros Hnd. inversion Hnd as [|? ? Hk Hnd']; subst.
  destruct (String.eqb k k') eqn:E.
  - apply String.eqb_eq in E. subst k'.
    destruct (f (k, v')) eqn:Hf; simpl.
    + now rewrite String.eqb_refl.
    + rewrite (IH Hnd'). apply Map_get_None in Hk. now rewrite Hk.
  - destruct (f (k', v')); simpl; [rewrite E|]; auto.
Qed.

End MapFacts.

(** *** The history *)

Lemma keep_last_1000_length h : (List.length (keep_last_1000 h) <= 1000)%nat.
Proof.
  unfold keep_last_1000.
  destruct (Nat.ltb 1000 (List.length h)) eqn:E.
  - apply Nat.ltb_lt in E. rewrite length_skipn. lia.
  - apply Nat.ltb_ge in E. exact E.
Qed.

(** Recording an event keeps the 999 most recent ones before it. *)
Lemma keep_last_1000_snoc h ev :
  keep_last_1000 (h ++ [ev]) = (skipn (List.length h - 999) h ++ [ev])%list.
Proof.
  unfold keep_last_1000. rewrite length_app. simpl List.length.
  destruct (Nat.ltb 1000 (List.length h + 1)) eqn:E.
  - apply Nat.ltb_lt in E. rewrite skipn_app.
    replace (List.length h + 1 - 1000)%nat with (List.length h - 999)%nat by lia.
    replace (List.length h - 999 - List.length h)%nat with 0%nat by lia.
    reflexivity.
  - apply Nat.ltb_ge in E.
    replace (List.length h - 999)%nat with 0%nat by lia. reflexivity.
Qed.

Lemma record_all_app es1 es2 h :
  record_all (es1 ++ es2) h = record_all es2 (record_all es1 h).
Proof. apply fold_left_app. Qed.

Lemma keep_last_1000_short h :
  (List.length h <= 1000)%nat -> keep_last_1000 h = h.
Proof.
  intros H. unfold keep_last_1000.
  now replace (Nat.ltb 1000 (List.length h)) with false by (symmetry; apply Nat.ltb_ge; lia).
Qed.

Lemma keep_last_1000_again h ev :
  keep_last_1000 (keep_last_1000 h ++ [ev]) = keep_last_1000 (h ++ [ev]).
Proof.
  rewrite !keep_last_1000_snoc. f_equal.
  unfold keep_last_1000.
  destruct (Nat.ltb 1000 (List.length h)) eqn:E; [|reflexivity].
  apply Nat.ltb_lt in E. rewrite length_skipn, skipn_skipn. f_equal. lia.
Qed.

(** Recording events one by one keeps the last 1000 of them all. *)
Lemma record_all_keep_last es : forall h,
  (List.length h <= 1000)%nat ->
  record_all es h = keep_last_1000 (h ++ es).
Proof.
  induction es as [|ev es IH] using rev_ind; intros h Hh.
  - rewrite app_nil_r. simpl. symmetry. now apply keep_last_1000_short.
  - rewrite record_all_app. simpl. rewrite (IH h Hh), app_assoc.
    apply keep_last_1000_again.
Qed.

Lemma record_all_length es h :
  (List.length h <= 1000)%nat -> (List.length (record_all es h) <= 1000)%nat.
Proof.
  revert h. induction es as [|ev es IH]; intros h Hh; simpl; auto.
  apply IH, keep_last_1000_length.
Qed.

(** *** The methods, one equation or one summary each *)

Lemma addConnection_eq now connection p :
  addConnection now connection p =
  if isShuttingDown p then
    (Threw (Error "Connection pool is shutting down"), p)
  else if Map_size (connections p) >=? maxConnections (config p) then
    let err := pool_full_error (Map_size (connections p)) (maxConnections (config p)) in
    (Threw (ExnHTTP err),
     set_connectionHistory
       (fun h => keep_last_1000 (h ++ [error_event now connection err])) p)
  else
    (Returned tt,
     add_console
       (console_log
          ("[ConnectionPool] Added connection " ++ id connection
             ++ pool_size_line
                  (Map_size (Map_set (id connection) connection (connections p)))
                  (maxConnections (config p))))
       (set_connectionHistory
          (fun h => keep_last_1000 (h ++ [connected_event now connection]))
          (set_connections (Map_set (id connection) connection) p))).
Proof.
  unfold addConnection, addConnectionEvent. run_pool.
  destruct (isShuttingDown p); run_pool; [reflexivity|].
  destruct (Map_size (connections p) >=? maxConnections (config p)); reflexivity.
Qed.

(** Closing the response never throws, whatever [end()] does. *)
Lemma close_response_returns connectionId connection p :
  exists q, close_response connectionId connection p = (Returned tt, q) /\ same_object p q.
Proof.
  unfold close_response, response_end, same_object. run_pool.
  destruct (response connection) as [r|]; [|eexists; split; [reflexivity|tauto]].
  destruct (headersSent r); simpl negb; cbv iota; [eexists; split; [reflexivity|tauto]|].
  destruct (end_throws r); run_pool; eexists; (split; [reflexivity|simpl; tauto]).
Qed.

Lemma removeConnection_absent now connectionId p :
  Map_get connectionId (connections p) = None ->
  removeConnection now connectionId p = (Returned tt, p).
Proof. intros H. unfold removeConnection. run_pool. now rewrite H. Qed.

Lemma removeConnection_present now connectionId connection p :
  Map_get connectionId (connections p) = Some connection ->
  exists q,
    removeConnection now connectionId p = (Returned tt, q) /\
    connections q = Map_delete connectionId (connections p) /\
    connectionHistory q =
      keep_last_1000 (connectionHistory p ++ [disconnected_event now connectionId]) /\
    config q = config p /\
    cleanupInterval q = cleanupInterval p /\
    isShuttingDown q = isShuttingDown p.
Proof.
  intros H. unfold removeConnection, addConnectionEvent. monadic.
  rewrite (bind_returned (a:=Some connection) (w':=p)) by (unfold gets; now rewrite H).
  destruct (close_response_returns connectionId connection p)
    as (q & Hq & Hc & Hh & Hcfg & Hi & Hs).
  rewrite (bind_returned Hq). run_pool. eexists. split; [reflexivity|].
  simpl. now rewrite Hc, Hh, Hcfg, Hi, Hs.
Qed.

Lemma removeConnection_returns now connectionId p :
  exists q,
    removeConnection now connectionId p = (Returned tt, q) /\
    connections q = Map_delete connectionId (connections p) /\
    config q = config p /\
    cleanupInterval q = cleanupInterval p /\
    isShuttingDown q = isShuttingDown p.
Proof.
  destruct (Map_get connectionId (connections p)) as [c|] eqn:E.
  - destruct (removeConnection_present now _ _ _ E) as (q & ? & ? & ? & ? & ? & ?).
    exists q. tauto.
  - exists p. rewrite (removeConnection_absent now _ _ E), (Map_delete_absent _ _ E). tauto.
Qed.

(** *** What every sequence of calls on an open pool preserves *)

Lemma call_keeps_open c p :
  isShuttingDown p = false ->
  Map_size (connections p) <= maxConnections (config p) ->
  let q := snd (call c p) in
  config q = config p /\ isShuttingDown q = false /\
  Map_size (connections q) <= maxConnections (config q).
Proof.
  intros Hs Hle. destruct c as [now connection|now connectionId]; simpl call.
  - rewrite addConnection_eq, Hs.
    destruct (Map_size (connections p) >=? maxConnections (config p)) eqn:E; simpl.
    + auto.
    + repeat split; auto. unfold Map_size in *. rewrite Map_set_length.
      destruct (Map_get (id connection) (connections p)); lia.
  - destruct (removeConnection_returns now connectionId p) as (q & Hq & Hc & Hcfg & _ & Hsd).
    rewrite Hq. simpl. rewrite Hc, Hcfg, Hsd. repeat split; auto.
    unfold Map_size in *. pose proof (Map_delete_length connectionId (connections p)). lia.
Qed.

Lemma after_calls_keeps_open calls : forall p,
  isShuttingDown p = false ->
  Map_size (connections p) <= maxConnections (config p) ->
  let q := after_calls calls p in
  config q = config p /\ isShuttingDown q = false /\
  Map_size (connections q) <= maxConnections (config q).
Proof.
  induction calls as [|c calls IH]; intros p Hs Hle; simpl.
  - auto.
  - destruct (call_keeps_open c p Hs Hle) as (Hcfg & Hs' & Hle').
    destruct (IH _ Hs' Hle') as (Hcfg2 & ? & ?).
    repeat split; auto. congruence.
Qed.

Lemma call_keeps_keys_distinct c p :
  NoDup (Map_keys (connections p)) -> NoDup (Map_keys (connections (snd (call c p)))).
Proof.
  intros Hnd. destruct c as [now connection|now connectionId]; simpl call.
  - rewrite addConnection_eq. destruct (isShuttingDown p); auto.
    destruct (_ >=? _); simpl; auto. now apply NoDup_keys_set.
  - destruct (removeConnection_returns now connectionId p) as (q & Hq & Hc & _).
    rewrite Hq. simpl. rewrite Hc. now apply NoDup_keys_delete.
Qed.

(** The keys of the map of a pool that calls built are distinct. *)
Lemma after_calls_keys_distinct calls cfg :
  NoDup (Map_keys (connections (after_calls calls (new_pool cfg)))).
Proof.
  assert (G : forall p, NoDup (Map_keys (connections p)) ->
                        NoDup (Map_keys (connections (after_calls calls p)))).
  { induction calls as [|c calls IH]; intros p Hnd; simpl; auto.
    apply IH. now apply call_keeps_keys_distinct. }
  apply G. constructor.
Qed.

Lemma call_keeps_flag c p : isShuttingDown (snd (call c p)) = isShuttingDown p.
Proof.
  destruct c as [now connection|now connectionId]; simpl call.
  - rewrite addConnection_eq. destruct (isShuttingDown p) eqn:E; auto.
    destruct (_ >=? _); auto.
  - destruct (removeConnection_returns now connectionId p) as (q & Hq & _ & _ & _ & Hs).
    now rewrite Hq.
Qed.

Lemma after_calls_keeps_flag calls : forall p,
  isShuttingDown (after_calls calls p) = isShuttingDown p.
Proof.
  induction calls as [|c calls IH]; intros p; simpl; auto.
  fold (after_calls calls (snd (call c p))). now rewrite IH, call_keeps_flag.
Qed.

(** *** Removing many connections *)

Lemma delete_all_filter ids : forall m,
  delete_all ids m =
  filter (fun entry => negb (existsb (String.eqb (fst entry)) ids)) m.
Proof.
  unfold delete_all.
  induction ids as [|k ids IH]; intros m; simpl.
  - induction m as [|x m IHm]; simpl; congruence.
  - rewrite IH. unfold Map_delete. induction m as [|x m IHm]; simpl; auto.
    rewrite (String.eqb_sym (fst x) k).
    destruct (String.eqb k (fst x)); simpl; [|destruct (existsb _ ids)]; simpl; congruence.
Qed.

Lemma delete_all_keys m : delete_all (Map_keys m) m = [].
Proof.
  rewrite delete_all_filter.
  assert (H : forall x, In x m ->
            negb (existsb (String.eqb (fst x)) (Map_keys m)) = false).
  { intros x Hx. apply negb_false_iff, existsb_exists.
    exists (fst x). split; [now apply in_map | apply String.eqb_refl]. }
  revert H. generalize (Map_keys m). intros ks.
  induction m as [|x m IH]; simpl; auto. intros H.
  rewrite (H x) by now left. apply IH. intros y Hy. apply H. now right.
Qed.

Lemma delete_all_stale (f : string * SSEConnection -> bool) m :
  NoDup (Map_keys m) ->
  delete_all (Map_keys (filter f m)) m = filter (fun entry => negb (f entry)) m.
Proof.
  intros Hnd. rewrite delete_all_filter. apply filter_ext_in.
  intros [k v] Hin. f_equal. simpl fst.
  destruct (f (k, v)) eqn:Hf.
  - apply existsb_exists. exists k. split; [|apply String.eqb_refl].
    change k with (fst (k, v)). apply in_map, filter_In. auto.
  - apply not_true_iff_false. intros H. apply existsb_exists in H.
    destruct H as (k' & Hk' & E). apply String.eqb_eq in E. subst k'.
    apply in_map_iff in Hk'. destruct Hk' as ([k' v'] & Heq & Hin').
    simpl in Heq. subst k'. apply filter_In in Hin'. destruct Hin' as [Hin' Hf'].
    pose proof (In_Map_get _ _ _ Hnd Hin) as E1.
    pose proof (In_Map_get _ _ _ Hnd Hin') as E2.
    congruence.
Qed.

(** The loop of [shutdown]. *)
Lemma remove_settled now ids : forall p,
  exists q,
    for_of ids (fun connectionId =>
                  try_catch (removeConnection now connectionId) (fun _ => ret tt)) p
      = (Returned tt, q) /\
    connections q = delete_all ids (connections p) /\
    config q = config p /\
    cleanupInterval q = cleanupInterval p /\
    isShuttingDown q = isShuttingDown p.
Proof.
  induction ids as [|k ids IH]; intros p; simpl for_of; monadic.
  - exists p. run_pool. tauto.
  - destruct (removeConnection_returns now k p) as (q & Hq & Hc & Hcfg & Hi & Hs).
    destruct (IH q) as (r & Hr & Hc' & Hcfg' & Hi' & Hs').
    exists r. rewrite (bind_returned (a:=tt) (w':=q)), Hr
      by (unfold try_catch; now rewrite Hq).
    rewrite Hc', Hc. repeat split; congruence.
Qed.

(** The second loop of [cleanupInactiveConnections]. *)
Lemma remove_each now ids : forall p,
  NoDup ids ->
  (forall k, In k ids -> Map_get k (connections p) <> None) ->
  exists q,
    for_of ids (removeConnection now) p = (Returned tt, q) /\
    connections q = delete_all ids (connections p) /\
    connectionHistory q =
      record_all (map (disconnected_event now) ids) (connectionHistory p) /\
    config q = config p /\
    cleanupInterval q = cleanupInterval p /\
    isShuttingDown q = isShuttingDown p.
Proof.
  induction ids as [|k ids IH]; intros p Hnd Hin; simpl for_of; monadic.
  - exists p. run_pool. tauto.
  - inversion Hnd as [|? ? Hk Hnd']; subst.
    destruct (Map_get k (connections p)) as [c|] eqn:E;
      [|exfalso; apply (Hin k); [now left|assumption]].
    destruct (removeConnection_present now k c p E) as (q & Hq & Hc & Hh & Hcfg & Hi & Hs).
    destruct (IH q Hnd') as (r & Hr & Hc' & Hh' & Hcfg' & Hi' & Hs').
    { intros k' Hk'. rewrite Hc, Map_get_delete_other.
      - apply Hin. now right.
      - intros ->. contradiction. }
    exists r. rewrite (bind_returned Hq), Hr.
    simpl. rewrite Hc', Hh', Hc, Hh. repeat split; congruence.
Qed.

(** The first loop of [cleanupInactiveConnections]. *)
Lemma collect_timed_out_returns now timeoutMs entries : forall acc p,
  exists q,
    collect_timed_out now timeoutMs entries acc p =
      (Returned (acc ++ Map_keys (filter (fun entry => timed_out now timeoutMs (snd entry))
                                   entries))%list, q) /\
    connections q = connections p /\
    connectionHistory q =
      record_all
        (map (fun entry => timeout_event now (fst entry) (now - lastActivity (snd entry)))
             (filter (fun entry => timed_out now timeoutMs (snd entry)) entries))
        (connectionHistory p) /\
    config q = config p /\
    cleanupInterval q = cleanupInterval p /\
    isShuttingDown q = isShuttingDown p.
Proof.
  induction entries as [|[k c] entries IH]; intros acc p; simpl.
  - exists p. rewrite app_nil_r. run_pool. tauto.
  - change (now - lastActivity c >? timeoutMs) with (timed_out now timeoutMs c).
    destruct (timed_out now timeoutMs c).
    + unfold addConnectionEvent. run_pool.
      match goal with |- context [collect_timed_out _ _ _ _ ?p1] =>
        destruct (IH (acc ++ [k])%list p1) as (q & Hq & Hc & Hh & Hcfg & Hi & Hs) end.
      exists q. rewrite Hq. simpl in Hc, Hh, Hcfg, Hi, Hs.
      rewrite <- app_assoc. rewrite Hc, Hh, Hcfg, Hi, Hs. repeat split.
    + apply IH.
Qed.

(** *** Capacity *)

(** C1. On a pool built with a capacity [maxConnections] that is not
    negative, after any sequence of [addConnection] and
    [removeConnection] calls: the map holds at most [maxConnections]
    connections; when it holds exactly that many, [addConnection] throws
    an instance of [ConnectionPoolFullError], the error of code
    [CONNECTION_POOL_FULL] that carries the capacity and the current
    size, and leaves the map as it is; when it does not,
    [addConnection] returns, the connection is in the map under its id,
    an event of kind [connected] with the id of the connection and the
    time of the call is recorded, and the map still holds at most
    [maxConnections] connections. *)
Theorem addConnection_never_exceeds_capacity :
  forall (cfg : HTTPTransportConfig) (calls : list Call),
    0 <= maxConnections cfg ->
    let p := after_calls calls (new_pool cfg) in
    Map_size (connections p) <= maxConnections cfg /\
    forall now connection,
      (Map_size (connections p) = maxConnections cfg ->
       exists q,
         addConnection now connection p =
           (Threw (ExnHTTP (ConnectionPoolFullError (maxConnections cfg)
                              {| pfd_maxConnections := maxConnections cfg;
                                 pfd_currentConnections := Map_size (connections p) |})),
            q) /\
         http_code (ConnectionPoolFullError (maxConnections cfg)
                      {| pfd_maxConnections := maxConnections cfg;
                         pfd_currentConnections := Map_size (connections p) |})
           = "CONNECTION_POOL_FULL" /\
         connections q = connections p) /\
      (Map_size (connections p) <> maxConnections cfg ->
       exists q,
         addConnection now connection p = (Returned tt, q) /\
         connections q = Map_set (id connection) connection (connections p) /\
         Map_get (id connection) (connections q) = Some connection /\
         connectionHistory q =
           keep_last_1000
             (connectionHistory p ++
              [ {| connectionId := id connection;
                   event := connected;
                   timestamp := now;
                   details := Some ("Client: " ++ version (clientInfo connection)) |} ]) /\
         Map_size (connections q) <= maxConnections cfg).
Proof.
  intros cfg calls Hcap p.
  destruct (after_calls_keeps_open calls (new_pool cfg) eq_refl Hcap) as (Hcfg & Hs & Hle).
  fold p in Hcfg, Hs, Hle. simpl in Hcfg. rewrite Hcfg in Hle.
  split; [exact Hle|]. intros now connection.
  rewrite addConnection_eq, Hs, Hcfg. split.
  - intros Hfull. rewrite Hfull.
    replace (maxConnections cfg >=? maxConnections cfg) with true
      by (symmetry; apply Z.geb_le; lia).
    eexists. split; [reflexivity|]. split; reflexivity.
  - intros Hne.
    replace (Map_size (connections p) >=? maxConnections cfg) with false
      by (symmetry; rewrite Z.geb_leb; apply Z.leb_gt; lia).
    eexists. split; [reflexivity|]. simpl.
    repeat split.
    + apply Map_get_set_same.
    + unfold Map_size in *. rewrite Map_set_length.
      destruct (Map_get (id connection) (connections p)); lia.
Qed.

(** The pool of capacity one that holds ["a"] refuses ["b"]; after
    three calls on the default pool the bound holds, and a fourth call
    that adds ["c"] records its [connected] event. *)
Lemma addConnection_never_exceeds_capacity_witness :
  0 <= maxConnections one_slot /\
  Map_size (connections (after_calls three_calls (new_pool DEFAULT_HTTP_CONFIG)))
    <= maxConnections DEFAULT_HTTP_CONFIG /\
  (exists q,
     addConnection 2 (demo_connection "b" 2 None) full_pool =
       (Threw (ExnHTTP (ConnectionPoolFullError 1
                          {| pfd_maxConnections := 1; pfd_currentConnections := 1 |})),
        q) /\
     connections q = connections full_pool) /\
  exists q,
    addConnection 4 (demo_connection "c" 4 None)
      (after_calls three_calls (new_pool DEFAULT_HTTP_CONFIG)) = (Returned tt, q) /\
    map (fun ev => (connectionId ev, event ev, timestamp ev)) (connectionHistory q)
      = [("a", connected, 1); ("a", disconnected, 2); ("b", connected, 3);
         ("c", connected, 4)].
Proof.
  split; [simpl; lia|]. split; [|split].
  - apply (addConnection_never_exceeds_capacity DEFAULT_HTTP_CONFIG three_calls).
    simpl; lia.
  - destruct (addConnection_never_exceeds_capacity one_slot
                [CallAdd 1 (demo_connection "a" 1 None)]) as [_ Hadd]; [simpl; lia|].
    destruct (Hadd 2 (demo_connection "b" 2 None)) as [Hfull _].
    destruct (Hfull eq_refl) as (q & Hq & _ & Hc).
    exists q. split; [exact Hq|exact Hc].
  - destruct (addConnection_never_exceeds_capacity DEFAULT_HTTP_CONFIG three_calls)
      as [_ Hadd]; [simpl; lia|].
    destruct (Hadd 4 (demo_connection "c" 4 None)) as [_ Hfree].
    destruct Hfree as (q & Hq & _ & _ & Hh & _); [vm_compute; discriminate|].
    exists q. split; [exact Hq|]. rewrite Hh. reflexivity.
Defined.

(** *** Removal *)

(** C9. [removeConnection] never throws, also when closing the response
    fails; a second call on the same id, at any time, returns and leaves
    the pool exactly as the first call left it, so that [getPoolState]
    shows the same map and the same history after two calls as after
    one; and on an id that is not in the map the call returns and
    changes nothing. *)
Theorem removeConnection_idempotent :
  forall (now1 now2 : Z) (connectionId : string) (p : SSEConnectionPool),
    let once := snd (removeConnection now1 connectionId p) in
    let twice := snd (removeConnection now2 connectionId once) in
    fst (removeConnection now1 connectionId p) = Returned tt /\
    removeConnection now2 connectionId once = (Returned tt, once) /\
    getPoolState twice = getPoolState once /\
    (Map_get connectionId (connections p) = None ->
     removeConnection now1 connectionId p = (Returned tt, p)).
Proof.
  intros now1 now2 connectionId p once twice.
  destruct (removeConnection_returns now1 connectionId p) as (q & Hq & Hc & _).
  assert (Hagain : removeConnection now2 connectionId q = (Returned tt, q)).
  { apply removeConnection_absent. rewrite Hc. apply Map_get_delete_same. }
  subst twice once. rewrite Hq. simpl. rewrite Hagain. repeat split.
  intros H. rewrite <- Hq. now apply removeConnection_absent.
Qed.

(** Removing ["old"], whose response fails to close, twice; and removing
    an id the pool never saw. *)
Lemma removeConnection_idempotent_witness :
  let once := snd (removeConnection 300000 "old" two_idle) in
  Map_get "gone" (connections two_idle) = None /\
  fst (removeConnection 300000 "old" two_idle) = Returned tt /\
  removeConnection 300001 "old" once = (Returned tt, once) /\
  removeConnection 300000 "gone" two_idle = (Returned tt, two_idle).
Proof.
  intros once.
  destruct (removeConnection_idempotent 300000 300001 "old" two_idle) as (H1 & H2 & _).
  destruct (removeConnection_idempotent 300000 300000 "gone" two_idle) as (_ & _ & _ & H3).
  split; [reflexivity|]. split; [exact H1|]. split; [exact H2|].
  apply H3. reflexivity.
Defined.

(** *** Rejected connections *)

(** C10. When [addConnection] throws, the map is as it was. Either the
    pool was shutting down, and then nothing at all changed; or it was
    full, and then the history is the old one cut to its 999 most recent
    events followed by one [error] event for the rejected connection,
    and holds at most 1000 events. *)
Theorem addConnection_failure_keeps_membership :
  forall (now : Z) (connection : SSEConnection) (p q : SSEConnectionPool) (e : exn),
    addConnection now connection p = (Threw e, q) ->
    connections q = connections p /\
    ((isShuttingDown p = true /\ q = p) \/
     (isShuttingDown p = false /\
      exists err,
        e = ExnHTTP err /\
        connectionHistory q =
          (skipn (List.length (connectionHistory p) - 999) (connectionHistory p)
             ++ [error_event now connection err])%list /\
        event (error_event now connection err) = error /\
        (List.length (connectionHistory q) <= 1000)%nat)).
Proof.
  intros now connection p q e. rewrite addConnection_eq.
  destruct (isShuttingDown p) eqn:Hs.
  - intros [= <- <-]. auto.
  - destruct (Map_size (connections p) >=? maxConnections (config p)); [|discriminate].
    cbv zeta. intros [= <- <-]. split; [reflexivity|]. right. split; [reflexivity|].
    eexists. split; [reflexivity|]. simpl connectionHistory.
    split; [apply keep_last_1000_snoc|]. split; [reflexivity|].
    apply keep_last_1000_length.
Qed.

(** The full pool of capacity one rejects ["b"] and keeps its map. *)
Lemma addConnection_failure_keeps_membership_witness :
  addConnection 2 (demo_connection "b" 2 None) full_pool
    = (Threw (ExnHTTP (pool_full_error 1 1)),
       snd (addConnection 2 (demo_connection "b" 2 None) full_pool)) /\
  connections (snd (addConnection 2 (demo_connection "b" 2 None) full_pool))
    = connections full_pool.
Proof.
  split; [reflexivity|].
  apply (addConnection_failure_keeps_membership 2 (demo_connection "b" 2 None) full_pool
           (snd (addConnection 2 (demo_connection "b" 2 None) full_pool))
           (ExnHTTP (pool_full_error 1 1))).
  reflexivity.
Defined.

(** *** Shutdown *)

(** C6. [shutdown] returns, whatever the responses do when closed, and
    leaves a pool with no connection, its sweep timer cancelled and its
    shutting-down flag set; the flag stays set through any later
    [addConnection] and [removeConnection] calls. In every pool whose
    flag is set, [addConnection] throws and changes nothing; but what
    it throws is a plain [Error] with the message "Connection pool is
    shutting down", which has no [code] and is no instance of
    [HTTPTransportError]: not the [ServerShutdownError] that
    [types/http-transport] declares, whereas the refusal of a full pool,
    a few lines below in the same method, throws the class declared for
    it. *)
Theorem shutdown_drains_pool :
  forall (now : Z) (p : SSEConnectionPool),
    exists q,
      shutdown now p = (Returned tt, q) /\
      connections q = [] /\
      cleanupInterval q = false /\
      isShuttingDown q = true /\
      (forall p', isShuttingDown p' = true ->
         forall now' connection,
           addConnection now' connection p' =
             (Threw (ExnError "Connection pool is shutting down" []), p') /\
           forall details,
             fst (addConnection now' connection p')
               <> Threw (ExnHTTP (ServerShutdownError details))) /\
      (forall calls, isShuttingDown (after_calls calls q) = true).
Proof.
  intros now p. unfold shutdown. run_pool.
  set (p1 := set_cleanupInterval false (set_isShuttingDown true (add_console _ p))).
  destruct (remove_settled now (Map_keys (connections p1)) p1)
    as (q & Hq & Hc & _ & Hi & Hs).
  monadic. rewrite (bind_returned Hq). run_pool.
  eexists. split; [reflexivity|]. simpl.
  rewrite Hc, Hi, Hs. split; [|split; [reflexivity|split; [reflexivity|split]]].
  - apply delete_all_keys.
  - intros p' Hp' now' connection. rewrite addConnection_eq, Hp'.
    split; [reflexivity|]. discriminate.
  - intros calls. rewrite after_calls_keeps_flag. simpl. now rewrite Hs.
Qed.

(** Shutting down the pool of two, one of whose responses fails to
    close, and then trying to add a connection: the error thrown is not
    a [ServerShutdownError], while the full pool of one throws its
    [ConnectionPoolFullError]. *)
Lemma shutdown_drains_pool_witness :
  (exists q,
     shutdown 300000 two_idle = (Returned tt, q) /\
     connections q = [] /\
     isShuttingDown q = true /\
     addConnection 300001 (demo_connection "late" 300001 None) q
       = (Threw (ExnError "Connection pool is shutting down" []), q) /\
     fst (addConnection 300001 (demo_connection "late" 300001 None) q)
       <> Threw (ExnHTTP (ServerShutdownError VUndefined))) /\
  fst (addConnection 2 (demo_connection "b" 2 None) full_pool)
    = Threw (ExnHTTP (ConnectionPoolFullError 1
                        {| pfd_maxConnections := 1; pfd_currentConnections := 1 |})).
Proof.
  split; [|reflexivity].
  destruct (shutdown_drains_pool 300000 two_idle) as (q & Hq & Hc & _ & Hs & Hadd & _).
  exists q. split; [exact Hq|]. split; [exact Hc|]. split; [exact Hs|].
  destruct (Hadd q Hs 300001 (demo_connection "late" 300001 None)) as [Hthrown Hnot].
  split; [exact Hthrown|apply Hnot].
Defined.

(** *** The sweep *)



End ConnectionPoolFacts.

(* ===================================================================== *)
(** ** The tool-execution wrappers *)
(* ===================================================================== *)

Module ToolExecutionFacts.
Import Js Types Async ToolExecution AsyncFacts.

Section Steps.
Context {St : Type} (rt : Runtime).
Implicit Types (w : World St).

Lemma withTimeout_settles {T} (p : Promise T) timeoutMs :
  exists ms o, withTimeout rt p timeoutMs = Settles ms o.
Proof.
  unfold withTimeout, Promise_race, timeoutPromise.
  destruct p as [|ms o]; [eauto|].
  destruct (ms <? setTimeout_delay timeoutMs); [eauto|].
  destruct (setTimeout_delay timeoutMs <? ms); [eauto|].
  destruct (operation_first_on_tie rt); eauto.
Qed.

Lemma setTimeout_delay_in_range ms :
  1 <= ms <= 2147483647 -> setTimeout_delay ms = ms.
Proof.
  intros [H1 H2]. unfold setTimeout_delay.
  apply Z.leb_le in H1, H2. now rewrite H1, H2.
Qed.

Lemma setTimeout_delay_out_of_range ms :
  ms < 1 \/ 2147483647 < ms -> setTimeout_delay ms = 1.
Proof.
  intros H. unfold setTimeout_delay.
  destruct (1 <=? ms) eqn:E1; [|reflexivity].
  destruct (ms <=? 2147483647) eqn:E2; [|reflexivity].
  apply Z.leb_le in E1, E2. lia.
Qed.

Lemma setTimeout_delay_bounds ms : 1 <= setTimeout_delay ms <= 2147483647.
Proof.
  unfold setTimeout_delay.
  destruct (1 <=? ms) eqn:E1; simpl; [|lia].
  destruct (ms <=? 2147483647) eqn:E2; [|lia].
  apply Z.leb_le in E1, E2. lia.
Qed.

Lemma invoke_eq {T} (operation : Operation St T) w :
  invoke operation w =
  (Returned (fst (operation (store w))),
   {| now := now w; store := snd (operation (store w));
      trace := (trace w ++ [Invoked])%list; console := console w |}).
Proof. unfold invoke. now destruct (operation (store w)). Qed.

Lemma await_eq {T} (p : Promise T) w :
  await p w =
  match p with
  | Never => (Pending, w)
  | Settles ms (Fulfilled v) => (Returned v, after_ms ms w)
  | Settles ms (Rejected e) => (Threw e, after_ms ms w)
  end.
Proof. destruct p as [|ms [v|e]]; reflexivity. Qed.

Lemma sleep_eq ms w :
  sleep ms w =
  (Returned tt,
   {| now := now w + setTimeout_delay ms; store := store w;
      trace := (trace w ++ [Waited ms])%list; console := console w |}).
Proof. reflexivity. Qed.

Lemma call_and_await_eq {T} (operation : Operation St T) w :
  call_and_await operation w =
  let w1 := {| now := now w; store := snd (operation (store w));
               trace := (trace w ++ [Invoked])%list; console := console w |} in
  match fst (operation (store w)) with
  | Never => (Pending, w1)
  | Settles ms (Fulfilled v) => (Returned v, after_ms ms w1)
  | Settles ms (Rejected e) => (Threw e, after_ms ms w1)
  end.
Proof.
  unfold call_and_await. monadic. rewrite (bind_returned (invoke_eq operation w)).
  now rewrite await_eq.
Qed.

Lemma delays_snoc tr ev :
  delays (tr ++ [ev]) =
  (delays tr ++ match ev with
                | Invoked => []
                | Waited ms => [ms]
                end)%list.
Proof.
  induction tr as [|[|ms] tr IH]; simpl.
  - now destruct ev.
  - exact IH.
  - now rewrite IH.
Qed.

Lemma invocations_snoc tr ev :
  invocations (tr ++ [ev]) =
  (invocations tr + match ev with
                    | Invoked => 1
                    | Waited _ => 0
                    end)%nat.
Proof.
  unfold invocations. rewrite filter_app, length_app. now destruct ev.
Qed.

(** One turn of the loop of [withRetry]. *)
Lemma retry_loop_cons {T} (operation : Operation St T) maxRetries delayMs
    attempt rest lastError w :
  retry_loop operation maxRetries delayMs (attempt :: rest) lastError w =
  match call_and_await operation w with
  | (Threw err, w') =>
      match as_Error err with
      | Some lastError' =>
          if attempt =? maxRetries then (Threw lastError', w')
          else retry_loop operation maxRetries delayMs rest (Some lastError')
                 (snd (sleep (delayMs * 2 ^ (attempt - 1)) w'))
      | None => (Threw cannot_convert, w')
      end
  | other => other
  end.
Proof.
  simpl retry_loop. unfold try_catch.
  destruct (call_and_await operation w) as [[v|err|] w']; auto.
  destruct (as_Error err) as [lastError'|]; [|reflexivity].
  destruct (attempt =? maxRetries); reflexivity.
Qed.

Lemma retry_loop_succeeds {T} (operation : Operation St T) maxRetries delayMs
    attempt rest lastError w ms v s' :
  operation (store w) = (Settles ms (Fulfilled v), s') ->
  retry_loop operation maxRetries delayMs (attempt :: rest) lastError w =
  (Returned v,
   {| now := now w + ms; store := s';
      trace := (trace w ++ [Invoked])%list; console := console w |}).
Proof. intros H. rewrite retry_loop_cons, call_and_await_eq, H. reflexivity. Qed.

Lemma retry_loop_retries {T} (operation : Operation St T) maxRetries delayMs
    attempt rest lastError w ms e lastError' s' :
  operation (store w) = (Settles ms (Rejected e), s') ->
  as_Error e = Some lastError' ->
  attempt <> maxRetries ->
  retry_loop operation maxRetries delayMs (attempt :: rest) lastError w =
  retry_loop operation maxRetries delayMs rest (Some lastError')
    {| now := now w + ms + setTimeout_delay (delayMs * 2 ^ (attempt - 1)); store := s';
       trace := (trace w ++ [Invoked; Waited (delayMs * 2 ^ (attempt - 1))])%list;
       console := console w |}.
Proof.
  intros H He Hne. rewrite retry_loop_cons, call_and_await_eq, H. cbv zeta. simpl fst.
  cbv iota beta. rewrite He. apply Z.eqb_neq in Hne. rewrite Hne, sleep_eq.
  unfold after_ms. simpl. now rewrite <- app_assoc.
Qed.

(** A failure that cannot be kept as [lastError]: the conversion throws
    inside the [catch] block and ends the loop. *)
Lemma retry_loop_stops {T} (operation : Operation St T) maxRetries delayMs
    attempt rest lastError w ms e s' :
  operation (store w) = (Settles ms (Rejected e), s') ->
  as_Error e = None ->
  retry_loop operation maxRetries delayMs (attempt :: rest) lastError w =
  (Threw cannot_convert,
   {| now := now w + ms; store := s';
      trace := (trace w ++ [Invoked])%list; console := console w |}).
Proof.
  intros H He. rewrite retry_loop_cons, call_and_await_eq, H. cbv zeta. simpl fst.
  cbv iota beta. now rewrite He.
Qed.

(** Every attempt fails: the loop makes them all, waits between them
    and throws the error of the last one. *)
Lemma retry_loop_all_fail {T} (operation : Operation St T) (n : nat) delayMs :
  (forall s, rejects_usably (fst (operation s))) ->
  forall (k first : nat) lastError w,
    (first + k = n)%nat ->
    exists ms e lastError' w',
      retry_loop operation (Z.of_nat n) delayMs
        (map Z.of_nat (seq first (S k))) lastError w
        = (Threw lastError', w') /\
      fst (nth_call operation k (store w)) = Settles ms (Rejected e) /\
      as_Error e = Some lastError' /\
      invocations (trace w') = (invocations (trace w) + S k)%nat /\
      delays (trace w') = (delays (trace w) ++ backoff delayMs first k)%list.
Proof.
  intros Hrej k. induction k as [|k IH]; intros first lastError w Hn.
  - simpl map. rewrite retry_loop_cons, call_and_await_eq. cbv zeta.
    specialize (Hrej (store w)). simpl nth_call.
    destruct (fst (operation (store w))) as [|ms [v|e]]; try contradiction.
    simpl in Hrej. destruct (as_Error e) as [lastError'|] eqn:He; [|congruence].
    replace (Z.of_nat first =? Z.of_nat n) with true by (symmetry; apply Z.eqb_eq; lia).
    exists ms, e, lastError'. eexists. split; [reflexivity|]. simpl.
    rewrite invocations_snoc, delays_snoc. unfold backoff. simpl. auto.
  - change (map Z.of_nat (seq first (S (S k))))
      with (Z.of_nat first :: map Z.of_nat (seq (S first) (S k))).
    pose proof (Hrej (store w)) as Hr. simpl nth_call.
    destruct (operation (store w)) as [[|ms [v|e]] s'] eqn:Hop; try contradiction.
    simpl in Hr. destruct (as_Error e) as [kept|] eqn:He; [|congruence].
    erewrite retry_loop_retries; [|exact Hop|exact He|lia].
    match goal with |- context [retry_loop _ _ _ _ ?le ?w1] =>
      destruct (IH (S first) le w1)
        as (ms' & e' & lastError' & w' & Hrun & Hlast & Hkept & Hinv & Hdel);
        [lia|] end.
    exists ms', e', lastError', w'. split; [exact Hrun|]. simpl in Hlast, Hinv, Hdel.
    split; [exact Hlast|]. split; [exact Hkept|]. split.
    + rewrite Hinv.
      change (trace w ++ [Invoked; Waited (delayMs * 2 ^ (Z.of_nat first - 1))])%list
        with (trace w ++ [Invoked] ++ [Waited (delayMs * 2 ^ (Z.of_nat first - 1))])%list.
      rewrite app_assoc, !invocations_snoc. lia.
    + rewrite Hdel.
      change (trace w ++ [Invoked; Waited (delayMs * 2 ^ (Z.of_nat first - 1))])%list
        with (trace w ++ [Invoked] ++ [Waited (delayMs * 2 ^ (Z.of_nat first - 1))])%list.
      rewrite app_assoc, !delays_snoc, app_nil_r, <- app_assoc. reflexivity.
Qed.

(** With promises that all settle, the loop comes to an end. *)
Lemma retry_loop_settles {T} (operation : Operation St T) maxRetries delayMs :
  (forall s, fst (operation s) <> Never) ->
  forall todo lastError w,
    fst (retry_loop operation maxRetries delayMs todo lastError w) <> Pending.
Proof.
  intros Hs todo. induction todo as [|attempt rest IH]; intros lastError w.
  - simpl. discriminate.
  - rewrite retry_loop_cons, call_and_await_eq. cbv zeta.
    specialize (Hs (store w)).
    destruct (fst (operation (store w))) as [|ms [v|e]]; try contradiction; try discriminate.
    destruct (as_Error e); [|discriminate].
    destruct (attempt =? maxRetries); [discriminate|apply IH].
Qed.

(** Under a timeout every attempt settles, so [executeWithResilience]
    comes to an end whatever the operation does. *)
Lemma executeWithResilience_settles {T} (operation : Operation St T) options w :
  fst (executeWithResilience rt operation options w) <> Pending.
Proof.
  unfold executeWithResilience, withRetry. apply retry_loop_settles.
  intros s. destruct (operation s) as [p s']. simpl.
  destruct (withTimeout_settles p (or_default (opt_timeoutMs options) 30000))
    as (ms & o & ->). discriminate.
Qed.

Lemma nth_call_kind {T} (operation : Operation St T) :
  (forall s, exists ms e s',
      operation s = (Settles ms (Rejected e), s') /\ is_validation_error e = true) ->
  forall k s ms e,
    fst (nth_call operation k s) = Settles ms (Rejected e) ->
    is_validation_error e = true.
Proof.
  intros Hval k. induction k as [|k IH]; intros s ms e; simpl.
  - destruct (Hval s) as (ms' & e' & s' & -> & Hk). simpl. now intros [= _ <-].
  - apply IH.
Qed.

(** An [Error] is kept as it is. *)
Lemma as_Error_of_Error e : instanceof_Error e = true -> as_Error e = Some e.
Proof. now destruct e. Qed.

Lemma as_Error_of_value v s : String v = Some s -> as_Error (ExnValue v) = Some (ExnError s []).
Proof. intros H. simpl. now rewrite H. Qed.

Lemma as_Error_is_Error e lastError' : as_Error e = Some lastError' -> as_Error lastError' = Some lastError'.
Proof.
  destruct e as [m|h|message props|v]; simpl; try (now intros [= <-]).
  destruct (String v); [now intros [= <-]|discriminate].
Qed.

Lemma validation_error_is_Error e : is_validation_error e = true -> as_Error e = Some e.
Proof. destruct e as [[]| | |]; simpl; congruence. Qed.

Lemma safeToolExecution_eq toolName args (handler : value -> Operation St ToolResponse) w :
  safeToolExecution rt toolName args handler w =
  let w1 := {| now := now w; store := snd (handler args (store w));
               trace := (trace w ++ [Invoked])%list; console := console w |} in
  match fst (handler args (store w)) with
  | Never => (Pending, w1)
  | Settles ms (Fulfilled response) => (Returned response, after_ms ms w1)
  | Settles ms (Rejected e) =>
      match createMCPError rt toolName e args with
      | Some mcpError =>
          (Returned (error_response "Error executing " toolName mcpError), after_ms ms w1)
      | None => (Threw cannot_convert, after_ms ms w1)
      end
  end.
Proof.
  unfold safeToolExecution, try_catch. monadic. unfold mbind.
  rewrite call_and_await_eq. cbv zeta.
  destruct (fst (handler args (store w))) as [|ms [v|e]]; try reflexivity.
  now destruct (createMCPError rt toolName e args).
Qed.

(** [createMCPError] throws for the failures that cannot be kept as
    [lastError], and for no other. *)
Lemma createMCPError_usable toolName e args :
  as_Error e <> None <-> createMCPError rt toolName e args <> None.
Proof.
  destruct e as [m|h|message props|v]; simpl; try (split; discriminate).
  - split; intros _; [|discriminate].
    destruct (prop "response" props) as [resp|]; [|discriminate].
    destruct (is_object resp); discriminate.
  - destruct (String v); split; congruence.
Qed.

Lemma createMCPError_of_Error toolName e args :
  instanceof_Error e = true -> createMCPError rt toolName e args <> None.
Proof.
  intros H. apply createMCPError_usable. rewrite (as_Error_of_Error e H). discriminate.
Qed.

(** What the loop of [withRetry] throws is an [Error], once an attempt
    is left to make or [lastError] holds one. *)
Lemma retry_loop_throws_Error {T} (operation : Operation St T) maxRetries delayMs :
  forall todo lastError w e w',
    match lastError with
    | Some kept => instanceof_Error kept = true
    | None => todo <> []
    end ->
    retry_loop operation maxRetries delayMs todo lastError w = (Threw e, w') ->
    instanceof_Error e = true.
Proof.
  induction todo as [|attempt rest IH]; intros lastError w e w' Hlast.
  - simpl. destruct lastError as [kept|]; [|congruence]. now intros [= <- _].
  - rewrite retry_loop_cons, call_and_await_eq. cbv zeta.
    destruct (fst (operation (store w))) as [|ms [v|err]]; try discriminate.
    destruct (as_Error err) as [kept|] eqn:Hk; [|now intros [= <- _]].
    assert (Hkept : instanceof_Error kept = true).
    { destruct err as [m|h|message props|v]; simpl in Hk; try (now injection Hk as <-).
      destruct (String v); [now injection Hk as <-|discriminate]. }
    destruct (attempt =? maxRetries); [now intros [= <- _]|].
    apply IH. exact Hkept.
Qed.

(** Arguments the validator refuses: the handler is not called. *)
Lemma createSafeTool_invalid toolName validator (handler : value -> Operation St value)
    args w :
  validator args = false ->
  createSafeTool rt toolName validator handler args w =
  (Returned (createErrorResponse (invalid_arguments toolName args) toolName),
   {| now := now w; store := store w; trace := trace w;
      console :=
        (console w ++
         [console_error "[MCP] Tool execution failed: "
            {| tool := toolName;
               duration := now w - now w;
               success := false;
               log_timestamp := now w;
               log_error :=
                 Some (mcp_code (invalid_arguments toolName args),
                       mcp_message (invalid_arguments toolName args),
                       mcp_details (invalid_arguments toolName args)) |}])%list |}).
Proof.
  intros H. unfold createSafeTool, validateToolArgs, logToolExecution. rewrite H. reflexivity.
Qed.

End Steps.

(** *** The timeout *)

(** C5, as stated, does not hold for every duration. With a duration of
    2147483648 ms, which [setTimeout] replaces by 1 ms, an operation
    that is done after 5 ms, long before the duration is over, does not
    get its result through: the wrapper rejects after 1 ms. What it
    rejects with is a plain [Error] with a message, not an instance of
    an error class of its own. *)
Lemma withTimeout_fires_before_long_duration :
  let operation : Promise value := Settles 5 (Fulfilled (VString "ok")) in
  5 < 2147483648 /\
  withTimeout test_runtime operation 2147483648 <> operation /\
  withTimeout test_runtime operation 2147483648
    = Settles 1 (Rejected (ExnError "Operation timed out after 2147483648ms" [])) /\
  await (withTimeout test_runtime operation 2147483648) (start tt)
    = (Threw (ExnError "Operation timed out after 2147483648ms" []),
       after_ms 1 (start tt)).
Proof. cbv zeta. split; [lia|]. split; [discriminate|]. split; reflexivity. Qed.

(** C5, amended. For a duration from 1 to 2147483647 ms: when the
    operation settles before the timer fires (in an earlier millisecond,
    or in the same one with the event loop delivering it first),
    [withTimeout] settles when and as the operation does; otherwise, and
    so when the operation never settles, it rejects with a plain [Error]
    whose message is "Operation timed out after [timeoutMs]ms", and does
    so [timeoutMs] milliseconds after the call, not earlier and not
    later. For a duration outside that range the timer fires after
    1 ms. *)
Theorem withTimeout_race :
  forall (rt : Runtime) (St T : Type) (operation : Promise T) (timeoutMs : Z)
         (w : World St),
    (1 <= timeoutMs <= 2147483647 ->
     (completes_first rt operation timeoutMs ->
      withTimeout rt operation timeoutMs = operation) /\
     (~ completes_first rt operation timeoutMs ->
      withTimeout rt operation timeoutMs
        = Settles timeoutMs
            (Rejected (ExnError ("Operation timed out after " ++ string_of_Z timeoutMs
                                   ++ "ms") [])) /\
      await (withTimeout rt operation timeoutMs) w
        = (Threw (ExnError ("Operation timed out after " ++ string_of_Z timeoutMs
                              ++ "ms") []),
           after_ms timeoutMs w))) /\
    (timeoutMs < 1 \/ 2147483647 < timeoutMs ->
     withTimeout rt (@Never T) timeoutMs
       = Settles 1
           (Rejected (ExnError ("Operation timed out after " ++ string_of_Z timeoutMs
                                  ++ "ms") []))).
Proof.
  intros rt St T operation timeoutMs w. split.
  - intros Hd.
    unfold withTimeout, Promise_race, timeoutPromise, completes_first, timeout_error, Error.
    rewrite setTimeout_delay_in_range by exact Hd.
    destruct operation as [|ms o].
    + split; [contradiction|]. intros _. split; reflexivity.
    + destruct (ms <? timeoutMs) eqn:E1.
      * apply Z.ltb_lt in E1. split; [reflexivity|]. intros H. exfalso. apply H. now left.
      * apply Z.ltb_ge in E1. destruct (timeoutMs <? ms) eqn:E2.
        -- apply Z.ltb_lt in E2. split; [intros [H|[H _]]; lia|]. intros _.
           split; reflexivity.
        -- apply Z.ltb_ge in E2. destruct (operation_first_on_tie rt) eqn:E3.
           ++ split; [reflexivity|]. intros H. exfalso. apply H. right.
              split; [lia|reflexivity].
           ++ split; [intros [H|[_ H]]; [lia|discriminate]|]. intros _.
              split; reflexivity.
  - intros Hd. unfold withTimeout, Promise_race, timeoutPromise, timeout_error, Error.
    now rewrite setTimeout_delay_out_of_range by exact Hd.
Qed.

(** Under a timeout of 30000: an operation done after 12 ms keeps its
    result, one that never settles is timed out at 30000. *)
Lemma withTimeout_race_witness :
  1 <= 30000 <= 2147483647 /\
  withTimeout test_runtime (Settles 12 (Fulfilled (VString "ok"))) 30000
    = Settles 12 (Fulfilled (VString "ok")) /\
  withTimeout test_runtime (@Never value) 30000
    = Settles 30000 (Rejected (ExnError "Operation timed out after 30000ms" [])).
Proof.
  split; [lia|]. split.
  - apply (withTimeout_race test_runtime unit value
             (Settles 12 (Fulfilled (VString "ok"))) 30000 (start tt)); simpl; lia.
  - apply (withTimeout_race test_runtime unit value Never 30000 (start tt));
      simpl; [lia|tauto].
Defined.

(** *** Retries *)

(** C7, as stated, does not hold for every base delay and every
    failure. With a base delay of 1073741824 ms the operation that fails
    twice and then succeeds is called three times and its value
    returned, and the delays asked of [setTimeout] are
    [d * 2 ^ (attempt - 1)]; but the second one, 2147483648, is above
    what [setTimeout] takes, so the second wait lasts 1 ms: the waits
    are not [d * 2 ^ (attempt - 1)] and not increasing. And an operation
    that fails with a value without a usable [toString] is called once,
    whatever [maxRetries] is: the conversion of the failure throws a
    [TypeError], and that is what the wrapper throws. *)
Lemma withRetry_waits_and_failures_out_of_range :
  let run := withRetry flaky 3 1073741824 (start 0%nat) in
  let odd := ExnValue (VObject [("toString", VNumber 5)]) in
  let stopped := withRetry (always_failing odd) 3 1000 (start 0%nat) in
  fst run = Returned (VString "ok") /\
  invocations (trace (snd run)) = 3%nat /\
  delays (trace (snd run)) = [1073741824 * 2 ^ (1 - 1); 1073741824 * 2 ^ (2 - 1)] /\
  map setTimeout_delay (delays (trace (snd run))) = [1073741824; 1] /\
  now (snd run) = 5 + 1073741824 + 5 + 1 + 7 /\
  instanceof_Error odd = false /\
  fst stopped = Threw (ExnError "Cannot convert object to primitive value" []) /\
  invocations (trace (snd stopped)) = 1%nat /\
  fst stopped <> Threw odd.
Proof. cbv zeta. repeat split; discriminate. Qed.

(** C7, amended. Failures are [Error]s or values that [String] converts,
    and the base delay [d] is at least 1 ms with [2 * d] at most
    2147483647. An operation whose first two calls fail and whose third
    succeeds, under [withRetry] with [maxRetries = 3]: the wrapper
    returns the value of the third call, has called the operation three
    times, has asked [setTimeout] for [d * 2 ^ 0] after the first
    failure and for [d * 2 ^ 1] after the second, and has waited just
    that long, the second wait being the longer one. An operation all
    of whose calls fail, under any [maxRetries] of at least 1 and any
    base delay: the wrapper calls it [maxRetries] times, asks for a delay
    of [d * 2 ^ (attempt - 1)] after each failed attempt but the last,
    and throws the error of the last call, as [lastError] holds it: the
    error itself when it is an [Error], and [new Error(String(.))] of
    it otherwise. *)
Theorem withRetry_backoff :
  forall (St T : Type) (operation : Operation St T) (delayMs : Z) (w : World St),
    (forall ms1 e1 s1 ms2 e2 s2 ms3 v s3,
       1 <= delayMs -> delayMs * 2 <= 2147483647 ->
       operation (store w) = (Settles ms1 (Rejected e1), s1) ->
       operation s1 = (Settles ms2 (Rejected e2), s2) ->
       operation s2 = (Settles ms3 (Fulfilled v), s3) ->
       as_Error e1 <> None -> as_Error e2 <> None ->
       withRetry operation 3 delayMs w =
         (Returned v,
          {| now := now w + ms1 + delayMs + ms2 + delayMs * 2 + ms3;
             store := s3;
             trace := (trace w ++ [Invoked; Waited (delayMs * 2 ^ 0);
                                   Invoked; Waited (delayMs * 2 ^ 1);
                                   Invoked])%list;
             console := console w |}) /\
       setTimeout_delay (delayMs * 2 ^ 0) = delayMs /\
       setTimeout_delay (delayMs * 2 ^ 1) = delayMs * 2 /\
       setTimeout_delay (delayMs * 2 ^ 0) < setTimeout_delay (delayMs * 2 ^ 1)) /\
    (forall maxRetries,
       1 <= maxRetries ->
       (forall s, rejects_usably (fst (operation s))) ->
       exists ms e lastError' w',
         withRetry operation maxRetries delayMs w = (Threw lastError', w') /\
         fst (nth_call operation (Z.to_nat maxRetries - 1) (store w))
           = Settles ms (Rejected e) /\
         (instanceof_Error e = true -> lastError' = e) /\
         (forall v, e = ExnValue v ->
            exists message, String v = Some message /\ lastError' = ExnError message []) /\
         invocations (trace w') = (invocations (trace w) + Z.to_nat maxRetries)%nat /\
         delays (trace w')
           = (delays (trace w) ++ backoff delayMs 1 (Z.to_nat maxRetries - 1))%list).
Proof.
  intros St T operation delayMs w. split.
  - intros ms1 e1 s1 ms2 e2 s2 ms3 v s3 Hlow Hup H1 H2 H3 He1 He2.
    change (2 ^ 0) with 1. change (2 ^ 1) with 2.
    assert (D1 : setTimeout_delay (delayMs * 1) = delayMs)
      by (rewrite setTimeout_delay_in_range; lia).
    assert (D2 : setTimeout_delay (delayMs * 2) = delayMs * 2)
      by (rewrite setTimeout_delay_in_range; lia).
    split; [|rewrite D1, D2; repeat split; lia].
    destruct (as_Error e1) as [k1|] eqn:K1; [|congruence].
    destruct (as_Error e2) as [k2|] eqn:K2; [|congruence].
    unfold withRetry. change (attempts 3) with [1; 2; 3].
    erewrite retry_loop_retries; [|exact H1|exact K1|discriminate].
    erewrite retry_loop_retries; [|exact H2|exact K2|discriminate].
    erewrite retry_loop_succeeds; [|exact H3].
    cbn [now store trace console].
    change (2 ^ (1 - 1)) with 1. change (2 ^ (2 - 1)) with 2. rewrite D1, D2.
    rewrite <- !app_assoc. reflexivity.
  - intros maxRetries Hn Hrej.
    destruct (retry_loop_all_fail operation (Z.to_nat maxRetries) delayMs Hrej
                (Z.to_nat maxRetries - 1) 1 None w)
      as (ms & e & lastError' & w' & Hrun & Hlast & Hkept & Hinv & Hdel); [lia|].
    exists ms, e, lastError', w'. unfold withRetry, attempts.
    replace (S (Z.to_nat maxRetries - 1)) with (Z.to_nat maxRetries) in Hrun, Hinv by lia.
    rewrite Z2Nat.id in Hrun by lia.
    split; [exact Hrun|]. split; [exact Hlast|]. split; [|split; [|split; assumption]].
    + intros He. rewrite (as_Error_of_Error e He) in Hkept. congruence.
    + intros v ->. simpl in Hkept. destruct (String v) as [message|]; [|discriminate].
      exists message. split; [reflexivity|]. now injection Hkept as <-.
Qed.

(** The operation that fails twice and then succeeds, with a base delay
    of one second; and one that fails every time. *)
Lemma withRetry_backoff_witness :
  1 <= 1000 /\ 1000 * 2 <= 2147483647 /\
  withRetry flaky 3 1000 (start 0%nat)
    = (Returned (VString "ok"),
       {| now := 3017; store := 3%nat;
          trace := [Invoked; Waited 1000; Invoked; Waited 2000; Invoked];
          console := [] |}) /\
  exists w',
    withRetry (always_failing (Error "ECONNRESET")) 3 1000 (start 0%nat)
      = (Threw (Error "ECONNRESET"), w') /\
    invocations (trace w') = 3%nat.
Proof.
  pose proof (withRetry_backoff nat value flaky 1000 (start 0%nat)) as [Hflaky _].
  pose proof (withRetry_backoff nat value (always_failing (Error "ECONNRESET")) 1000
                (start 0%nat)) as [_ Hfail].
  split; [lia|]. split; [lia|]. split.
  - apply (Hflaky 5 (Error "ECONNRESET") 1%nat 5 (Error "ECONNRESET") 2%nat
                  7 (VString "ok") 3%nat); try reflexivity; try lia; discriminate.
  - destruct (Hfail 3) as (ms & e & lastError' & w' & Hrun & Hlast & Hkept & _ & Hinv & _).
    + lia.
    + intros s. discriminate.
    + simpl in Hlast. injection Hlast as _ <-.
      rewrite (Hkept eq_refl) in Hrun.
      exists w'. split; [exact Hrun|exact Hinv].
Defined.

(** C3, as stated, does not hold: an operation that fails every time
    with the very error [validateToolArgs] builds is called three times
    under [maxRetries = 3], with waits of 1000 and 2000 ms between the
    calls, and not once. *)
Lemma withRetry_retries_validation_error :
  let failure := ExnMCP (invalid_arguments "get_workflow" (VObject [])) in
  let run := withRetry (always_failing failure) 3 1000 (start 0%nat) in
  validateToolArgs (VObject []) isGetWorkflowArgs "get_workflow"
    = createError (invalid_arguments "get_workflow" (VObject [])) /\
  is_validation_error failure = true /\
  fst run = Threw failure /\
  invocations (trace (snd run)) = 3%nat /\
  delays (trace (snd run)) = [1000; 2000] /\
  invocations (trace (snd run)) <> 1%nat.
Proof. repeat split; discriminate. Qed.

(** C3, amended. [withRetry] does not look at the kind of a failure: an
    operation all of whose calls fail with a validation error is called
    [maxRetries] times, with the usual waits in between, before the
    error is thrown, and is called once only when [maxRetries] is 1.
    What keeps a validation failure from being retried is
    [createSafeTool], which checks the arguments before it enters the
    retry wrapper: when the validator refuses them, the operation is not
    called and nothing is waited for. *)
Theorem withRetry_ignores_error_kind :
  forall (St T : Type) (rt : Runtime) (maxRetries delayMs : Z),
    (forall (operation : Operation St T) (w : World St),
       1 <= maxRetries ->
       (forall s, exists ms e s',
           operation s = (Settles ms (Rejected e), s') /\ is_validation_error e = true) ->
       exists e w',
         withRetry operation maxRetries delayMs w = (Threw e, w') /\
         is_validation_error e = true /\
         invocations (trace w') = (invocations (trace w) + Z.to_nat maxRetries)%nat /\
         delays (trace w')
           = (delays (trace w) ++ backoff delayMs 1 (Z.to_nat maxRetries - 1))%list /\
         (invocations (trace w') = (invocations (trace w) + 1)%nat <-> maxRetries = 1)) /\
    (forall toolName validator (handler : value -> Operation St value) args (w : World St),
       validator args = false ->
       let after := snd (createSafeTool rt toolName validator handler args w) in
       trace after = trace w /\ store after = store w).
Proof.
  intros St T rt maxRetries delayMs. split.
  - intros operation w Hn Hval.
    assert (Hrej : forall s, rejects_usably (fst (operation s))).
    { intros s. destruct (Hval s) as (ms & e & s' & -> & Hk). simpl.
      rewrite (validation_error_is_Error e Hk). discriminate. }
    destruct (retry_loop_all_fail operation (Z.to_nat maxRetries) delayMs Hrej
                (Z.to_nat maxRetries - 1) 1 None w)
      as (ms & e & lastError' & w' & Hrun & Hlast & Hkept & Hinv & Hdel); [lia|].
    replace (S (Z.to_nat maxRetries - 1)) with (Z.to_nat maxRetries) in Hrun, Hinv by lia.
    rewrite Z2Nat.id in Hrun by lia.
    pose proof (nth_call_kind operation Hval _ _ _ _ Hlast) as Hkind.
    rewrite (validation_error_is_Error e Hkind) in Hkept. injection Hkept as <-.
    exists e, w'. unfold withRetry, attempts.
    split; [exact Hrun|]. split; [exact Hkind|]. split; [exact Hinv|].
    split; [exact Hdel|]. rewrite Hinv. lia.
  - intros toolName validator handler args w H. cbv zeta.
    rewrite (createSafeTool_invalid rt toolName validator handler args w H). split; reflexivity.
Qed.

(** Three attempts at an operation that fails with a validation error. *)
Lemma withRetry_ignores_error_kind_witness :
  exists e w',
    withRetry (always_failing (ExnMCP (invalid_arguments "get_workflow" (VObject []))))
      3 1000 (start 0%nat) = (Threw e, w') /\
    invocations (trace w') = 3%nat.
Proof.
  destruct (withRetry_ignores_error_kind nat value test_runtime 3 1000) as [Hretry _].
  destruct (Hretry (always_failing (ExnMCP (invalid_arguments "get_workflow" (VObject []))))
              (start 0%nat)) as (e & w' & Hrun & _ & Hinv & _).
  - lia.
  - intros s. do 3 eexists. split; reflexivity.
  - exists e, w'. split; [exact Hrun|exact Hinv].
Defined.

(** *** Validation *)

(** C4, as stated, does not hold: [get_workflow] called with [{}], which
    its validator refuses for want of [workflowId], answers with details
    that name no field: ["workflowId"] occurs nowhere in the response,
    and a validator that refuses [{}] for want of another field, [name],
    gives the very same response. *)
Lemma validation_failure_names_no_field :
  let respond validator :=
    fst (createSafeTool test_runtime "get_workflow" validator
           (fun _ => always_failing (Error "unused")) (VObject []) (start 0%nat)) in
  isGetWorkflowArgs (VObject []) = false /\
  isGetWorkflowArgs (VObject [("workflowId", VString "42")]) = true /\
  respond isGetWorkflowArgs
    = Returned (createErrorResponse (invalid_arguments "get_workflow" (VObject []))
                  "get_workflow") /\
  response_mentions "workflowId"
    (createErrorResponse (invalid_arguments "get_workflow" (VObject [])) "get_workflow")
    = false /\
  isCreateWorkflowArgs (VObject []) = false /\
  isCreateWorkflowArgs (VObject [("name", VString "n")]) = true /\
  respond isCreateWorkflowArgs = respond isGetWorkflowArgs.
Proof. repeat split. Qed.

(** C4, amended. When the validator refuses the raw arguments,
    [createSafeTool] returns an error response with the code
    [TOOL_EXECUTION_ERROR] whose details are the tool name, the text
    "Invalid arguments provided" and the arguments as they came, no
    field being singled out; the handler is not called, the store the
    handlers act on (the upstream API) is untouched, and nothing is
    retried or waited for. *)
Theorem createSafeTool_rejects_invalid_arguments :
  forall (St : Type) (rt : Runtime) (toolName : string) (validator : value -> bool)
         (handler : value -> Operation St value) (args : value) (w : World St),
    validator args = false ->
    exists w',
      createSafeTool rt toolName validator handler args w
        = (Returned (createErrorResponse (invalid_arguments toolName args) toolName), w') /\
      metadata (createErrorResponse (invalid_arguments toolName args) toolName)
        = Some (MetaError "TOOL_EXECUTION_ERROR"
                  (DetailsTool {| ted_toolName := toolName;
                                  ted_originalError := "Invalid arguments provided";
                                  ted_args := args |})) /\
      isError (createErrorResponse (invalid_arguments toolName args) toolName) = Some true /\
      invocations (trace w') = invocations (trace w) /\
      delays (trace w') = delays (trace w) /\
      trace w' = trace w /\
      store w' = store w.
Proof.
  intros St rt toolName validator handler args w H.
  eexists. split; [apply createSafeTool_invalid; exact H|]. simpl. repeat split.
Qed.

(** [get_workflow] called with an [id] where a [workflowId] is wanted. *)
Lemma createSafeTool_rejects_invalid_arguments_witness :
  isGetWorkflowArgs (VObject [("id", VString "42")]) = false /\
  exists w',
    createSafeTool test_runtime "get_workflow" isGetWorkflowArgs (fun _ => flaky)
      (VObject [("id", VString "42")]) (start 0%nat)
    = (Returned (createErrorResponse
                   (invalid_arguments "get_workflow" (VObject [("id", VString "42")]))
                   "get_workflow"), w') /\
    store w' = 0%nat.
Proof.
  split; [reflexivity|].
  destruct (createSafeTool_rejects_invalid_arguments nat test_runtime "get_workflow"
              isGetWorkflowArgs (fun _ => flaky) (VObject [("id", VString "42")])
              (start 0%nat) eq_refl) as (w' & Hrun & _ & _ & _ & _ & _ & Hstore).
  exists w'. split; [exact Hrun|exact Hstore].
Defined.

(** *** No exception escapes *)

(** C2, as stated, does not hold of [safeToolExecution]. A handler that
    rejects with a value that has no usable [toString], here the object
    that [{"toString":5}] parses to, makes [String(error)] throw inside
    the [catch] block: the [TypeError] escapes and no response is
    returned. And with a handler whose promise never settles
    [safeToolExecution], which has no timeout, never returns. *)
Lemma safeToolExecution_throws_or_hangs :
  let escapes :=
    safeToolExecution test_runtime "get_workflow" (VObject [])
      (rejecting (ExnValue no_toString)) (start 0%nat) in
  let hangs :=
    safeToolExecution test_runtime "get_workflow" (VObject []) stalling (start 0%nat) in
  String no_toString = None /\
  fst escapes = Threw (ExnError "Cannot convert object to primitive value" []) /\
  (forall response, fst escapes <> Returned response) /\
  fst hangs = Pending /\
  (forall response, fst hangs <> Returned response).
Proof. cbv zeta. repeat split; discriminate. Qed.

(** C2, amended. Whatever the tool name and the arguments:
    [safeToolExecution] returns the handler's response when the
    handler's promise is fulfilled; when it is rejected with an [Error]
    or with a value that [String] converts, it returns an error
    response: [isError] set, the text "Error executing [toolName]: "
    followed by the message of the error that [createMCPError] makes of
    the failure, and that error's code and details as metadata, an
    [MCPServerError] being passed on as it is; when the promise never
    settles, [safeToolExecution] does not return. The function that
    [createSafeTool] builds always returns, and what it returns is
    either a success response ([isError] unset, the stringified data as
    text, the data as metadata) or an error response of the same shape
    as above with the text "Error in [toolName]: ...": its timeout ends
    the wait for a handler that never settles, and a [TypeError] thrown
    while a failure is converted is caught like any other failure. *)
Theorem dispatch_never_throws :
  forall (St : Type) (rt : Runtime) (toolName : string) (args : value) (w : World St),
    (forall (handler : value -> Operation St ToolResponse),
       match fst (handler args (store w)) with
       | Settles _ (Fulfilled response) =>
           fst (safeToolExecution rt toolName args handler w) = Returned response
       | Settles _ (Rejected e) =>
           as_Error e <> None ->
           exists mcpError,
             createMCPError rt toolName e args = Some mcpError /\
             (forall m, e = ExnMCP m -> mcpError = m) /\
             fst (safeToolExecution rt toolName args handler w)
               = Returned
                   {| content :=
                        [ {| text := Some ("Error executing " ++ toolName ++ ": "
                                             ++ mcp_message mcpError) |} ];
                      isError := Some true;
                      metadata := Some (MetaError (mcp_code mcpError)
                                          (mcp_details mcpError)) |}
       | Never => fst (safeToolExecution rt toolName args handler w) = Pending
       end) /\
    (forall (validator : value -> bool) (handler : value -> Operation St value),
       exists response w',
         createSafeTool rt toolName validator handler args w = (Returned response, w') /\
         ((exists data,
             response = {| content := [ {| text := JSON_stringify_indented rt data |} ];
                           isError := Some false;
                           metadata := Some (MetaData data) |}) \/
          (exists e,
             response = {| content :=
                             [ {| text := Some ("Error in " ++ toolName ++ ": "
                                                  ++ mcp_message e) |} ];
                           isError := Some true;
                           metadata := Some (MetaError (mcp_code e) (mcp_details e)) |}))).
Proof.
  intros St rt toolName args w. split.
  - intros handler. rewrite safeToolExecution_eq. cbv zeta.
    destruct (fst (handler args (store w))) as [|ms [v|e]]; try reflexivity.
    intros He. apply (createMCPError_usable rt toolName e args) in He.
    destruct (createMCPError rt toolName e args) as [mcpError|] eqn:Hm; [|congruence].
    exists mcpError. split; [reflexivity|]. split; [|reflexivity].
    intros m ->. simpl in Hm. congruence.
  - intros validator handler.
    destruct (validator args) eqn:Hv.
    + unfold createSafeTool, validateToolArgs. rewrite Hv. simpl negb. cbv iota.
      monadic. unfold mbind at 1. unfold gets at 1. unfold try_catch.
      set (options := {| opt_maxRetries := Some 2; opt_timeoutMs := Some 30000;
                         opt_delayMs := None |}).
      pose proof (executeWithResilience_settles rt (handler args) options w) as Hsettles.
      assert (Hthrown : forall e w1,
                 executeWithResilience rt (handler args) options w = (Threw e, w1) ->
                 instanceof_Error e = true).
      { intros e w1. unfold executeWithResilience, withRetry.
        apply retry_loop_throws_Error. discriminate. }
      unfold mbind at 1.
      destruct (executeWithResilience rt (handler args) options w) as [[data|e|] w1];
        [| |now elim Hsettles].
      * do 2 eexists. split; [reflexivity|]. left. now exists data.
      * pose proof (createMCPError_of_Error rt toolName e args (Hthrown e w1 eq_refl)) as Hm.
        unfold mbind at 1.
        destruct (createMCPError rt toolName e args) as [mcpError|]; [|congruence].
        do 2 eexists. split; [reflexivity|]. right. now exists mcpError.
    + do 2 eexists. split; [apply createSafeTool_invalid; exact Hv|]. right.
      now exists (invalid_arguments toolName args).
Qed.

(** A handler that rejects with a string, behind [safeToolExecution];
    and a handler that never settles, behind [createSafeTool]: two
    attempts of 30 s each, one second apart, and then an error
    response. *)
Lemma dispatch_never_throws_witness :
  as_Error (ExnValue (VString "boom")) <> None /\
  fst (safeToolExecution test_runtime "get_workflow" (VObject [])
         (rejecting (ExnValue (VString "boom"))) (start 0%nat))
    = Returned
        {| content := [ {| text := Some "Error executing get_workflow: Tool execution failed: get_workflow" |} ];
           isError := Some true;
           metadata :=
             Some (MetaError "TOOL_EXECUTION_ERROR"
                     (DetailsTool {| ted_toolName := "get_workflow";
                                     ted_originalError := "boom";
                                     ted_args := VObject [] |})) |} /\
  exists response w',
    createSafeTool test_runtime "list_workflows" isListWorkflowsArgs (fun _ => hanging)
      (VObject []) (start 0%nat) = (Returned response, w') /\
    isError response = Some true /\
    now w' = 61000 /\
    invocations (trace w') = 2%nat.
Proof.
  assert (Hboom : as_Error (ExnValue (VString "boom")) <> None) by discriminate.
  destruct (dispatch_never_throws nat test_runtime "get_workflow" (VObject [])
              (start 0%nat)) as [Hsafe _].
  destruct (dispatch_never_throws nat test_runtime "list_workflows" (VObject [])
              (start 0%nat)) as [_ Htool].
  split; [exact Hboom|]. split.
  - destruct (Hsafe (rejecting (ExnValue (VString "boom"))) Hboom)
      as (mcpError & Hm & _ & Hrun).
    injection Hm as <-. exact Hrun.
  - destruct (Htool isListWorkflowsArgs (fun _ => hanging)) as (response & w' & Hrun & _).
    exists response, w'. split; [exact Hrun|].
    injection Hrun as <- <-. repeat split.
Defined.

End ToolExecutionFacts.

(* ===================================================================== *)
(** ** Facts about the pool in use *)
(* ===================================================================== *)

Module PoolInUseFacts.
Import Js Types Async ConnectionPool PoolInUse AsyncFacts ConnectionPoolFacts.

(** *** More on the map *)

Section MoreMapFacts.
Context {V : Type}.
Implicit Types (m : list (string * V)) (k : string) (v : V).

Lemma Map_get_set_other k k' v m :
  k <> k' -> Map_get k' (Map_set k v m) = Map_get k' m.
Proof.
  intros Hne. induction m as [|[k0 v0] m IH]; simpl.
  - destruct (String.eqb k' k) eqn:E; auto.
    apply String.eqb_eq in E. congruence.
  - destruct (String.eqb k k0) eqn:E; simpl.
    + apply String.eqb_eq in E. subst k0.
      destruct (String.eqb k' k) eqn:E'; auto.
      apply String.eqb_eq in E'. congruence.
    + now rewrite IH.
Qed.

Lemma In_Map_set k v k' v' m :
  In (k', v') (Map_set k v m) -> (k' = k /\ v' = v) \/ In (k', v') m.
Proof.
  induction m as [|[k0 v0] m IH]; simpl.
  - intros [[= <- <-]|[]]. now left.
  - destruct (String.eqb k k0) eqn:E; simpl.
    + apply String.eqb_eq in E. subst k0.
      intros [[= <- <-]|H]; [now left|right; now right].
    + intros [H|H]; [right; now left|].
      destruct (IH H) as [?|?]; [now left|right; now right].
Qed.

Lemma Map_keys_set_present k v v0 m :
  Map_get k m = Some v0 -> Map_keys (Map_set k v m) = Map_keys m.
Proof. intros H. now rewrite Map_keys_set, H. Qed.

End MoreMapFacts.

(** *** The methods once more, with all they do *)

Lemma updateConnectionActivity_eq now connectionId p :
  updateConnectionActivity now connectionId p =
  match Map_get connectionId (connections p) with
  | Some connection =>
      (Returned tt,
       set_connections (Map_set connectionId (with_lastActivity now connection)) p)
  | None => (Returned tt, p)
  end.
Proof.
  unfold updateConnectionActivity. run_pool.
  now destruct (Map_get connectionId (connections p)).
Qed.

Lemma close_response_eq connectionId connection p :
  close_response connectionId connection p =
  (Returned tt,
   match response connection with
   | Some r =>
       if headersSent r then p
       else match end_throws r with
            | Some err =>
                add_console
                  (console_warn ("[ConnectionPool] Error closing connection "
                                   ++ connectionId ++ ":") err) p
            | None => add_ended connectionId p
            end
   | None => p
   end).
Proof.
  unfold close_response, response_end. run_pool.
  destruct (response connection) as [r|]; [|reflexivity].
  destruct (headersSent r); simpl negb; cbv iota; [reflexivity|].
  now destruct (end_throws r).
Qed.

Lemma removeConnection_eq now connectionId p :
  removeConnection now connectionId p =
  match Map_get connectionId (connections p) with
  | None => (Returned tt, p)
  | Some connection =>
      let closed := snd (close_response connectionId connection p) in
      (Returned tt,
       add_console
         (console_log ("[ConnectionPool] Removed connection " ++ connectionId
                         ++ pool_size_line
                              (Map_size (Map_delete connectionId (connections closed)))
                              (maxConnections (config closed))))
         (set_connectionHistory
            (fun h => keep_last_1000 (h ++ [disconnected_event now connectionId]))
            (set_connections (Map_delete connectionId) closed)))
  end.
Proof.
  destruct (Map_get connectionId (connections p)) as [c|] eqn:E.
  - unfold removeConnection, addConnectionEvent. monadic.
    rewrite (bind_returned (a:=Some c) (w':=p)) by (unfold gets; now rewrite E).
    rewrite (bind_returned (close_response_eq connectionId c p)).
    rewrite close_response_eq. reflexivity.
  - now apply removeConnection_absent.
Qed.


Lemma try_removeConnection now connectionId (handler : exn -> Pool unit) p :
  try_catch (removeConnection now connectionId) handler p
    = removeConnection now connectionId p.
Proof.
  destruct (removeConnection_returns now connectionId p) as (q & Hq & _).
  unfold try_catch. now rewrite Hq.
Qed.

Lemma for_of_ext {W A} (f g : A -> M W unit) xs :
  (forall x w, f x w = g x w) -> forall w, for_of xs f w = for_of xs g w.
Proof.
  intros Hfg. induction xs as [|x xs IH]; intros w; simpl; auto.
  monadic. unfold mbind. rewrite Hfg.
  destruct (g x w) as [[[]|e|] w']; auto.
Qed.

Lemma removeConnection_history_bounded now connectionId p :
  (List.length (connectionHistory p) <= 1000)%nat ->
  (List.length (connectionHistory (snd (removeConnection now connectionId p))) <= 1000)%nat.
Proof.
  intros H. destruct (Map_get connectionId (connections p)) as [c|] eqn:E.
  - destruct (removeConnection_present now _ _ _ E) as (q & Hq & _ & Hh & _).
    rewrite Hq. simpl. rewrite Hh. apply keep_last_1000_length.
  - now rewrite (removeConnection_absent now _ _ E).
Qed.

(** Removing the connections of a list of ids, one after the other. *)
Lemma remove_loop now ids : forall p,
  exists q,
    for_of ids (removeConnection now) p = (Returned tt, q) /\
    connections q = delete_all ids (connections p) /\
    config q = config p /\
    cleanupInterval q = cleanupInterval p /\
    isShuttingDown q = isShuttingDown p /\
    ((List.length (connectionHistory p) <= 1000)%nat ->
     (List.length (connectionHistory q) <= 1000)%nat).
Proof.
  induction ids as [|k ids IH]; intros p; simpl for_of; monadic.
  - exists p. run_pool. tauto.
  - destruct (removeConnection_returns now k p) as (q & Hq & Hc & Hcfg & Hi & Hs).
    pose proof (removeConnection_history_bounded now k p) as Hb. rewrite Hq in Hb.
    destruct (IH q) as (r & Hr & Hc' & Hcfg' & Hi' & Hs' & Hb').
    exists r. rewrite (bind_returned Hq), Hr.
    rewrite Hc', Hc. repeat split; try congruence. auto.
Qed.

(** A sweep, without any assumption on the pool. *)
Lemma sweep_summary now p :
  exists q,
    cleanupInactiveConnections now p
      = (Returned (Z.of_nat (List.length (stale now p))), q) /\
    connections q = delete_all (Map_keys (stale now p)) (connections p) /\
    config q = config p /\
    cleanupInterval q = cleanupInterval p /\
    isShuttingDown q = isShuttingDown p /\
    ((List.length (connectionHistory p) <= 1000)%nat ->
     (List.length (connectionHistory q) <= 1000)%nat).
Proof.
  unfold cleanupInactiveConnections. run_pool.
  destruct (collect_timed_out_returns now (connectionTimeout (config p))
              (connections p) [] p) as (q1 & Hq1 & Hc1 & Hh1 & Hcfg1 & Hi1 & Hs1).
  fold (stale now p) in Hq1, Hh1. simpl app in Hq1.
  monadic. rewrite (bind_returned Hq1).
  destruct (remove_loop now (Map_keys (stale now p)) q1)
    as (q2 & Hq2 & Hc2 & Hcfg2 & Hi2 & Hs2 & Hb2).
  rewrite (bind_returned Hq2).
  assert (Hlen : List.length (Map_keys (stale now p)) = List.length (stale now p))
    by apply length_map.
  rewrite Hlen.
  assert (Hb : (List.length (connectionHistory p) <= 1000)%nat ->
               (List.length (connectionHistory q2) <= 1000)%nat).
  { intros H. apply Hb2. rewrite Hh1. now apply record_all_length. }
  destruct (Nat.ltb 0 (List.length (stale now p))); run_pool;
    (eexists; split; [reflexivity|]); simpl;
    rewrite Hc2, Hc1, Hcfg2, Hcfg1, Hi2, Hi1, Hs2, Hs1; auto.
Qed.

Lemma shutdown_summary now p :
  exists q,
    shutdown now p = (Returned tt, q) /\
    connections q = [] /\
    config q = config p /\
    cleanupInterval q = false /\
    isShuttingDown q = true /\
    ((List.length (connectionHistory p) <= 1000)%nat ->
     (List.length (connectionHistory q) <= 1000)%nat).
Proof.
  unfold shutdown. run_pool.
  set (p1 := set_cleanupInterval false (set_isShuttingDown true (add_console _ p))).
  destruct (remove_loop now (Map_keys (connections p1)) p1)
    as (q & Hq & Hc & Hcfg & Hi & Hs & Hb).
  monadic.
  erewrite bind_returned;
    [|rewrite (for_of_ext _ (removeConnection now))
        by (intros; apply try_removeConnection); exact Hq].
  run_pool.
  eexists. split; [reflexivity|]. simpl.
  rewrite Hc, Hcfg, Hi, Hs. repeat split.
  - apply delete_all_keys.
  - exact Hb.
Qed.

(** *** What the pool keeps true of itself *)

Lemma filed_by_id_filter (f : string * SSEConnection -> bool) m :
  filed_by_id m -> filed_by_id (filter f m).
Proof. intros H k c Hin. apply H. now apply filter_In in Hin. Qed.

Lemma size_delete_all ids m : Map_size (delete_all ids m) <= Map_size m.
Proof.
  rewrite delete_all_filter. unfold Map_size.
  pose proof (filter_length_le
                (fun entry : string * SSEConnection =>
                   negb (existsb (String.eqb (fst entry)) ids)) m).
  lia.
Qed.

Lemma perform_keeps_order cfg m p :
  in_order cfg p -> in_order cfg (snd (perform m p)).
Proof.
  intros (Hnd & Hid & Hcfg & Hh & Hsz). unfold in_order.
  destruct m as [now c|now k|now k|now|now]; simpl perform.
  - rewrite addConnection_eq. destruct (isShuttingDown p); [tauto|].
    destruct (Map_size (connections p) >=? maxConnections (config p)) eqn:E; simpl.
    + repeat split; auto. apply keep_last_1000_length.
    + repeat split; auto.
      * now apply NoDup_keys_set.
      * intros k' c' Hin. apply In_Map_set in Hin. destruct Hin as [[-> ->]|Hin]; auto.
      * apply keep_last_1000_length.
      * intros Hcap. unfold Map_size in *. rewrite Map_set_length.
        rewrite Z.geb_leb in E. apply Z.leb_gt in E. rewrite Hcfg in E.
        destruct (Map_get (id c) (connections p)); lia.
  - destruct (removeConnection_returns now k p) as (q & Hq & Hc & Hcfg' & _).
    pose proof (removeConnection_history_bounded now k p Hh) as Hb.
    rewrite Hq in *. simpl in *. rewrite Hc. repeat split; auto.
    + now apply NoDup_keys_delete.
    + now apply filed_by_id_filter.
    + congruence.
    + intros Hcap. specialize (Hsz Hcap). unfold Map_size in *.
      pose proof (Map_delete_length k (connections p)). lia.
  - rewrite updateConnectionActivity_eq.
    destruct (Map_get k (connections p)) as [c|] eqn:E; simpl; [|tauto].
    repeat split; auto.
    + now apply NoDup_keys_set.
    + intros k' c' Hin. apply In_Map_set in Hin. destruct Hin as [[-> ->]|Hin]; auto.
      simpl. apply Hid. now apply Map_get_In.
    + intros Hcap. specialize (Hsz Hcap). unfold Map_size in *.
      rewrite Map_set_length, E. exact Hsz.
  - destruct (sweep_summary now p) as (q & Hq & Hc & Hcfg' & _ & _ & Hb).
    monadic. rewrite (bind_returned Hq). run_pool. rewrite Hc.
    rewrite delete_all_filter. repeat split; auto.
    + now apply NoDup_keys_filter.
    + now apply filed_by_id_filter.
    + congruence.
    + intros Hcap. specialize (Hsz Hcap). rewrite <- delete_all_filter.
      pose proof (size_delete_all (Map_keys (stale now p)) (connections p)). lia.
  - destruct (shutdown_summary now p) as (q & Hq & Hc & Hcfg' & _ & _ & Hb).
    rewrite Hq. simpl. rewrite Hc. repeat split; auto; try congruence.
    + constructor.
    + intros k c [].
Qed.

Lemma after_methods_keeps_order cfg methods : forall p,
  in_order cfg p -> in_order cfg (after_methods methods p).
Proof.
  induction methods as [|m methods IH]; intros p H; simpl; auto.
  apply IH. now apply perform_keeps_order.
Qed.

Lemma new_pool_in_order cfg : in_order cfg (new_pool cfg).
Proof.
  unfold in_order. simpl. repeat split; auto.
  - constructor.
  - intros k c [].
  - lia.
Qed.


(** X1. Whatever methods are called on a pool built by the constructor,
    in whatever order: the keys of its map are distinct, every
    connection is filed under its own id, the configuration is the one
    it was built with, and with a capacity that is not negative the
    map, and so the [totalConnections] that [getPoolState] reports,
    never holds more than [maxConnections] connections. *)
Theorem pool_stays_in_order :
  forall (cfg : HTTPTransportConfig) (methods : list Method),
    0 <= maxConnections cfg ->
    let p := after_methods methods (new_pool cfg) in
    NoDup (Map_keys (connections p)) /\
    filed_by_id (connections p) /\
    config p = cfg /\
    Map_size (connections p) <= maxConnections cfg /\
    state_totalConnections (getPoolState p) <= state_maxConnections (getPoolState p).
Proof.
  intros cfg methods Hcap p.
  destruct (after_methods_keeps_order cfg methods _ (new_pool_in_order cfg))
    as (Hnd & Hid & Hcfg & _ & Hsz).
  fold p in Hnd, Hid, Hcfg, Hsz. repeat split; auto.
  simpl. rewrite Hcfg. auto.
Qed.

Lemma pool_stays_in_order_witness :
  0 <= maxConnections one_slot /\
  Map_size (connections (after_methods busy_day (new_pool one_slot))) <= 1.
Proof.
  split; [simpl; lia|].
  apply (pool_stays_in_order one_slot busy_day). simpl; lia.
Defined.

(** X2. The history never holds more than 1000 events, whatever methods
    are called on a pool built by the constructor; and recording events
    on a history of at most 1000 leaves the last 1000 of all of them,
    old and new, in the order they came: the oldest go first. *)
Theorem history_keeps_last_1000 :
  (forall (cfg : HTTPTransportConfig) (methods : list Method),
     (List.length (connectionHistory (after_methods methods (new_pool cfg))) <= 1000)%nat) /\
  (forall (events history : list ConnectionEvent),
     (List.length history <= 1000)%nat ->
     record_all events history
       = skipn (List.length (history ++ events) - 1000) (history ++ events)).
Proof.
  split.
  - intros cfg methods.
    now destruct (after_methods_keeps_order cfg methods _ (new_pool_in_order cfg))
      as (_ & _ & _ & Hh & _).
  - intros events history Hh. rewrite (record_all_keep_last events history Hh).
    unfold keep_last_1000.
    destruct (Nat.ltb 1000 (List.length (history ++ events))) eqn:E; [reflexivity|].
    apply Nat.ltb_ge in E.
    now replace (List.length (history ++ events) - 1000)%nat with 0%nat by lia.
Qed.

Lemma history_keeps_last_1000_witness :
  (List.length (connectionHistory two_idle) <= 1000)%nat /\
  record_all [disconnected_event 7 "old"] (connectionHistory two_idle)
    = (connectionHistory two_idle ++ [disconnected_event 7 "old"])%list.
Proof.
  destruct history_keeps_last_1000 as [_ Hlast].
  split; [simpl; lia|].
  rewrite (Hlast [disconnected_event 7 "old"] (connectionHistory two_idle)).
  - reflexivity.
  - simpl; lia.
Defined.

Lemma perform_after_shutdown m p :
  isShuttingDown p = true -> connections p = [] ->
  isShuttingDown (snd (perform m p)) = true /\ connections (snd (perform m p)) = [].
Proof.
  intros Hs Hc. destruct m as [now c|now k|now k|now|now]; simpl perform.
  - rewrite addConnection_eq, Hs. auto.
  - rewrite removeConnection_absent by now rewrite Hc. auto.
  - rewrite updateConnectionActivity_eq, Hc. auto.
  - destruct (sweep_summary now p) as (q & Hq & Hc' & _ & _ & Hs' & _).
    monadic. rewrite (bind_returned Hq). run_pool. rewrite Hc', Hs', Hc, Hs.
    split; [reflexivity|]. now rewrite delete_all_filter.
  - destruct (shutdown_summary now p) as (q & Hq & Hc' & _ & _ & Hs' & _).
    rewrite Hq. auto.
Qed.

(** X3. Shutdown is final: after [shutdown], whatever methods are
    called next, the pool stays empty and shutting down, and
    [addConnection] keeps throwing "Connection pool is shutting
    down". *)
Theorem shutdown_is_final :
  forall (now : Z) (p : SSEConnectionPool) (methods : list Method),
    let q := after_methods methods (snd (shutdown now p)) in
    connections q = [] /\
    isShuttingDown q = true /\
    forall now' connection,
      addConnection now' connection q
        = (Threw (Error "Connection pool is shutting down"), q).
Proof.
  intros now p methods.
  destruct (shutdown_summary now p) as (q0 & Hq0 & Hc0 & _ & _ & Hs0 & _).
  rewrite Hq0. simpl snd.
  assert (G : forall ms r, isShuttingDown r = true -> connections r = [] ->
              isShuttingDown (after_methods ms r) = true /\
              connections (after_methods ms r) = []).
  { induction ms as [|m ms IH]; intros r Hs Hc; simpl; auto.
    destruct (perform_after_shutdown m r Hs Hc). now apply IH. }
  destruct (G methods q0 Hs0 Hc0) as [Hs Hc].
  cbv zeta. repeat split; auto.
  intros now' connection. now rewrite addConnection_eq, Hs.
Qed.

(** X4. [updateConnectionActivity] never throws. On an id that is not
    in the map it does nothing at all. On an id that is, it stores the
    same connection with [lastActivity] set to the time of the call and
    touches nothing else: the keys and their order, every other
    connection and the history are as before. *)
Theorem touch_sets_lastActivity :
  forall (now : Z) (connectionId : string) (p : SSEConnectionPool),
    let q := snd (updateConnectionActivity now connectionId p) in
    fst (updateConnectionActivity now connectionId p) = Returned tt /\
    (Map_get connectionId (connections p) = None -> q = p) /\
    (forall connection,
       Map_get connectionId (connections p) = Some connection ->
       Map_get connectionId (connections q) = Some (with_lastActivity now connection) /\
       lastActivity (with_lastActivity now connection) = now /\
       Map_keys (connections q) = Map_keys (connections p) /\
       connectionHistory q = connectionHistory p /\
       forall other, other <> connectionId ->
         Map_get other (connections q) = Map_get other (connections p)).
Proof.
  intros now connectionId p q. subst q. rewrite updateConnectionActivity_eq.
  destruct (Map_get connectionId (connections p)) as [c|] eqn:E; simpl.
  - split; [reflexivity|]. split; [discriminate|].
    intros connection [= <-]. repeat split.
    + apply Map_get_set_same.
    + now apply Map_keys_set_present with c.
    + intros other Hne. apply Map_get_set_other. congruence.
  - repeat split. discriminate.
Qed.

Lemma touch_sets_lastActivity_witness :
  Map_get "ghost" (connections two_idle) = None /\
  snd (updateConnectionActivity 300000 "ghost" two_idle) = two_idle /\
  option_map lastActivity
    (Map_get "old" (connections (snd (updateConnectionActivity 300000 "old" two_idle))))
    = Some 300000.
Proof.
  destruct (touch_sets_lastActivity 300000 "ghost" two_idle) as (_ & Hnone & _).
  destruct (touch_sets_lastActivity 300000 "old" two_idle) as (_ & _ & Hsome).
  split; [reflexivity|]. split; [apply Hnone; reflexivity|].
  destruct (Hsome (demo_connection "old" 1000 (Some broken_response)) eq_refl) as (Hget & _).
  now rewrite Hget.
Defined.

Lemma sweep_leaves_fresh now p :
  NoDup (Map_keys (connections p)) ->
  connections (snd (cleanupInactiveConnections now p)) = fresh now p /\
  config (snd (cleanupInactiveConnections now p)) = config p.
Proof.
  intros Hnd. destruct (sweep_summary now p) as (q & Hq & Hc & Hcfg & _).
  rewrite Hq. simpl. rewrite Hc. split; [|exact Hcfg].
  unfold stale, fresh. now apply delete_all_stale.
Qed.

(** X5. Activity keeps a connection: when [updateConnectionActivity] is
    called for a connection at time [seen], a sweep at a time [now] with
    [now - seen <= connectionTimeout] leaves that connection in the
    pool, however long it had been idle before. *)
Theorem touch_saves_from_sweep :
  forall (seen now : Z) (connectionId : string) (connection : SSEConnection)
         (p : SSEConnectionPool),
    NoDup (Map_keys (connections p)) ->
    Map_get connectionId (connections p) = Some connection ->
    now - seen <= connectionTimeout (config p) ->
    let touched := snd (updateConnectionActivity seen connectionId p) in
    Map_get connectionId (connections (snd (cleanupInactiveConnections now touched)))
      = Some (with_lastActivity seen connection).
Proof.
  intros seen now connectionId connection p Hnd Hget Hidle touched.
  subst touched. rewrite updateConnectionActivity_eq, Hget. simpl snd.
  set (p' := set_connections _ p).
  assert (Hnd' : NoDup (Map_keys (connections p'))) by (simpl; now apply NoDup_keys_set).
  destruct (sweep_leaves_fresh now p' Hnd') as [-> _].
  unfold fresh. rewrite (Map_get_filter _ _ _ Hnd'). simpl connections.
  rewrite Map_get_set_same. unfold timed_out. simpl.
  now replace (now - seen >? connectionTimeout (config p)) with false
    by (symmetry; rewrite Z.gtb_ltb; apply Z.ltb_ge; lia).
Qed.

Lemma touch_saves_from_sweep_witness :
  Map_get "old"
    (connections (snd (cleanupInactiveConnections 400000 two_idle))) = None /\
  Map_get "old"
    (connections (snd (cleanupInactiveConnections 400000
                         (snd (updateConnectionActivity 399000 "old" two_idle)))))
    = Some (with_lastActivity 399000 (demo_connection "old" 1000 (Some broken_response))).
Proof.
  split; [reflexivity|].
  apply (touch_saves_from_sweep 399000 400000 "old"
           (demo_connection "old" 1000 (Some broken_response)) two_idle).
  - simpl. repeat constructor; simpl; intuition discriminate.
  - reflexivity.
  - simpl; lia.
Defined.


Lemma filter_not_filter {A} (f : A -> bool) l :
  filter f (filter (fun x => negb (f x)) l) = [].
Proof.
  induction l as [|x l IH]; simpl; auto.
  destruct (f x) eqn:E; simpl; auto. now rewrite E.
Qed.

Lemma collect_nothing now timeoutMs entries : forall acc p,
  filter (fun entry => timed_out now timeoutMs (snd entry)) entries = [] ->
  collect_timed_out now timeoutMs entries acc p = (Returned acc, p).
Proof.
  induction entries as [|[k c] entries IH]; intros acc p; simpl.
  - reflexivity.
  - change (now - lastActivity c >? timeoutMs) with (timed_out now timeoutMs c).
    destruct (timed_out now timeoutMs c); [discriminate|]. apply IH.
Qed.

Lemma sweep_nothing now p :
  stale now p = [] -> cleanupInactiveConnections now p = (Returned 0, p).
Proof.
  intros H. unfold cleanupInactiveConnections. run_pool. monadic.
  rewrite (bind_returned (collect_nothing now _ _ [] p H)). reflexivity.
Qed.

(** X6. A sweep that finds no connection idle for longer than the
    timeout returns 0 and changes nothing, not even the history or the
    console. So on a pool whose map has distinct keys a second sweep at
    the same time as a first one returns 0 and leaves the pool as the
    first one left it. *)
Theorem sweep_twice_is_sweep_once :
  forall (now : Z) (p : SSEConnectionPool),
    (stale now p = [] -> cleanupInactiveConnections now p = (Returned 0, p)) /\
    (NoDup (Map_keys (connections p)) ->
     let swept := snd (cleanupInactiveConnections now p) in
     cleanupInactiveConnections now swept = (Returned 0, swept)).
Proof.
  intros now p. split; [apply sweep_nothing|].
  intros Hnd swept. apply sweep_nothing.
  destruct (sweep_leaves_fresh now p Hnd) as [Hc Hcfg]. fold swept in Hc, Hcfg.
  unfold stale. rewrite Hc, Hcfg. unfold fresh. apply filter_not_filter.
Qed.

Lemma sweep_twice_is_sweep_once_witness :
  let swept := snd (cleanupInactiveConnections 400000 two_idle) in
  stale 100000 two_idle = [] /\
  cleanupInactiveConnections 100000 two_idle = (Returned 0, two_idle) /\
  fst (cleanupInactiveConnections 400000 two_idle) = Returned 1 /\
  cleanupInactiveConnections 400000 swept = (Returned 0, swept).
Proof.
  intros swept.
  destruct (sweep_twice_is_sweep_once 100000 two_idle) as [Hquiet _].
  destruct (sweep_twice_is_sweep_once 400000 two_idle) as [_ Hagain].
  split; [reflexivity|]. split; [apply Hquiet; reflexivity|]. split; [reflexivity|].
  apply Hagain. simpl. repeat constructor; simpl; intuition discriminate.
Defined.

(** X7. [addConnection] with an id the pool already holds, on a pool
    that is not shutting down: when the pool is not full, the new
    connection takes the place of the old one under the same key, the
    map keeps its size and the order of its keys, and the response of
    the connection that is replaced is not ended; when the pool is
    full, the call throws [ConnectionPoolFullError] and the old
    connection stays, although accepting the new one would not have
    made the pool any larger. *)
Theorem addConnection_same_id_replaces :
  forall (now : Z) (connection old : SSEConnection) (p : SSEConnectionPool),
    isShuttingDown p = false ->
    Map_get (id connection) (connections p) = Some old ->
    let q := snd (addConnection now connection p) in
    (Map_size (connections p) < maxConnections (config p) ->
     fst (addConnection now connection p) = Returned tt /\
     Map_get (id connection) (connections q) = Some connection /\
     Map_keys (connections q) = Map_keys (connections p) /\
     Map_size (connections q) = Map_size (connections p) /\
     ended q = ended p) /\
    (maxConnections (config p) <= Map_size (connections p) ->
     fst (addConnection now connection p)
       = Threw (ExnHTTP (pool_full_error (Map_size (connections p))
                           (maxConnections (config p)))) /\
     Map_get (id connection) (connections q) = Some old).
Proof.
  intros now connection old p Hs Hget q. subst q.
  rewrite addConnection_eq, Hs. split; intros Hsz.
  - replace (Map_size (connections p) >=? maxConnections (config p)) with false
      by (symmetry; rewrite Z.geb_leb; apply Z.leb_gt; lia).
    simpl. repeat split.
    + apply Map_get_set_same.
    + now apply Map_keys_set_present with old.
    + unfold Map_size. now rewrite Map_set_length, Hget.
  - replace (Map_size (connections p) >=? maxConnections (config p)) with true
      by (symmetry; apply Z.geb_le; lia).
    simpl. split; [reflexivity|exact Hget].
Qed.

Lemma addConnection_same_id_replaces_witness :
  isShuttingDown full_pool = false /\
  Map_get "a" (connections full_pool) = Some (demo_connection "a" 1 None) /\
  fst (addConnection 5 (demo_connection "a" 5 (Some broken_response)) full_pool)
    = Threw (ExnHTTP (pool_full_error 1 1)) /\
  Map_get "old"
    (connections (snd (addConnection 300000 (demo_connection "old" 300000 None) two_idle)))
    = Some (demo_connection "old" 300000 None).
Proof.
  destruct (addConnection_same_id_replaces 5 (demo_connection "a" 5 (Some broken_response))
              (demo_connection "a" 1 None) full_pool eq_refl eq_refl) as [_ Hfull].
  destruct (addConnection_same_id_replaces 300000 (demo_connection "old" 300000 None)
              (demo_connection "old" 1000 (Some broken_response)) two_idle eq_refl eq_refl)
    as [Hroom _].
  split; [reflexivity|]. split; [reflexivity|]. split.
  - apply Hfull. vm_compute. discriminate.
  - apply Hroom. vm_compute. reflexivity.
Defined.

(** X8. A call about one id leaves every other id alone: whatever
    [addConnection], [removeConnection] or [updateConnectionActivity]
    does for one id, and whether it returns or throws, [getConnection]
    gives for any other id what it gave before. *)
Theorem other_connections_untouched :
  forall (now : Z) (connection : SSEConnection) (connectionId other : string)
         (p : SSEConnectionPool),
    (id connection <> other ->
     getConnection other (snd (addConnection now connection p)) = getConnection other p) /\
    (connectionId <> other ->
     getConnection other (snd (removeConnection now connectionId p))
       = getConnection other p /\
     getConnection other (snd (updateConnectionActivity now connectionId p))
       = getConnection other p).
Proof.
  intros now connection connectionId other p. unfold getConnection. split.
  - intros Hne. rewrite addConnection_eq. destruct (isShuttingDown p); auto.
    destruct (_ >=? _); simpl; auto. now apply Map_get_set_other.
  - intros Hne. split.
    + destruct (removeConnection_returns now connectionId p) as (q & Hq & Hc & _).
      rewrite Hq. simpl. rewrite Hc. now apply Map_get_delete_other.
    + rewrite updateConnectionActivity_eq.
      destruct (Map_get connectionId (connections p)); simpl; auto.
      now apply Map_get_set_other.
Qed.

Lemma other_connections_untouched_witness :
  getConnection "recent" (snd (removeConnection 300000 "old" two_idle))
    = getConnection "recent" two_idle.
Proof.
  apply (other_connections_untouched 300000 (demo_connection "x" 0 None) "old" "recent"
           two_idle).
  discriminate.
Defined.

(** X9. [removeConnection] ends the response of the connection it
    removes only when there is a response whose headers are not sent
    yet. A connection whose headers are out, as they are once the
    event-stream headers are written, is taken from the map and gets
    its [disconnected] event without [response.end()] being called.
    When [end()] is called and throws, the connection is removed all
    the same. *)
Theorem removeConnection_ends_unsent_responses :
  forall (now : Z) (connectionId : string) (connection : SSEConnection)
         (p : SSEConnectionPool),
    Map_get connectionId (connections p) = Some connection ->
    let q := snd (removeConnection now connectionId p) in
    ended q = (if ends_response connection
               then (ended p ++ [connectionId])%list
               else ended p) /\
    (forall r, response connection = Some r -> headersSent r = true -> ended q = ended p) /\
    Map_get connectionId (connections q) = None /\
    connectionHistory q
      = keep_last_1000 (connectionHistory p ++ [disconnected_event now connectionId]).
Proof.
  intros now connectionId connection p Hget q.
  assert (Hended : ended q = (if ends_response connection
                              then (ended p ++ [connectionId])%list
                              else ended p)).
  { subst q. rewrite removeConnection_eq, Hget. cbv zeta.
    rewrite close_response_eq. simpl. unfold ends_response.
    destruct (response connection) as [r|]; [|reflexivity].
    destruct (headersSent r); [reflexivity|]. now destruct (end_throws r). }
  destruct (removeConnection_present now _ _ _ Hget) as (q' & Hq & Hc & Hh & _).
  split; [exact Hended|]. split.
  - intros r Hr Hsent. rewrite Hended. unfold ends_response. now rewrite Hr, Hsent.
  - subst q. rewrite Hq. simpl. rewrite Hc, Hh. split; [apply Map_get_delete_same|reflexivity].
Qed.

Lemma removeConnection_ends_unsent_responses_witness :
  let streaming := createSSEConnection 1 "s" demo_client (transport_handle 1) sent_response in
  let waiting := createSSEConnection 2 "w" demo_client (transport_handle 2) open_response in
  let p := after_methods [DoAdd 1 streaming; DoAdd 2 waiting] (new_pool DEFAULT_HTTP_CONFIG) in
  Map_get "s" (connections p) = Some streaming /\
  ended (snd (removeConnection 3 "s" p)) = [] /\
  ended (snd (removeConnection 3 "w" p)) = ["w"].
Proof.
  intros streaming waiting p.
  destruct (removeConnection_ends_unsent_responses 3 "s" streaming p eq_refl) as (Hs & _).
  destruct (removeConnection_ends_unsent_responses 3 "w" waiting p eq_refl) as (Hw & _).
  split; [reflexivity|]. split; [exact Hs|exact Hw].
Defined.


Lemma perform_keeps_active m p :
  (forall now connection, m = DoAdd now connection -> isActive connection = true) ->
  (forall k c, In (k, c) (connections p) -> isActive c = true) ->
  forall k c, In (k, c) (connections (snd (perform m p))) -> isActive c = true.
Proof.
  intros Hm Hp. destruct m as [now c|now k|now k|now|now]; simpl perform.
  - rewrite addConnection_eq. destruct (isShuttingDown p); auto.
    destruct (_ >=? _); simpl; auto.
    intros k' c' Hin. apply In_Map_set in Hin. destruct Hin as [[_ ->]|Hin]; eauto.
  - destruct (removeConnection_returns now k p) as (q & Hq & Hc & _).
    rewrite Hq. simpl. rewrite Hc. intros k' c' Hin. apply filter_In in Hin.
    apply (Hp k'). tauto.
  - rewrite updateConnectionActivity_eq.
    destruct (Map_get k (connections p)) as [c|] eqn:E; simpl; auto.
    intros k' c' Hin. apply In_Map_set in Hin. destruct Hin as [[_ ->]|Hin]; eauto.
    simpl. apply (Hp k). now apply Map_get_In.
  - destruct (sweep_summary now p) as (q & Hq & Hc & _).
    monadic. rewrite (bind_returned Hq). run_pool. rewrite Hc, delete_all_filter.
    intros k' c' Hin. apply filter_In in Hin. apply (Hp k'). tauto.
  - destruct (shutdown_summary now p) as (q & Hq & Hc & _).
    rewrite Hq. simpl. rewrite Hc. intros k' c' [].
Qed.

(** X10. [getPoolState] never reports more active connections than
    connections in all; and as no method of the pool ever changes
    [isActive], a pool that was only ever handed connections marked
    active, as [createSSEConnection] makes them, reports
    [activeCount = totalConnections] at all times. *)
Theorem activeCount_is_totalConnections :
  (forall p : SSEConnectionPool,
     state_activeCount (getPoolState p) <= state_totalConnections (getPoolState p)) /\
  (forall (cfg : HTTPTransportConfig) (methods : list Method),
     adds_active methods ->
     let s := getPoolState (after_methods methods (new_pool cfg)) in
     state_activeCount s = state_totalConnections s).
Proof.
  split.
  - intros p. simpl. unfold getActiveConnections, Map_values, Map_size.
    pose proof (filter_length_le isActive (map snd (connections p))) as H.
    rewrite length_map in H. lia.
  - intros cfg methods Hadds s. subst s.
    assert (G : forall ms p,
              (forall now connection, In (DoAdd now connection) ms ->
                                      isActive connection = true) ->
              (forall k c, In (k, c) (connections p) -> isActive c = true) ->
              forall k c, In (k, c) (connections (after_methods ms p)) ->
                          isActive c = true).
    { induction ms as [|m ms IH]; intros p Hms Hp; simpl; auto.
      apply IH.
      - intros now connection Hin. apply (Hms now). now right.
      - apply perform_keeps_active; auto.
        intros now connection ->. apply (Hms now). now left. }
    pose proof (G methods (new_pool cfg) Hadds (fun k c (H : In (k, c) []) => match H with end))
      as Hall.
    simpl. unfold getActiveConnections, Map_values, Map_size.
    f_equal. rewrite <- (length_map snd).
    f_equal. apply forallb_filter_id. apply forallb_forall.
    intros c Hc. apply in_map_iff in Hc. destruct Hc as ([k c'] & <- & Hin).
    now apply (Hall k).
Qed.

Lemma activeCount_is_totalConnections_witness :
  adds_active busy_day /\
  state_activeCount (getPoolState (after_methods (firstn 3 busy_day)
                                     (new_pool DEFAULT_HTTP_CONFIG))) = 2.
Proof.
  assert (H : forall ms, (forall m, In m ms -> In m busy_day) -> adds_active ms).
  { intros ms Hsub now connection Hin. apply Hsub in Hin. simpl in Hin.
    repeat (destruct Hin as [Hin|Hin]; [try discriminate; now injection Hin as _ <-|]).
    contradiction. }
  split; [apply H; auto|].
  destruct activeCount_is_totalConnections as [_ Heq].
  rewrite (Heq DEFAULT_HTTP_CONFIG (firstn 3 busy_day)); [reflexivity|].
  apply H. intros m Hin. simpl in Hin. simpl. tauto.
Defined.

(** X11. On a pool whose map has distinct keys, [shutdown] records one
    [disconnected] event for each connection it held, in the order in
    which they were added, and nothing else; with a history within its
    bound before, the history after is the last 1000 events of the old
    history followed by these. *)
Theorem shutdown_records_each_disconnect :
  forall (now : Z) (p : SSEConnectionPool),
    NoDup (Map_keys (connections p)) ->
    let q := snd (shutdown now p) in
    connectionHistory q
      = record_all (map (disconnected_event now) (Map_keys (connections p)))
          (connectionHistory p) /\
    ((List.length (connectionHistory p) <= 1000)%nat ->
     connectionHistory q
       = keep_last_1000 (connectionHistory p
                           ++ map (disconnected_event now) (Map_keys (connections p)))).
Proof.
  intros now p Hnd q.
  assert (Hq : connectionHistory q
               = record_all (map (disconnected_event now) (Map_keys (connections p)))
                   (connectionHistory p)).
  { subst q. unfold shutdown. run_pool.
    set (p1 := set_cleanupInterval false (set_isShuttingDown true (add_console _ p))).
    destruct (remove_each now (Map_keys (connections p1)) p1)
      as (r & Hr & _ & Hh & _).
    - exact Hnd.
    - intros k Hk Hnone. now apply Map_get_None in Hnone.
    - monadic.
      erewrite bind_returned;
        [|rewrite (for_of_ext _ (removeConnection now))
            by (intros; apply try_removeConnection); exact Hr].
      run_pool. simpl. exact Hh. }
  split; [exact Hq|]. intros Hb. rewrite Hq. now apply record_all_keep_last.
Qed.

Lemma shutdown_records_each_disconnect_witness :
  NoDup (Map_keys (connections two_idle)) /\
  map (fun ev => (connectionId ev, event ev))
    (connectionHistory (snd (shutdown 500000 two_idle)))
    = [("old", connected); ("recent", connected);
       ("old", disconnected); ("recent", disconnected)].
Proof.
  assert (Hnd : NoDup (Map_keys (connections two_idle))).
  { simpl. repeat constructor; simpl; intuition discriminate. }
  split; [exact Hnd|].
  destruct (shutdown_records_each_disconnect 500000 two_idle Hnd) as [-> _].
  reflexivity.
Defined.

(** X12. On a pool whose map has distinct keys, the number a sweep
    returns is the number of connections it took out: the size of the
    map goes down by exactly that number, which lies between 0 and the
    size before. *)
Theorem sweep_returns_number_removed :
  forall (now : Z) (p : SSEConnectionPool),
    NoDup (Map_keys (connections p)) ->
    exists n q,
      cleanupInactiveConnections now p = (Returned n, q) /\
      Map_size (connections q) = Map_size (connections p) - n /\
      0 <= n <= Map_size (connections p).
Proof.
  intros now p Hnd.
  destruct (sweep_summary now p) as (q & Hq & _).
  destruct (sweep_leaves_fresh now p Hnd) as [Hc _]. rewrite Hq in Hc. simpl in Hc.
  exists (Z.of_nat (List.length (stale now p))), q.
  split; [exact Hq|]. rewrite Hc. unfold Map_size, fresh, stale.
  pose proof (filter_length
                (fun entry : string * SSEConnection =>
                   timed_out now (connectionTimeout (config p)) (snd entry))
                (connections p)) as H.
  cbv beta in H. lia.
Qed.

Lemma sweep_returns_number_removed_witness :
  NoDup (Map_keys (connections two_idle)) /\
  exists q,
    cleanupInactiveConnections 400000 two_idle = (Returned 1, q) /\
    Map_size (connections q) = 1.
Proof.
  assert (Hnd : NoDup (Map_keys (connections two_idle))).
  { simpl. repeat constructor; simpl; intuition discriminate. }
  split; [exact Hnd|].
  destruct (sweep_returns_number_removed 400000 two_idle Hnd) as (n & q & Hq & Hsz & _).
  assert (Hn : n = 1) by (now injection Hq as <- _).
  exists q. subst n. split; [exact Hq|]. rewrite Hsz. reflexivity.
Defined.

(** X13. [validateSSERequest] looks at two headers only, [accept] and
    [cache-control]: setting any other header never changes its
    verdict. A header counts only when it is a single string; a request
    with neither of the two as a string is refused, and one whose
    [cache-control] is a string with "no-cache" in it is let in
    whatever its [accept] says. *)
Theorem validateSSERequest_reads_two_headers :
  forall (headers : list (string * HeaderValue)),
    (forall name v,
       name <> "accept" -> name <> "cache-control" ->
       validateSSERequest (Map_set name v headers) = validateSSERequest headers) /\
    ((forall s, Map_get "accept" headers <> Some (OneValue s)) ->
     (forall s, Map_get "cache-control" headers <> Some (OneValue s)) ->
     validateSSERequest headers = false) /\
    (forall s, Map_get "cache-control" headers = Some (OneValue s) ->
               ToolExecution.occurs "no-cache" s = true ->
               validateSSERequest headers = true).
Proof.
  intros headers. unfold validateSSERequest, string_including. repeat split.
  - intros name v Ha Hc. now rewrite !Map_get_set_other by congruence.
  - intros Ha Hc.
    destruct (Map_get "accept" headers) as [[s|l]|];
      [now elim (Ha s)| |];
      (destruct (Map_get "cache-control" headers) as [[s'|l']|];
         [now elim (Hc s')|reflexivity|reflexivity]).
  - intros s -> ->. apply orb_true_r.
Qed.

Lemma validateSSERequest_reads_two_headers_witness :
  validateSSERequest sse_request = true /\
  validateSSERequest (Map_set "x-trace" (OneValue "1") sse_request) = true /\
  validateSSERequest [("accept", ManyValues ["text/event-stream"])] = false /\
  validateSSERequest [("accept", OneValue "application/json");
                      ("cache-control", OneValue "no-cache")] = true.
Proof.
  destruct (validateSSERequest_reads_two_headers sse_request) as (Hset & _ & _).
  destruct (validateSSERequest_reads_two_headers
              [("accept", ManyValues ["text/event-stream"])]) as (_ & Hnone & _).
  destruct (validateSSERequest_reads_two_headers
              [("accept", OneValue "application/json");
               ("cache-control", OneValue "no-cache")]) as (_ & _ & Hcache).
  split; [reflexivity|]. split.
  - rewrite Hset; [reflexivity|discriminate|discriminate].
  - split.
    + apply Hnone; intros s; discriminate.
    + apply (Hcache "no-cache"); reflexivity.
Defined.


(** *** The history in time *)

Lemma chronological_skipn t n (h : list ConnectionEvent) :
  chronological h /\ Forall (fun ev => timestamp ev <= t) h ->
  chronological (skipn n h) /\ Forall (fun ev => timestamp ev <= t) (skipn n h).
Proof.
  revert h. induction n as [|n IH]; intros h [Hs Hb]; [simpl; auto|].
  destruct h as [|ev h]; [simpl; auto|]. simpl skipn. apply IH.
  unfold chronological in *. simpl in Hs. inversion Hs; subst.
  inversion Hb; subst. auto.
Qed.

Lemma chronological_snoc t (h : list ConnectionEvent) ev :
  t <= timestamp ev ->
  chronological h /\ Forall (fun ev' => timestamp ev' <= t) h ->
  chronological (h ++ [ev]) /\
  Forall (fun ev' => timestamp ev' <= timestamp ev) (h ++ [ev]).
Proof.
  intros Ht [Hs Hb]. unfold chronological in *. induction h as [|ev0 h IH]; simpl.
  - split; repeat constructor. lia.
  - simpl in Hs. inversion Hs as [|? ? Hs' Hle]; subst. inversion Hb as [|? ? Hb0 Hb']; subst.
    destruct (IH Hs' Hb') as [IHs IHb]. split.
    + constructor; [exact IHs|]. rewrite map_app, Forall_app. split; [exact Hle|].
      repeat constructor. simpl. lia.
    + constructor; [lia|exact IHb].
Qed.

(** Recording an event stamped [now] on a history that is in order and
    holds nothing later than [t <= now]. *)
Lemma chronological_record t now (h : list ConnectionEvent) ev :
  t <= now -> timestamp ev = now ->
  chronological h /\ Forall (fun ev' => timestamp ev' <= t) h ->
  chronological (keep_last_1000 (h ++ [ev])) /\
  Forall (fun ev' => timestamp ev' <= now) (keep_last_1000 (h ++ [ev])).
Proof.
  intros Ht Hev H. rewrite keep_last_1000_snoc. subst now.
  apply (chronological_snoc t); [exact Ht|]. now apply chronological_skipn.
Qed.

Lemma chronological_later t t' (h : list ConnectionEvent) :
  t <= t' ->
  chronological h /\ Forall (fun ev => timestamp ev <= t) h ->
  chronological h /\ Forall (fun ev => timestamp ev <= t') h.
Proof.
  intros Ht [Hs Hb]. split; [exact Hs|].
  eapply Forall_impl; [|exact Hb]. simpl. intros ev H. lia.
Qed.

Lemma chronological_record_all now events : forall (h : list ConnectionEvent),
  Forall (fun ev => timestamp ev = now) events ->
  chronological h /\ Forall (fun ev => timestamp ev <= now) h ->
  chronological (record_all events h) /\
  Forall (fun ev => timestamp ev <= now) (record_all events h).
Proof.
  induction events as [|ev events IH]; intros h Hev H; [exact H|].
  inversion Hev; subst. simpl. apply IH; [assumption|].
  apply (chronological_record (timestamp ev)); auto. lia.
Qed.

Lemma removeConnection_chronological now connectionId p :
  chronological (connectionHistory p) /\
  Forall (fun ev => timestamp ev <= now) (connectionHistory p) ->
  chronological (connectionHistory (snd (removeConnection now connectionId p))) /\
  Forall (fun ev => timestamp ev <= now)
    (connectionHistory (snd (removeConnection now connectionId p))).
Proof.
  intros H. destruct (Map_get connectionId (connections p)) as [c|] eqn:E.
  - destruct (removeConnection_present now _ _ _ E) as (q & Hq & _ & Hh & _).
    rewrite Hq. simpl. rewrite Hh. apply (chronological_record now); auto. lia.
  - now rewrite (removeConnection_absent now _ _ E).
Qed.

Lemma remove_loop_chronological now ids : forall p,
  chronological (connectionHistory p) /\
  Forall (fun ev => timestamp ev <= now) (connectionHistory p) ->
  chronological (connectionHistory (snd (for_of ids (removeConnection now) p))) /\
  Forall (fun ev => timestamp ev <= now)
    (connectionHistory (snd (for_of ids (removeConnection now) p))).
Proof.
  induction ids as [|k ids IH]; intros p H; simpl for_of; monadic; [exact H|].
  destruct (removeConnection_returns now k p) as (q & Hq & _).
  pose proof (removeConnection_chronological now k p H) as Hq'. rewrite Hq in Hq'.
  rewrite (bind_returned Hq). now apply IH.
Qed.

Lemma sweep_chronological now p :
  chronological (connectionHistory p) /\
  Forall (fun ev => timestamp ev <= now) (connectionHistory p) ->
  chronological (connectionHistory (snd (cleanupInactiveConnections now p))) /\
  Forall (fun ev => timestamp ev <= now)
    (connectionHistory (snd (cleanupInactiveConnections now p))).
Proof.
  intros H'. unfold cleanupInactiveConnections. run_pool.
  destruct (collect_timed_out_returns now (connectionTimeout (config p))
              (connections p) [] p) as (q1 & Hq1 & _ & Hh1 & _).
  simpl app in Hq1. monadic. rewrite (bind_returned Hq1).
  assert (H1 : chronological (connectionHistory q1) /\
               Forall (fun ev => timestamp ev <= now) (connectionHistory q1)).
  { rewrite Hh1. apply chronological_record_all; [|exact H'].
    apply Forall_forall. intros ev Hin. apply in_map_iff in Hin.
    now destruct Hin as (entry & <- & _). }
  match goal with |- context [for_of ?ids _] =>
    pose proof (remove_loop_chronological now ids q1 H1) as H2;
    destruct (remove_loop now ids q1) as (q2 & Hq2 & _)
  end.
  rewrite Hq2 in H2. rewrite (bind_returned Hq2).
  match goal with |- context [Nat.ltb ?a ?b] => destruct (Nat.ltb a b) end;
    run_pool; exact H2.
Qed.

Lemma shutdown_chronological now p :
  chronological (connectionHistory p) /\
  Forall (fun ev => timestamp ev <= now) (connectionHistory p) ->
  chronological (connectionHistory (snd (shutdown now p))) /\
  Forall (fun ev => timestamp ev <= now) (connectionHistory (snd (shutdown now p))).
Proof.
  intros H'. unfold shutdown. run_pool.
  set (p1 := set_cleanupInterval false (set_isShuttingDown true (add_console _ p))).
  pose proof (remove_loop_chronological now (Map_keys (connections p1)) p1 H') as H2.
  destruct (remove_loop now (Map_keys (connections p1)) p1) as (q & Hq & _).
  rewrite Hq in H2. monadic.
  erewrite bind_returned;
    [|rewrite (for_of_ext _ (removeConnection now))
        by (intros; apply try_removeConnection); exact Hq].
  run_pool. exact H2.
Qed.

Lemma perform_keeps_chronological t m p :
  t <= method_time m ->
  chronological (connectionHistory p) /\
  Forall (fun ev => timestamp ev <= t) (connectionHistory p) ->
  chronological (connectionHistory (snd (perform m p))) /\
  Forall (fun ev => timestamp ev <= method_time m) (connectionHistory (snd (perform m p))).
Proof.
  intros Ht H. pose proof (chronological_later t (method_time m) _ Ht H) as H'.
  destruct m as [now c|now k|now k|now|now]; simpl method_time in *; simpl perform.
  - rewrite addConnection_eq. destruct (isShuttingDown p); [exact H'|].
    destruct (_ >=? _); simpl; apply (chronological_record now); auto; lia.
  - now apply removeConnection_chronological.
  - rewrite updateConnectionActivity_eq.
    now destruct (Map_get k (connections p)).
  - pose proof (sweep_chronological now p H') as H2.
    destruct (sweep_summary now p) as (q & Hq & _). rewrite Hq in H2.
    monadic. rewrite (bind_returned Hq). run_pool. exact H2.
  - now apply shutdown_chronological.
Qed.

(** X25. When the methods of a pool built by the constructor are called
    in the order of their times, the events of its history are in the
    order of their timestamps, whatever the methods are and whatever
    has been cut off at the front. *)
Theorem history_is_chronological :
  forall (cfg : HTTPTransportConfig) (methods : list Method),
    in_time_order methods ->
    chronological (connectionHistory (after_methods methods (new_pool cfg))).
Proof.
  intros cfg methods Hord.
  assert (G : forall ms p t,
            StronglySorted Z.le (map method_time ms) ->
            Forall (fun m => t <= method_time m) ms ->
            chronological (connectionHistory p) /\
            Forall (fun ev => timestamp ev <= t) (connectionHistory p) ->
            chronological (connectionHistory (after_methods ms p))).
  { induction ms as [|m ms IH]; intros p t Hs Hb H; simpl; [tauto|].
    simpl in Hs. inversion Hs as [|? ? Hs' Hle]; subst.
    inversion Hb as [|? ? Hm Hb']; subst.
    apply (IH _ (method_time m)); auto.
    - rewrite Forall_map in Hle. exact Hle.
    - now apply (perform_keeps_chronological t). }
  destruct methods as [|m ms]; [constructor|].
  apply (G (m :: ms) (new_pool cfg) (method_time m)); auto.
  - unfold in_time_order in Hord. simpl in Hord.
    inversion Hord as [|? ? _ Hle]; subst. constructor; [lia|].
    rewrite Forall_map in Hle. exact Hle.
  - split; constructor.
Qed.

Lemma history_is_chronological_witness :
  in_time_order busy_day /\
  map timestamp (connectionHistory (after_methods busy_day (new_pool DEFAULT_HTTP_CONFIG)))
    = [1000; 2000; 400000; 400000; 400001; 400002; 500000] /\
  chronological (connectionHistory (after_methods busy_day (new_pool DEFAULT_HTTP_CONFIG))).
Proof.
  assert (H : in_time_order busy_day).
  { unfold in_time_order. simpl. repeat constructor; lia. }
  split; [exact H|]. split; [reflexivity|].
  apply (history_is_chronological DEFAULT_HTTP_CONFIG busy_day H).
Defined.

End PoolInUseFacts.

(* ===================================================================== *)
(** ** Facts about the wrappers in use *)
(* ===================================================================== *)

Module WrappersInUseFacts.
Import Js Types Async ToolExecution WrappersInUse AsyncFacts ToolExecutionFacts.

Section MoreSteps.
Context {St : Type} (rt : Runtime).
Implicit Types (w : World St).

Lemma backoff_cons delayMs first k :
  backoff delayMs first (S k)
  = delayMs * 2 ^ (Z.of_nat first - 1) :: backoff delayMs (S first) k.
Proof. reflexivity. Qed.

(** However the loop of [withRetry] ends, it has called the operation
    at most once per attempt left, and has waited after each call but
    the last. *)
Lemma retry_loop_bounded {T} (operation : Operation St T) (n : nat) delayMs :
  forall (k first : nat) lastError w,
    (first + k = S n)%nat ->
    exists j,
      (j <= k)%nat /\ ((1 <= k)%nat -> (1 <= j)%nat) /\
      invocations (trace (snd (retry_loop operation (Z.of_nat n) delayMs
                                 (map Z.of_nat (seq first k)) lastError w)))
        = (invocations (trace w) + j)%nat /\
      delays (trace (snd (retry_loop operation (Z.of_nat n) delayMs
                            (map Z.of_nat (seq first k)) lastError w)))
        = (delays (trace w) ++ backoff delayMs first (j - 1))%list /\
      console (snd (retry_loop operation (Z.of_nat n) delayMs
                      (map Z.of_nat (seq first k)) lastError w))
        = console w.
Proof.
  induction k as [|k IH]; intros first lastError w Hn.
  - exists 0%nat. simpl. rewrite app_nil_r. repeat split; lia.
  - change (map Z.of_nat (seq first (S k)))
      with (Z.of_nat first :: map Z.of_nat (seq (S first) k)).
    rewrite retry_loop_cons, call_and_await_eq. cbv zeta.
    assert (Hone : forall w1 : World St,
               trace w1 = (trace w ++ [Invoked])%list -> console w1 = console w ->
               exists j,
                 (j <= S k)%nat /\ ((1 <= S k)%nat -> (1 <= j)%nat) /\
                 invocations (trace w1) = (invocations (trace w) + j)%nat /\
                 delays (trace w1) = (delays (trace w) ++ backoff delayMs first (j - 1))%list /\
                 console w1 = console w).
    { intros w1 Ht Hc. exists 1%nat. rewrite Ht, invocations_snoc, delays_snoc.
      simpl. repeat split; auto; lia. }
    destruct (fst (operation (store w))) as [|ms [v|e]].
    + apply Hone; reflexivity.
    + apply Hone; reflexivity.
    + destruct (as_Error e) as [kept|]; [|apply Hone; reflexivity].
      destruct (Z.of_nat first =? Z.of_nat n) eqn:E; [apply Hone; reflexivity|].
      apply Z.eqb_neq in E. rewrite sleep_eq.
      match goal with |- context [retry_loop _ _ _ _ ?le (snd (_, ?w1))] =>
        change (snd (Returned tt, w1)) with w1;
        destruct (IH (S first) le w1) as (j & Hj & Hpos & Hinv & Hdel & Hcon); [lia|];
        exists (S j); rewrite Hinv, Hdel, Hcon
      end.
      simpl trace. simpl console.
      rewrite !invocations_snoc, !delays_snoc, app_nil_r, <- app_assoc.
      assert (1 <= j)%nat by (apply Hpos; lia).
      replace (S j - 1)%nat with (S (j - 1)) by lia. rewrite backoff_cons.
      repeat split; auto; lia.
Qed.

(** The calls before call number [k] reject and call number [k]
    fulfils: the loop stops there. *)
Lemma retry_loop_first_success {T} (operation : Operation St T) (n : nat) delayMs :
  forall (k m first : nat) lastError w v,
    (k < m)%nat -> (first + k <= n)%nat ->
    first_success_at operation (store w) k v ->
    exists w',
      retry_loop operation (Z.of_nat n) delayMs (map Z.of_nat (seq first m)) lastError w
        = (Returned v, w') /\
      invocations (trace w') = (invocations (trace w) + S k)%nat /\
      delays (trace w') = (delays (trace w) ++ backoff delayMs first k)%list /\
      store w' = snd (nth_call operation k (store w)) /\
      console w' = console w.
Proof.
  induction k as [|k IH]; intros m first lastError w v Hm Hn [Hbefore [ms Hk]];
    (destruct m as [|m]; [lia|]);
    change (map Z.of_nat (seq first (S m)))
      with (Z.of_nat first :: map Z.of_nat (seq (S first) m)).
  - simpl in Hk. destruct (operation (store w)) as [p s'] eqn:Hop. simpl in Hk. subst p.
    erewrite retry_loop_succeeds; [|exact Hop].
    eexists. split; [reflexivity|]. simpl. rewrite Hop, invocations_snoc, delays_snoc.
    unfold backoff. simpl. rewrite app_nil_r. repeat split; auto; lia.
  - pose proof (Hbefore 0%nat ltac:(lia)) as H0. simpl in H0, Hk.
    destruct (operation (store w)) as [[|ms0 [v0|e0]] s'] eqn:Hop; try contradiction.
    simpl in H0. destruct (as_Error e0) as [kept|] eqn:He0; [|congruence].
    erewrite retry_loop_retries; [|exact Hop|exact He0|lia].
    match goal with |- context [retry_loop _ _ _ _ ?le ?w1] =>
      destruct (IH m (S first) le w1 v) as (w' & Hrun & Hinv & Hdel & Hst & Hcon);
        [lia|lia| |]
    end.
    + split.
      * intros j Hj. specialize (Hbefore (S j) ltac:(lia)). simpl in Hbefore.
        now rewrite Hop in Hbefore.
      * exists ms. exact Hk.
    + exists w'. split; [exact Hrun|]. simpl in Hinv, Hdel, Hst, Hcon.
      rewrite Hinv, Hdel, Hst, Hcon. simpl nth_call. rewrite Hop. simpl snd.
      change (trace w ++ [Invoked; Waited (delayMs * 2 ^ (Z.of_nat first - 1))])%list
        with (trace w ++ [Invoked] ++ [Waited (delayMs * 2 ^ (Z.of_nat first - 1))])%list.
      rewrite app_assoc, !invocations_snoc, !delays_snoc, app_nil_r, <- app_assoc.
      rewrite backoff_cons. repeat split; auto; lia.
Qed.

Lemma withTimeout_decides {T} (p : Promise T) timeoutMs :
  1 <= timeoutMs <= 2147483647 ->
  (completes_first rt p timeoutMs /\ withTimeout rt p timeoutMs = p) \/
  (~ completes_first rt p timeoutMs /\
   withTimeout rt p timeoutMs = Settles timeoutMs (Rejected (timeout_error timeoutMs))).
Proof.
  intros Hd. unfold withTimeout, Promise_race, timeoutPromise, completes_first.
  rewrite setTimeout_delay_in_range by exact Hd.
  destruct p as [|ms o]; [right; tauto|].
  destruct (ms <? timeoutMs) eqn:E1.
  - apply Z.ltb_lt in E1. left. tauto.
  - apply Z.ltb_ge in E1. destruct (timeoutMs <? ms) eqn:E2.
    + apply Z.ltb_lt in E2. right. split; [lia|reflexivity].
    + apply Z.ltb_ge in E2. destruct (operation_first_on_tie rt) eqn:E3.
      * left. split; [right; split; [lia|reflexivity]|reflexivity].
      * right. split; [intros [H|[_ H]]; [lia|discriminate]|reflexivity].
Qed.

Lemma withTimeout_in_time {T} (p : Promise T) timeoutMs ms o :
  1 <= timeoutMs <= 2147483647 ->
  withTimeout rt p timeoutMs = Settles ms o ->
  ms <= timeoutMs /\ (0 <= settle_time p -> 0 <= ms).
Proof.
  intros Hd H. destruct (withTimeout_decides p timeoutMs Hd) as [[Hc E]|[_ E]];
    rewrite E in H.
  - subst p. simpl in *. lia.
  - injection H as <- _. lia.
Qed.

Lemma as_Error_instanceof e kept : as_Error e = Some kept -> instanceof_Error kept = true.
Proof.
  destruct e as [m|h|message props|v]; simpl; try (now intros [= <-]).
  destruct (String v); [now intros [= <-]|discriminate].
Qed.

(** [createMCPError] does not see whether [withRetry] has wrapped the
    value thrown into an [Error]. *)
Lemma createMCPError_as_Error toolName e kept args :
  as_Error e = Some kept ->
  createMCPError rt toolName kept args = createMCPError rt toolName e args.
Proof.
  destruct e as [m|h|message props|v]; simpl; try (now intros [= <-]).
  destruct (String v); [now intros [= <-]|discriminate].
Qed.

(** [executeWithResilience] with the options [createSafeTool] passes:
    two attempts of at most 30 s, one second apart; a failure that
    cannot be kept as [lastError] ends it at once. *)
Lemma executeWithResilience_two_attempts {T} (operation : Operation St T) w :
  executeWithResilience rt operation
    {| opt_maxRetries := Some 2; opt_timeoutMs := Some 30000; opt_delayMs := None |} w
  = let s1 := snd (operation (store w)) in
    let s2 := snd (operation s1) in
    match withTimeout rt (fst (operation (store w))) 30000 with
    | Never =>
        (Pending, {| now := now w; store := s1;
                     trace := (trace w ++ [Invoked])%list; console := console w |})
    | Settles ms1 (Fulfilled v) =>
        (Returned v, {| now := now w + ms1; store := s1;
                        trace := (trace w ++ [Invoked])%list; console := console w |})
    | Settles ms1 (Rejected e1) =>
        match as_Error e1 with
        | None =>
            (Threw cannot_convert,
             {| now := now w + ms1; store := s1;
                trace := (trace w ++ [Invoked])%list; console := console w |})
        | Some _ =>
            match withTimeout rt (fst (operation s1)) 30000 with
            | Never =>
                (Pending, {| now := now w + ms1 + 1000; store := s2;
                             trace := (trace w ++ [Invoked; Waited 1000; Invoked])%list;
                             console := console w |})
            | Settles ms2 (Fulfilled v) =>
                (Returned v, {| now := now w + ms1 + 1000 + ms2; store := s2;
                                trace := (trace w ++ [Invoked; Waited 1000; Invoked])%list;
                                console := console w |})
            | Settles ms2 (Rejected e2) =>
                (Threw match as_Error e2 with
                       | Some kept => kept
                       | None => cannot_convert
                       end,
                 {| now := now w + ms1 + 1000 + ms2; store := s2;
                    trace := (trace w ++ [Invoked; Waited 1000; Invoked])%list;
                    console := console w |})
            end
        end
    end.
Proof.
  unfold executeWithResilience, withRetry. simpl or_default.
  change (attempts 2) with [1; 2]. cbv zeta.
  rewrite retry_loop_cons, call_and_await_eq. cbv zeta.
  destruct (operation (store w)) as [p1 s1]. simpl fst. simpl snd.
  destruct (withTimeout rt p1 30000) as [|ms1 [v|e1]]; try reflexivity.
  destruct (as_Error e1) as [kept1|]; [|reflexivity].
  change (1 =? 2) with false. cbv iota. unfold after_ms.
  cbn [now store trace console].
  rewrite retry_loop_cons, call_and_await_eq. cbv zeta. cbn [now store trace console].
  destruct (operation s1) as [p2 s2]. simpl fst. simpl snd.
  change (setTimeout_delay 1000) with 1000.
  destruct (withTimeout rt p2 30000) as [|ms2 [v|e2]];
    cbn [now store trace console]; rewrite <- ?app_assoc; try reflexivity.
  destruct (as_Error e2) as [kept2|]; reflexivity.
Qed.

Lemma invocations_two (tr : list Event) :
  invocations (tr ++ [Invoked; Waited 1000; Invoked]) = (invocations tr + 2)%nat.
Proof. unfold invocations. rewrite filter_app, length_app. reflexivity. Qed.

Lemma delays_two (tr : list Event) :
  delays (tr ++ [Invoked; Waited 1000; Invoked]) = (delays tr ++ [1000])%list.
Proof.
  change (tr ++ [Invoked; Waited 1000; Invoked])%list
    with (tr ++ [Invoked] ++ [Waited 1000] ++ [Invoked])%list.
  rewrite !app_assoc, !delays_snoc, !app_nil_r. reflexivity.
Qed.

(** The two attempts in short: they end, within 61 s, after one or two
    calls, and what they throw is an [Error]. *)
Lemma two_attempts_summary {T} (operation : Operation St T) w :
  exists r w1,
    executeWithResilience rt operation
      {| opt_maxRetries := Some 2; opt_timeoutMs := Some 30000; opt_delayMs := None |} w
      = (r, w1) /\
    match r with
    | Returned _ => True
    | Threw err => instanceof_Error err = true
    | Pending => False
    end /\
    now w1 <= now w + 61000 /\
    (causal operation -> now w <= now w1) /\
    (invocations (trace w) < invocations (trace w1) <= invocations (trace w) + 2)%nat /\
    console w1 = console w.
Proof.
  rewrite executeWithResilience_two_attempts. cbv zeta.
  destruct (withTimeout rt (fst (operation (store w))) 30000) as [|ms1 o1] eqn:E1.
  { destruct (withTimeout_settles rt (fst (operation (store w))) 30000) as (ms & o & E).
    congruence. }
  destruct (withTimeout_in_time _ 30000 _ _ ltac:(lia) E1) as [Hup1 Hlow1].
  assert (Hone : forall (r : completion T) (w1 : World St),
             match r with
             | Returned _ => True
             | Threw err => instanceof_Error err = true
             | Pending => False
             end ->
             now w1 = now w + ms1 -> trace w1 = (trace w ++ [Invoked])%list ->
             console w1 = console w ->
             exists r' w1',
               (r, w1) = (r', w1') /\
               match r' with
               | Returned _ => True
               | Threw err => instanceof_Error err = true
               | Pending => False
               end /\
               now w1' <= now w + 61000 /\
               (causal operation -> now w <= now w1') /\
               (invocations (trace w) < invocations (trace w1')
                <= invocations (trace w) + 2)%nat /\
               console w1' = console w).
  { intros r w1 Hr Hn Ht Hc. exists r, w1. rewrite Hn, Ht, Hc, invocations_snoc.
    repeat split; auto; try lia. intros Hcausal. specialize (Hcausal (store w)). lia. }
  destruct o1 as [v|e1]; [now apply Hone|].
  destruct (as_Error e1) as [kept1|]; [|now apply Hone].
  destruct (withTimeout rt (fst (operation (snd (operation (store w))))) 30000)
    as [|ms2 o2] eqn:E2.
  { destruct (withTimeout_settles rt (fst (operation (snd (operation (store w))))) 30000)
      as (ms & o & E). congruence. }
  destruct (withTimeout_in_time _ 30000 _ _ ltac:(lia) E2) as [Hup2 Hlow2].
  assert (Htwo : forall (r : completion T),
             match r with
             | Returned _ => True
             | Threw err => instanceof_Error err = true
             | Pending => False
             end ->
             exists r' w1',
               (r, {| now := now w + ms1 + 1000 + ms2;
                      store := snd (operation (snd (operation (store w))));
                      trace := (trace w ++ [Invoked; Waited 1000; Invoked])%list;
                      console := console w |}) = (r', w1') /\
               match r' with
               | Returned _ => True
               | Threw err => instanceof_Error err = true
               | Pending => False
               end /\
               now w1' <= now w + 61000 /\
               (causal operation -> now w <= now w1') /\
               (invocations (trace w) < invocations (trace w1')
                <= invocations (trace w) + 2)%nat /\
               console w1' = console w).
  { intros r Hr. do 2 eexists. split; [reflexivity|]. cbn [now trace console].
    rewrite invocations_two. repeat split; auto; try lia.
    intros Hcausal. pose proof (Hcausal (store w)).
    pose proof (Hcausal (snd (operation (store w)))). lia. }
  destruct o2 as [v|e2]; [now apply Htwo|]. apply Htwo.
  destruct (as_Error e2) as [kept2|] eqn:K2; [|reflexivity].
  exact (as_Error_instanceof e2 kept2 K2).
Qed.

(** [createSafeTool] on arguments its validator lets through. *)
Lemma createSafeTool_valid toolName validator (handler : value -> Operation St value)
    args w :
  validator args = true ->
  createSafeTool rt toolName validator handler args w
  = match executeWithResilience rt (handler args)
            {| opt_maxRetries := Some 2; opt_timeoutMs := Some 30000;
               opt_delayMs := None |} w with
    | (Returned result, w1) =>
        (Returned (createSuccessResponse rt result None),
         {| now := now w1; store := store w1; trace := trace w1;
            console :=
              (console w1 ++
               [console_log "[MCP] Tool executed successfully: "
                  {| tool := toolName; duration := now w1 - now w; success := true;
                     log_timestamp := now w1; log_error := None |}])%list |})
    | (Threw err, w1) =>
        match createMCPError rt toolName err args with
        | Some mcpError =>
            (Returned (createErrorResponse mcpError toolName),
             {| now := now w1; store := store w1; trace := trace w1;
                console :=
                  (console w1 ++
                   [console_error "[MCP] Tool execution failed: "
                      {| tool := toolName; duration := now w1 - now w; success := false;
                         log_timestamp := now w1;
                         log_error := Some (mcp_code mcpError, mcp_message mcpError,
                                            mcp_details mcpError) |}])%list |})
        | None => (Threw cannot_convert, w1)
        end
    | (Pending, w1) => (Pending, w1)
    end.
Proof.
  intros Hv. unfold createSafeTool, validateToolArgs. rewrite Hv. simpl negb. cbv iota.
  monadic. unfold mbind at 1. unfold gets at 1. unfold try_catch. unfold mbind at 1.
  destruct (executeWithResilience rt (handler args) _ w) as [[result|err|] w1];
    try reflexivity.
  unfold mbind at 1. now destruct (createMCPError rt toolName err args).
Qed.

(** All that [createSafeTool] does, in one place: it answers, within
    61 s and two calls of the handler, and prints one record that says
    what it answered. *)
Lemma createSafeTool_summary toolName validator (handler : value -> Operation St value)
    args w :
  exists response w' line,
    createSafeTool rt toolName validator handler args w = (Returned response, w') /\
    (now w' <= now w + 61000 /\
     (invocations (trace w') <= invocations (trace w) + 2)%nat /\
     (causal (handler args) -> now w <= now w')) /\
    (console w' = (console w ++ [line])%list /\
     tool (line_data line) = toolName /\
     success (line_data line) = succeeded response /\
     to_stderr line = negb (succeeded response) /\
     duration (line_data line) = now w' - now w /\
     log_timestamp (line_data line) = now w' /\
     (log_error (line_data line) = None <-> succeeded response = true)) /\
    (validator args = false ->
     response = createErrorResponse (invalid_arguments toolName args) toolName /\
     trace w' = trace w /\ store w' = store w) /\
    (validator args = true ->
     (invocations (trace w) < invocations (trace w'))%nat).
Proof.
  destruct (validator args) eqn:Hv.
  - rewrite (createSafeTool_valid _ _ _ _ _ Hv).
    destruct (two_attempts_summary (handler args) w)
      as (r & w1 & -> & Hr & Hup & Hlow & Hinv & Hcon).
    destruct r as [result|err|]; [| |contradiction].
    + do 3 eexists. split; [reflexivity|]. cbn [now trace console store].
      rewrite Hcon. repeat split; try discriminate; auto; lia.
    + pose proof (createMCPError_of_Error rt toolName err args Hr) as Hm.
      destruct (createMCPError rt toolName err args) as [mcpError|]; [|congruence].
      do 3 eexists. split; [reflexivity|]. cbn [now trace console store].
      rewrite Hcon. repeat split; try discriminate; auto; lia.
  - rewrite (createSafeTool_invalid _ _ _ _ _ _ Hv).
    do 3 eexists. split; [reflexivity|]. cbn [now trace console store].
    repeat split; try discriminate; try lia.
Qed.

End MoreSteps.

(** *** Retries *)

(** X14. However it ends, [withRetry] has called the operation at most
    [maxRetries] times, has waited [delayMs * 2 ^ (attempt - 1)] after
    each call but the last and for nothing else, and has printed
    nothing. With a [maxRetries] of 0 or less it does not call the
    operation at all and throws [undefined], the value of a [lastError]
    that was never assigned. *)
Theorem withRetry_calls_at_most_maxRetries :
  forall (St T : Type) (operation : Operation St T) (maxRetries delayMs : Z)
         (w : World St),
    (exists j : nat,
       (j <= Z.to_nat maxRetries)%nat /\
       invocations (trace (snd (withRetry operation maxRetries delayMs w)))
         = (invocations (trace w) + j)%nat /\
       delays (trace (snd (withRetry operation maxRetries delayMs w)))
         = (delays (trace w) ++ backoff delayMs 1 (j - 1))%list /\
       console (snd (withRetry operation maxRetries delayMs w)) = console w) /\
    (maxRetries <= 0 ->
     withRetry operation maxRetries delayMs w = (Threw (ExnValue VUndefined), w)).
Proof.
  intros St T operation maxRetries delayMs w. unfold withRetry, attempts. split.
  - destruct (Z.to_nat maxRetries) as [|n] eqn:E.
    + exists 0%nat. simpl. rewrite app_nil_r. auto.
    + destruct (retry_loop_bounded operation (S n) delayMs (S n) 1 None w eq_refl)
        as (j & Hj & _ & Hinv & Hdel & Hcon).
      replace (Z.of_nat (S n)) with maxRetries in Hinv, Hdel, Hcon by lia.
      exists j. auto.
  - intros H. replace (Z.to_nat maxRetries) with 0%nat by lia. reflexivity.
Qed.

Lemma withRetry_calls_at_most_maxRetries_witness :
  0 <= 0 /\
  withRetry flaky 0 1000 (start 0%nat) = (Threw (ExnValue VUndefined), start 0%nat).
Proof.
  split; [lia|].
  apply (withRetry_calls_at_most_maxRetries nat value flaky 0 1000 (start 0%nat)). lia.
Defined.

(** X15. When call number [k] (from 0) of the operation is the first to
    fulfil, the calls before it rejecting, each with an [Error] or with
    a value that [String] converts, and [k < maxRetries]: [withRetry]
    returns the value of that call, has called the operation [k + 1]
    times and no more, has asked for a delay of
    [delayMs * 2 ^ (attempt - 1)] after each of the [k] failures, and
    leaves the store as that call left it. *)
Theorem withRetry_stops_at_first_success :
  forall (St T : Type) (operation : Operation St T) (maxRetries delayMs : Z)
         (w : World St) (k : nat) (v : T),
    (k < Z.to_nat maxRetries)%nat ->
    first_success_at operation (store w) k v ->
    exists w',
      withRetry operation maxRetries delayMs w = (Returned v, w') /\
      invocations (trace w') = (invocations (trace w) + S k)%nat /\
      delays (trace w') = (delays (trace w) ++ backoff delayMs 1 k)%list /\
      store w' = snd (nth_call operation k (store w)).
Proof.
  intros St T operation maxRetries delayMs w k v Hk Hfirst.
  destruct (retry_loop_first_success operation (Z.to_nat maxRetries) delayMs
              k (Z.to_nat maxRetries) 1 None w v Hk ltac:(lia) Hfirst)
    as (w' & Hrun & Hinv & Hdel & Hst & _).
  rewrite Z2Nat.id in Hrun by lia.
  exists w'. auto.
Qed.

Lemma withRetry_stops_at_first_success_witness :
  (2 < Z.to_nat 5)%nat /\
  first_success_at flaky 0%nat 2 (VString "ok") /\
  exists w',
    withRetry flaky 5 1000 (start 0%nat) = (Returned (VString "ok"), w') /\
    invocations (trace w') = 3%nat /\
    delays (trace w') = [1000; 2000].
Proof.
  assert (Hk : (2 < Z.to_nat 5)%nat) by (simpl; lia).
  assert (Hfirst : first_success_at flaky 0%nat 2 (VString "ok")).
  { split; [|exists 7; reflexivity].
    intros [|[|j]] Hj; simpl; [discriminate|discriminate|lia]. }
  split; [exact Hk|]. split; [exact Hfirst|].
  destruct (withRetry_stops_at_first_success nat value flaky 5 1000 (start 0%nat)
              2 (VString "ok") Hk Hfirst) as (w' & Hrun & Hinv & Hdel & _).
  exists w'. split; [exact Hrun|]. split; [exact Hinv|exact Hdel].
Defined.

(** X16. [withRetry] has no timeout of its own: on an operation whose
    promise never settles it waits for ever after one call, with
    whatever [maxRetries] of at least 1; [executeWithResilience], which
    puts [withTimeout] around each attempt, never does. *)
Theorem withRetry_waits_where_executeWithResilience_ends :
  forall (St T : Type) (rt : Runtime) (operation : Operation St T)
         (maxRetries delayMs : Z) (options : ResilienceOptions) (w : World St),
    1 <= maxRetries ->
    fst (operation (store w)) = Never ->
    fst (withRetry operation maxRetries delayMs w) = Pending /\
    trace (snd (withRetry operation maxRetries delayMs w)) = (trace w ++ [Invoked])%list /\
    fst (executeWithResilience rt operation options w) <> Pending.
Proof.
  intros St T rt operation maxRetries delayMs options w Hn Hnever.
  split; [|split; [|apply executeWithResilience_settles]];
    unfold withRetry, attempts;
    (destruct (Z.to_nat maxRetries) as [|n] eqn:E; [lia|]);
    change (map Z.of_nat (seq 1 (S n))) with (Z.of_nat 1 :: map Z.of_nat (seq 2 n));
    rewrite retry_loop_cons, call_and_await_eq, Hnever; reflexivity.
Qed.

Lemma withRetry_waits_where_executeWithResilience_ends_witness :
  1 <= 3 /\
  fst (withRetry hanging 3 1000 (start 0%nat)) = Pending /\
  fst (executeWithResilience test_runtime hanging
         {| opt_maxRetries := None; opt_timeoutMs := None; opt_delayMs := None |}
         (start 0%nat))
    = Threw (timeout_error 30000).
Proof.
  destruct (withRetry_waits_where_executeWithResilience_ends nat value test_runtime
              hanging 3 1000
              {| opt_maxRetries := None; opt_timeoutMs := None; opt_delayMs := None |}
              (start 0%nat)) as (Hpending & _ & _); [lia|reflexivity|].
  split; [lia|]. split; [exact Hpending|reflexivity].
Defined.

(** *** [createSafeTool] *)

(** X17. For a handler that deals in data, that is, fulfils with
    JSON-like values and rejects with [Error]s holding JSON-like values
    or with such values themselves: whatever the validator answers, and
    however and whenever the promises of the handler settle, if they do,
    the function that [createSafeTool] builds answers at most 61 s after
    the call (two attempts of at most 30 s, one second apart) and has
    called the handler at most twice, a failure whose conversion to a
    string throws included; when no promise of the handler settles
    before it was made, the answer does not come before the call. *)
Theorem createSafeTool_answers_within_61_seconds :
  forall (St : Type) (rt : Runtime) (toolName : string) (validator : value -> bool)
         (handler : value -> Operation St value) (args : value) (w : World St),
    exists response w',
      createSafeTool rt toolName validator handler args w = (Returned response, w') /\
      now w' <= now w + 61000 /\
      (invocations (trace w') <= invocations (trace w) + 2)%nat /\
      (causal (handler args) -> now w <= now w').
Proof.
  intros St rt toolName validator handler args w.
  destruct (createSafeTool_summary rt toolName validator handler args w)
    as (response & w' & line & Hrun & (Hup & Hinv & Hlow) & _).
  exists response, w'. auto.
Qed.

Lemma createSafeTool_answers_within_61_seconds_witness :
  causal recovering /\
  exists response w',
    createSafeTool test_runtime "list_workflows" isListWorkflowsArgs (fun _ => recovering)
      (VObject []) (start 0%nat) = (Returned response, w') /\
    now w' = 1080 /\ 0 <= now w' <= 61000.
Proof.
  assert (Hc : causal recovering) by (intros [|calls]; simpl; lia).
  split; [exact Hc|].
  destruct (createSafeTool_answers_within_61_seconds nat test_runtime "list_workflows"
              isListWorkflowsArgs (fun _ => recovering) (VObject []) (start 0%nat))
    as (response & w' & Hrun & Hup & _ & Hlow).
  exists response, w'. split; [exact Hrun|]. split.
  - injection Hrun as _ <-. reflexivity.
  - specialize (Hlow Hc). simpl in Hup, Hlow. lia.
Defined.

(** X18. For a handler that deals in data (JSON-like results, failures
    that are [Error]s holding JSON-like values or such values
    themselves), each call of a function built by [createSafeTool]
    prints exactly one record of [logToolExecution], and the record
    agrees with the answer: it names the tool, its [success] is [true]
    exactly when the response has [isError: false], it goes to
    [console.error] exactly when the response is an error and then, and
    only then, carries the error; its [duration] is the time the call
    took. *)
Theorem createSafeTool_logs_what_it_answers :
  forall (St : Type) (rt : Runtime) (toolName : string) (validator : value -> bool)
         (handler : value -> Operation St value) (args : value) (w : World St),
    exists response w' line,
      createSafeTool rt toolName validator handler args w = (Returned response, w') /\
      console w' = (console w ++ [line])%list /\
      tool (line_data line) = toolName /\
      success (line_data line) = succeeded response /\
      to_stderr line = negb (succeeded response) /\
      duration (line_data line) = now w' - now w /\
      log_timestamp (line_data line) = now w' /\
      (log_error (line_data line) = None <-> succeeded response = true).
Proof.
  intros St rt toolName validator handler args w.
  destruct (createSafeTool_summary rt toolName validator handler args w)
    as (response & w' & line & Hrun & _ & Hlog & _).
  exists response, w', line. split; [exact Hrun|exact Hlog].
Qed.

(** X19. Arguments the validator accepts and a handler whose first
    promise is fulfilled, with a JSON-like value, before the 30 s are
    over: the tool answers with [createSuccessResponse] of the
    handler's value, at the time the handler was done, after one call
    and no wait, and logs a success whose duration is the handler's. *)
Theorem createSafeTool_returns_first_result :
  forall (St : Type) (rt : Runtime) (toolName : string) (validator : value -> bool)
         (handler : value -> Operation St value) (args : value) (w : World St)
         (ms : Z) (data : value) (s' : St),
    validator args = true ->
    handler args (store w) = (Settles ms (Fulfilled data), s') ->
    completes_first rt (Settles ms (Fulfilled data)) 30000 ->
    createSafeTool rt toolName validator handler args w
      = (Returned (createSuccessResponse rt data None),
         {| now := now w + ms; store := s';
            trace := (trace w ++ [Invoked])%list;
            console :=
              (console w ++
               [console_log "[MCP] Tool executed successfully: "
                  {| tool := toolName; duration := now w + ms - now w; success := true;
                     log_timestamp := now w + ms; log_error := None |}])%list |}).
Proof.
  intros St rt toolName validator handler args w ms data s' Hv Hop Hfirst.
  rewrite (createSafeTool_valid _ _ _ _ _ _ Hv), executeWithResilience_two_attempts.
  cbv zeta. rewrite Hop. simpl fst. simpl snd.
  destruct (withTimeout_decides rt (Settles ms (Fulfilled data)) 30000 ltac:(lia))
    as [[_ ->]|[Hno _]]; [reflexivity|contradiction].
Qed.

Lemma createSafeTool_returns_first_result_witness :
  exists w',
    createSafeTool test_runtime "list_workflows" isListWorkflowsArgs
      (fun _ calls => (Settles 40 (Fulfilled (VString "[]")), S calls))
      (VObject []) (start 0%nat)
    = (Returned (createSuccessResponse test_runtime (VString "[]") None), w') /\
    now w' = 40 /\ store w' = 1%nat /\ trace w' = [Invoked].
Proof.
  eexists. split.
  - apply (createSafeTool_returns_first_result nat test_runtime "list_workflows"
             isListWorkflowsArgs
             (fun _ calls => (Settles 40 (Fulfilled (VString "[]")), S calls))
             (VObject []) (start 0%nat) 40 (VString "[]") 1%nat).
    + reflexivity.
    + reflexivity.
    + simpl. lia.
  - repeat split.
Defined.

(** X20. Arguments the validator accepts and a handler none of whose
    promises settles within 30 s (or at all): the tool answers exactly
    61 s after the call with a [TOOL_EXECUTION_ERROR] whose details say
    "Operation timed out after 30000ms", having called the handler
    twice and waited one second in between. The two calls are not
    undone: the store is as the second call left it. *)
Theorem createSafeTool_times_out_slow_handler :
  forall (St : Type) (rt : Runtime) (toolName : string) (validator : value -> bool)
         (handler : value -> Operation St value) (args : value) (w : World St),
    validator args = true ->
    (forall s, ~ completes_first rt (fst (handler args s)) 30000) ->
    exists w',
      createSafeTool rt toolName validator handler args w
        = (Returned (createErrorResponse
                       (ToolExecutionError toolName
                          {| ted_toolName := toolName;
                             ted_originalError := "Operation timed out after 30000ms";
                             ted_args := args |})
                       toolName), w') /\
      now w' = now w + 61000 /\
      trace w' = (trace w ++ [Invoked; Waited 1000; Invoked])%list /\
      store w' = snd (nth_call (handler args) 1 (store w)).
Proof.
  intros St rt toolName validator handler args w Hv Hslow.
  rewrite (createSafeTool_valid _ _ _ _ _ _ Hv), executeWithResilience_two_attempts.
  cbv zeta.
  destruct (withTimeout_decides rt (fst (handler args (store w))) 30000 ltac:(lia))
    as [[Hc _]|[_ ->]]; [now elim (Hslow (store w))|].
  destruct (withTimeout_decides rt (fst (handler args (snd (handler args (store w)))))
              30000 ltac:(lia))
    as [[Hc _]|[_ ->]]; [now elim (Hslow (snd (handler args (store w))))|].
  eexists. split; [reflexivity|]. cbn [now trace store]. repeat split. lia.
Qed.

Lemma createSafeTool_times_out_slow_handler_witness :
  exists response w',
    createSafeTool test_runtime "get_workflow" isGetWorkflowArgs (fun _ => hanging)
      (VObject [("workflowId", VString "7")]) (start 0%nat) = (Returned response, w') /\
    response_mentions "Operation timed out after 30000ms" response = true /\
    now w' = 61000 /\ store w' = 2%nat.
Proof.
  destruct (createSafeTool_times_out_slow_handler nat test_runtime "get_workflow"
              isGetWorkflowArgs (fun _ => hanging)
              (VObject [("workflowId", VString "7")]) (start 0%nat))
    as (w' & Hrun & Hnow & _ & Hstore).
  - reflexivity.
  - intros s H. exact H.
  - do 2 eexists. split; [exact Hrun|]. split; [reflexivity|]. split; assumption.
Defined.

(** X21. Arguments the validator accepts and a first call that fails
    within the 30 s, with an [Error] or with a value that [String]
    converts: the tool waits one second and calls the handler a second
    time, and that call decides. When it fulfils in time, with a
    JSON-like value, the answer is the success response of that value,
    and the first failure leaves no mark in the answer; when it fails
    too, again with an [Error] or a value that [String] converts, the
    answer is the error response of what [createMCPError] makes of the
    second failure, the first one being dropped. *)
Theorem createSafeTool_second_attempt_decides :
  forall (St : Type) (rt : Runtime) (toolName : string) (validator : value -> bool)
         (handler : value -> Operation St value) (args : value) (w : World St)
         (ms1 : Z) (e1 : exn) (s1 : St) (ms2 : Z) (o2 : outcome value) (s2 : St),
    validator args = true ->
    handler args (store w) = (Settles ms1 (Rejected e1), s1) ->
    completes_first rt (Settles ms1 (@Rejected value e1)) 30000 ->
    as_Error e1 <> None ->
    handler args s1 = (Settles ms2 o2, s2) ->
    completes_first rt (Settles ms2 o2) 30000 ->
    match o2 with
    | Fulfilled _ => True
    | Rejected e2 => as_Error e2 <> None
    end ->
    exists w',
      match o2 with
      | Fulfilled data =>
          createSafeTool rt toolName validator handler args w
            = (Returned (createSuccessResponse rt data None), w')
      | Rejected e2 =>
          exists mcpError,
            createMCPError rt toolName e2 args = Some mcpError /\
            createSafeTool rt toolName validator handler args w
              = (Returned (createErrorResponse mcpError toolName), w')
      end /\
      now w' = now w + ms1 + 1000 + ms2 /\
      trace w' = (trace w ++ [Invoked; Waited 1000; Invoked])%list /\
      store w' = s2.
Proof.
  intros St rt toolName validator handler args w ms1 e1 s1 ms2 o2 s2
    Hv H1 Hc1 He1 H2 Hc2 He2.
  rewrite (createSafeTool_valid _ _ _ _ _ _ Hv), executeWithResilience_two_attempts.
  cbv zeta. rewrite H1. simpl fst. simpl snd. rewrite H2. simpl fst. simpl snd.
  destruct (withTimeout_decides rt (Settles ms1 (@Rejected value e1)) 30000 ltac:(lia))
    as [[_ ->]|[Hno _]]; [|contradiction].
  destruct (withTimeout_decides rt (Settles ms2 o2) 30000 ltac:(lia))
    as [[_ ->]|[Hno _]]; [|contradiction].
  destruct (as_Error e1) as [kept1|]; [|congruence].
  destruct o2 as [data|e2].
  - eexists. split; [reflexivity|]. repeat split.
  - destruct (as_Error e2) as [kept2|] eqn:K2; [|congruence].
    rewrite (createMCPError_as_Error rt toolName e2 kept2 args K2).
    pose proof (proj1 (createMCPError_usable rt toolName e2 args)) as Hm.
    rewrite K2 in Hm. specialize (Hm ltac:(discriminate)).
    destruct (createMCPError rt toolName e2 args) as [mcpError|]; [|congruence].
    eexists. split; [exists mcpError; split; reflexivity|]. repeat split.
Qed.

Lemma createSafeTool_second_attempt_decides_witness :
  exists w',
    createSafeTool test_runtime "list_workflows" isListWorkflowsArgs (fun _ => recovering)
      (VObject []) (start 0%nat)
    = (Returned (createSuccessResponse test_runtime (VObject [("ok", VBool true)]) None),
       w') /\
    now w' = 1080 /\ trace w' = [Invoked; Waited 1000; Invoked].
Proof.
  destruct (createSafeTool_second_attempt_decides nat test_runtime "list_workflows"
              isListWorkflowsArgs (fun _ => recovering) (VObject []) (start 0%nat)
              40 (ExnError "Request failed with status code 503"
                    [("response", VObject [("status", VNumber 503);
                                           ("data", VString "busy")])])
              1%nat 40 (Fulfilled (VObject [("ok", VBool true)])) 2%nat)
    as (w' & Hrun & Hnow & Htrace & _).
  - reflexivity.
  - reflexivity.
  - simpl. lia.
  - discriminate.
  - reflexivity.
  - simpl. lia.
  - exact I.
  - exists w'. split; [exact Hrun|]. split; [exact Hnow|exact Htrace].
Defined.

(** X26. Arguments the validator accepts and a first call that fails,
    within the 30 s, with a value that has no usable [toString]: the
    conversion of the failure throws inside the retry loop, so the
    handler is not called a second time and nothing is waited for; the
    tool answers, when the first call is done, with the error response
    of a [TOOL_EXECUTION_ERROR] whose details hold the message of the
    [TypeError], "Cannot convert object to primitive value". *)
Theorem createSafeTool_stops_on_inconvertible_failure :
  forall (St : Type) (rt : Runtime) (toolName : string) (validator : value -> bool)
         (handler : value -> Operation St value) (args : value) (w : World St)
         (ms : Z) (thrown : value) (s' : St),
    validator args = true ->
    handler args (store w) = (Settles ms (Rejected (ExnValue thrown)), s') ->
    completes_first rt (Settles ms (@Rejected value (ExnValue thrown))) 30000 ->
    String thrown = None ->
    exists w',
      createSafeTool rt toolName validator handler args w
        = (Returned (createErrorResponse
                       (ToolExecutionError toolName
                          {| ted_toolName := toolName;
                             ted_originalError :=
                               "Cannot convert object to primitive value";
                             ted_args := args |})
                       toolName), w') /\
      now w' = now w + ms /\
      trace w' = (trace w ++ [Invoked])%list /\
      store w' = s'.
Proof.
  intros St rt toolName validator handler args w ms thrown s' Hv Hop Hfirst Hthrown.
  rewrite (createSafeTool_valid _ _ _ _ _ _ Hv), executeWithResilience_two_attempts.
  cbv zeta. rewrite Hop. simpl fst. simpl snd.
  destruct (withTimeout_decides rt (Settles ms (@Rejected value (ExnValue thrown))) 30000
              ltac:(lia)) as [[_ ->]|[Hno _]]; [|contradiction].
  simpl as_Error. rewrite Hthrown.
  eexists. split; [reflexivity|]. repeat split.
Qed.

Lemma createSafeTool_stops_on_inconvertible_failure_witness :
  String no_toString = None /\
  exists response w',
    createSafeTool test_runtime "list_workflows" isListWorkflowsArgs
      (fun _ => always_failing (ExnValue no_toString)) (VObject []) (start 0%nat)
    = (Returned response, w') /\
    response_mentions "Cannot convert object to primitive value" response = true /\
    invocations (trace w') = 1%nat /\ delays (trace w') = [].
Proof.
  split; [reflexivity|].
  destruct (createSafeTool_stops_on_inconvertible_failure nat test_runtime "list_workflows"
              isListWorkflowsArgs (fun _ => always_failing (ExnValue no_toString))
              (VObject []) (start 0%nat) 0 no_toString 1%nat)
    as (w' & Hrun & _ & Htrace & _).
  - reflexivity.
  - reflexivity.
  - simpl. lia.
  - reflexivity.
  - do 2 eexists. split; [exact Hrun|]. split; [reflexivity|].
    rewrite Htrace. split; reflexivity.
Defined.

End WrappersInUseFacts.

(* ===================================================================== *)
(** ** Facts about the handler of tool calls *)
(* ===================================================================== *)

Module CallToolFacts.
Import Js Types Async ConnectionPool ToolExecution WrappersInUse CallTool.
Import AsyncFacts ConnectionPoolFacts ToolExecutionFacts WrappersInUseFacts.

Section RegistryFacts.
Context {St : Type} (rt : Runtime) (handlers : string -> value -> Operation St value).
Implicit Types (w : World St).

Lemma toolRegistry_keys : Map_keys (toolRegistry rt handlers) = tool_names.
Proof. reflexivity. Qed.

Lemma toolSchemas_names : map schema_name toolSchemas = tool_names.
Proof. reflexivity. Qed.

(** Each registered tool checks what its schema requires: that the
    arguments are an object with a string for each required field. *)
Lemma toolRegistry_get name :
  In name tool_names ->
  exists validator,
    Map_get name (toolRegistry rt handlers)
      = Some (createSafeTool rt name validator (handlers name)) /\
    forall args, validator args = meets_requirements name args.
Proof.
  intros H. unfold tool_names in H. simpl in H.
  repeat (destruct H as [<-|H];
          [eexists; split; [reflexivity|];
           intros args; unfold meets_requirements;
           match goal with |- context [required_fields ?n] =>
             let r := eval vm_compute in (required_fields n) in
             change (required_fields n) with r
           end;
           cbn [forallb];
           unfold isListWorkflowsArgs, isGetWorkflowArgs, isCreateWorkflowArgs,
             hasWorkflowId, isAddNodeArgs;
           rewrite ?andb_true_r, ?andb_assoc; reflexivity|]).
  contradiction.
Qed.

Lemma toolRegistry_unknown name :
  ~ In name tool_names -> Map_get name (toolRegistry rt handlers) = None.
Proof. intros H. apply Map_get_None. now rewrite toolRegistry_keys. Qed.

(** A registered tool that answers: the handler hands the answer on
    and records a success. *)
Lemma callTool_registered (registry : list (string * Tool)) name f args response w w1 :
  Map_get name registry = Some f ->
  f args w = (Returned response, w1) ->
  callTool registry name args w
  = (Returned response,
     {| now := now w1; store := store w1; trace := trace w1;
        console :=
          (console w1 ++
           [console_log "[MCP] Tool executed successfully: "
              {| tool := name; duration := now w1 - now w; success := true;
                 log_timestamp := now w1; log_error := None |}])%list |}).
Proof.
  intros Hget Hrun. unfold callTool. rewrite Hget. monadic.
  unfold mbind at 1. unfold gets at 1. unfold try_catch.
  rewrite (bind_returned Hrun). reflexivity.
Qed.

(** A name that is not registered. *)
Lemma callTool_not_registered (registry : list (string * Tool)) name args w :
  Map_get name registry = None ->
  callTool registry name args w
  = (Returned (createErrorResponse (unknown_tool name args) name),
     {| now := now w; store := store w; trace := trace w;
        console :=
          (console w ++
           [console_error "[MCP] Tool execution failed: "
              {| tool := name; duration := now w - now w; success := false;
                 log_timestamp := now w;
                 log_error := Some (mcp_code (unknown_tool name args),
                                    mcp_message (unknown_tool name args),
                                    mcp_details (unknown_tool name args)) |}])%list |}).
Proof. intros Hget. unfold callTool. rewrite Hget. reflexivity. Qed.

Lemma logged_snoc w (c : list ConsoleLine) line :
  console w = (c ++ [line])%list ->
  logged w = (map (fun l => (tool (line_data l), success (line_data l))) c
              ++ [(tool (line_data line), success (line_data line))])%list.
Proof. intros H. unfold logged. rewrite H, map_app. reflexivity. Qed.

End RegistryFacts.

(** X22. A request for a tool that is not in the registry is answered
    with an error response of code [TOOL_EXECUTION_ERROR] that says
    "Unknown tool: [name]" and carries the arguments; no handler is
    called, nothing is waited for and the upstream is left alone; one
    failure is logged. *)
Theorem callTool_unknown_tool :
  forall (St : Type) (rt : Runtime) (handlers : string -> value -> Operation St value)
         (name : string) (args : value) (w : World St),
    ~ In name tool_names ->
    exists w',
      callTool (toolRegistry rt handlers) name args w
        = (Returned (createErrorResponse (unknown_tool name args) name), w') /\
      metadata (createErrorResponse (unknown_tool name args) name)
        = Some (MetaError "TOOL_EXECUTION_ERROR"
                  (DetailsTool {| ted_toolName := name;
                                  ted_originalError := "Unknown tool: " ++ name;
                                  ted_args := args |})) /\
      now w' = now w /\ store w' = store w /\ trace w' = trace w /\
      logged w' = (logged w ++ [(name, false)])%list.
Proof.
  intros St rt handlers name args w Hname.
  rewrite (callTool_not_registered _ _ _ _ (toolRegistry_unknown rt handlers name Hname)).
  eexists. split; [reflexivity|]. repeat split.
  unfold logged. cbn [console]. now rewrite map_app.
Qed.

Lemma callTool_unknown_tool_witness :
  ~ In "delete_workflow" tool_names /\
  exists w',
    callTool (toolRegistry test_runtime steady_upstream) "delete_workflow"
      (VObject [("workflowId", VString "7")]) (start 0%nat)
    = (Returned (createErrorResponse
                   (unknown_tool "delete_workflow" (VObject [("workflowId", VString "7")]))
                   "delete_workflow"), w') /\
    store w' = 0%nat /\ logged w' = [("delete_workflow", false)].
Proof.
  assert (H : ~ In "delete_workflow" tool_names) by (simpl; intuition discriminate).
  split; [exact H|].
  destruct (callTool_unknown_tool nat test_runtime steady_upstream "delete_workflow"
              (VObject [("workflowId", VString "7")]) (start 0%nat) H)
    as (w' & Hrun & _ & _ & Hstore & _ & Hlog).
  exists w'. split; [exact Hrun|]. split; [exact Hstore|exact Hlog].
Defined.

(** X23. Whatever the name, the arguments and the bodies of the tools,
    the handler of tool calls answers with a response: it never throws
    and never waits for ever; the answer comes within 61 s and after at
    most two calls of a tool body. For a registered tool two records
    are logged, the tool's own, which says what the answer is, and the
    handler's, which says success whatever the answer is; for any other
    name one failure is logged and the answer is an error. *)
Theorem callTool_always_answers :
  forall (St : Type) (rt : Runtime) (handlers : string -> value -> Operation St value)
         (name : string) (args : value) (w : World St),
    exists response w',
      callTool (toolRegistry rt handlers) name args w = (Returned response, w') /\
      now w' <= now w + 61000 /\
      (invocations (trace w') <= invocations (trace w) + 2)%nat /\
      (In name tool_names ->
       logged w' = (logged w ++ [(name, succeeded response); (name, true)])%list) /\
      (~ In name tool_names ->
       logged w' = (logged w ++ [(name, false)])%list /\ succeeded response = false).
Proof.
  intros St rt handlers name args w.
  destruct (in_dec string_dec name tool_names) as [Hin|Hout].
  - destruct (toolRegistry_get rt handlers name Hin) as (validator & Hget & _).
    destruct (createSafeTool_summary rt name validator (handlers name) args w)
      as (response & w1 & line & Hrun & (Hup & Hinv & _)
          & (Hcon & Htool & Hsucc & _) & _).
    rewrite (callTool_registered _ _ _ _ _ _ _ Hget Hrun).
    do 2 eexists. split; [reflexivity|]. cbn [now trace].
    split; [exact Hup|]. split; [exact Hinv|]. split; [|contradiction].
    intros _. unfold logged. cbn [console]. rewrite Hcon, !map_app. simpl.
    rewrite Htool, Hsucc, <- app_assoc. reflexivity.
  - rewrite (callTool_not_registered _ _ _ _ (toolRegistry_unknown rt handlers name Hout)).
    do 2 eexists. split; [reflexivity|]. cbn [now trace].
    split; [lia|]. split; [lia|]. split; [contradiction|].
    intros _. split; [|reflexivity].
    unfold logged. cbn [console]. now rewrite map_app.
Qed.

(** X24. The schemas the server publishes and the registry name the
    same tools, in the same order; and each tool enforces what its
    schema marks as required. When the arguments are not an object, or
    lack a string for a required field, the answer is the error
    [validateToolArgs] builds and the body of the tool is not called,
    so the upstream is left alone; when they are an object with a
    string for each required field, the body of the tool is called. *)
Theorem callTool_checks_required_fields :
  forall (St : Type) (rt : Runtime) (handlers : string -> value -> Operation St value)
         (name : string) (args : value) (w : World St),
    In name (map schema_name toolSchemas) ->
    map schema_name toolSchemas = Map_keys (toolRegistry rt handlers) /\
    (meets_requirements name args = false ->
     exists w',
       callTool (toolRegistry rt handlers) name args w
         = (Returned (createErrorResponse (invalid_arguments name args) name), w') /\
       store w' = store w /\ trace w' = trace w) /\
    (meets_requirements name args = true ->
     (invocations (trace w)
      < invocations (trace (snd (callTool (toolRegistry rt handlers) name args w))))%nat).
Proof.
  intros St rt handlers name args w Hin. split; [reflexivity|].
  rewrite toolSchemas_names in Hin.
  destruct (toolRegistry_get rt handlers name Hin) as (validator & Hget & Hval).
  destruct (createSafeTool_summary rt name validator (handlers name) args w)
    as (response & w1 & line & Hrun & _ & _ & Hbad & Hgood).
  rewrite (callTool_registered _ _ _ _ _ _ _ Hget Hrun). rewrite Hval in Hbad, Hgood.
  split.
  - intros H. destruct (Hbad H) as (-> & Htrace & Hstore).
    eexists. split; [reflexivity|]. split; assumption.
  - intros H. exact (Hgood H).
Qed.

Lemma callTool_checks_required_fields_witness :
  In "add_node" (map schema_name toolSchemas) /\
  required_fields "add_node" = ["workflowId"; "nodeName"; "nodeType"] /\
  meets_requirements "add_node"
    (VObject [("workflowId", VString "7"); ("nodeName", VString "Webhook")]) = false /\
  exists w',
    callTool (toolRegistry test_runtime steady_upstream) "add_node"
      (VObject [("workflowId", VString "7"); ("nodeName", VString "Webhook")])
      (start 0%nat)
    = (Returned (createErrorResponse
                   (invalid_arguments "add_node"
                      (VObject [("workflowId", VString "7");
                                ("nodeName", VString "Webhook")]))
                   "add_node"), w') /\
    store w' = 0%nat.
Proof.
  assert (Hin : In "add_node" (map schema_name toolSchemas)).
  { simpl. tauto. }
  split; [exact Hin|]. split; [reflexivity|]. split; [reflexivity|].
  destruct (callTool_checks_required_fields nat test_runtime steady_upstream "add_node"
              (VObject [("workflowId", VString "7"); ("nodeName", VString "Webhook")])
              (start 0%nat) Hin) as (_ & Hbad & _).
  destruct (Hbad eq_refl) as (w' & Hrun & Hstore & _).
  exists w'. split; [exact Hrun|exact Hstore].
Defined.

End CallToolFacts.
